(** * Code Guardian AI: tree materialisation and review orchestration

    A shallow embedding of [buildFileTree], [handleFileSelect] and
    [handleAnalyzeRepo] (App.tsx), of [getRepoTree] and [getFileContent]
    (services/githubService.ts) and of [reviewCode]
    (services/geminiService.ts), followed by the properties the
    specification states about them.

    Conventions of the embedding.
    - A JavaScript string is a [string]; the only characters the code
      inspects are ['/'] and ['.'], which are single units in every
      encoding, so indices are only ever used to cut a string at a
      position found in that same string.
    - A thrown [Error] is its [message]; [undefined]/[null] is [None].
    - The React state of [App] is the record [AppState]; an [await]ed
      call is a step of the state-and-exception monad [M], which also
      records every network request, console line and progress update in
      program order.
    - The platform functions the repository does not define
      ([String.prototype.localeCompare], [fetch], [atob], the Gemini
      client, [JSON.parse], [String.prototype.trim]) are parameters. *)

From stdpp Require Import gmap strings.
From Stdlib Require Import List String Ascii ZArith Lia Bool Arith.
From Stdlib Require Import Permutation Sorting.Sorted DecimalString.
From Stdlib Require Import Structures.OrderedTypeEx.
Import ListNotations.

Open Scope string_scope.
Open Scope list_scope.

(* ================================================================== *)
(** * Data model (types.ts, githubService.ts) *)
(* ================================================================== *)

(** ['blob' | 'tree'] *)
Inductive NodeType : Type := blob | tree.

Definition NodeType_eqb (a b : NodeType) : bool :=
  match a, b with
  | blob, blob | tree, tree => true
  | _, _ => false
  end.

(** [interface GitHubFile { path; type; sha }] *)
Record GitHubFile : Type := mkGitHubFile {
  file_path : string;
  file_type : NodeType;
  file_sha : string
}.

(** [interface TreeNode { name; path; type; children; sha? }] *)
#[warnings="-register-all"]
Inductive TreeNode : Type := mkTreeNode {
  name : string;
  path : string;
  type : NodeType;
  children : list TreeNode;
  sha : option string
}.

(** [interface GithubTreeItem { path; type; sha; size?; url }] *)
Record GithubTreeItem : Type := mkGithubTreeItem {
  item_path : string;
  item_type : NodeType;
  item_sha : string;
  item_size : option Z;
  item_url : string
}.

(** [interface GithubTreeResponse { sha; url; tree; truncated }] *)
Record GithubTreeResponse : Type := mkGithubTreeResponse {
  tree_sha : string;
  tree_url : string;
  tree_items : list GithubTreeItem;
  truncated : bool
}.

(** [interface GithubRepoResponse { default_branch }] *)
Record GithubRepoResponse : Type := mkGithubRepoResponse {
  default_branch : string
}.

(** [interface GithubContentResponse { content; encoding }] *)
Record GithubContentResponse : Type := mkGithubContentResponse {
  content : string;
  encoding : string
}.

(** [interface Suggestion { lineNumber; category; description; suggestion }] *)
Record Suggestion : Type := mkSuggestion {
  lineNumber : Z;
  category : string;
  description : string;
  suggestion : string
}.

(** [interface ReviewResult { summary; suggestions }] *)
Record ReviewResult : Type := mkReviewResult {
  summary : string;
  suggestions : list Suggestion
}.

(** [enum LoadingState] *)
Inductive LoadingState : Type :=
| IDLE
| LOADING_REPO
| LOADING_REVIEW
| LOADING_REPO_REVIEW.

(** [{processed: number, total: number}] *)
Record Progress : Type := mkProgress {
  processed : nat;
  total : nat
}.

(** The outcome of a call that may throw: the value, or the message of
    the [Error] thrown. *)
Inductive Result (A : Type) : Type :=
| Ok (a : A)
| Err (message : string).
Arguments Ok {A} a.
Arguments Err {A} message.

(** What [fetch] resolves to: [ok], [status] and the outcome of
    [res.json()]. *)
Record Response (A : Type) : Type := mkResponse {
  ok : bool;
  status : nat;
  json : Result A
}.
Arguments mkResponse {A} ok status json.
Arguments ok {A} r.
Arguments status {A} r.
Arguments json {A} r.

(* ================================================================== *)
(** * JavaScript string and array primitives *)
(* ================================================================== *)

(** [!!s] on a string: the empty string is the only falsy one. *)
Definition truthy (s : string) : bool :=
  match s with
  | EmptyString => false
  | String _ _ => true
  end.

(** [s.split(sep)] for a one-character separator: never the empty
    array; [''.split('/')] is [['']]. *)
Fixpoint split (sep : ascii) (s : string) : list string :=
  match s with
  | EmptyString => [EmptyString]
  | String c s' =>
      if Ascii.eqb c sep then EmptyString :: split sep s'
      else match split sep s' with
           | [] => [String c EmptyString]
           | seg :: segs => String c seg :: segs
           end
  end.

(** [arr.join(sep)] *)
Fixpoint join (sep : string) (arr : list string) : string :=
  match arr with
  | [] => EmptyString
  | [seg] => seg
  | seg :: rest => (seg ++ sep ++ join sep rest)%string
  end.

(** [arr.slice(0, n)] *)
Definition slice0 {A : Type} (n : nat) (arr : list A) : list A := firstn n arr.

(** The scan behind [s.lastIndexOf(c)]: [i] is the index of the head of
    [s], [found] the last match seen so far. *)
Fixpoint lastIndexOf_from (c : ascii) (s : string) (i found : Z) : Z :=
  match s with
  | EmptyString => found
  | String a s' =>
      lastIndexOf_from c s' (i + 1) (if Ascii.eqb a c then i else found)
  end.

(** [s.lastIndexOf(c)] for a one-character [c]: [-1] when absent. *)
Definition lastIndexOf (c : ascii) (s : string) : Z :=
  lastIndexOf_from c s 0 (-1).

Fixpoint string_drop (n : nat) (s : string) : string :=
  match n, s with
  | O, _ => s
  | S n', EmptyString => EmptyString
  | S n', String _ s' => string_drop n' s'
  end.

(** [s.substring(start)]: a negative [start] is treated as [0], one
    beyond the end as the length. *)
Definition substring_from (start : Z) (s : string) : string :=
  string_drop (Z.to_nat (Z.max 0 start)) s.

(** [hay.includes(needle)] *)
Fixpoint includes (hay needle : string) : bool :=
  String.prefix needle hay
  || match hay with
     | EmptyString => false
     | String _ hay' => includes hay' needle
     end.

(** [new Set([...]).has(x)] *)
Definition set_has (s : list string) (x : string) : bool :=
  existsb (String.eqb x) s.

(** Template-literal rendering of a status code. *)
Definition show_status (n : nat) : string :=
  NilZero.string_of_uint (Nat.to_uint n).

(** A sample total order on strings, by code unit; used to run the tree
    builder on concrete inputs.  The builder itself is parameterised by
    the platform's [localeCompare]. *)
Definition codeUnitCompare (a b : string) : Z :=
  match String_as_OT.cmp a b with
  | Lt => (-1)%Z
  | Eq => 0%Z
  | Gt => 1%Z
  end.

(* ================================================================== *)
(** * Tree builder (App.tsx, [buildFileTree]) *)
(* ================================================================== *)

(** [child] after the walk below it has replaced its [children]. *)
Definition withChildren (child : TreeNode) (cs : list TreeNode) : TreeNode :=
  {| name := name child; path := path child; type := type child;
     children := cs; sha := sha child |}.

(** The node [currentNode.children.find(child => child.name === part)]
    returned is mutated in place by the rest of the walk; on the
    immutable tree that is a rewrite of the first child named [part]. *)
Fixpoint updateChild (part : string) (f : TreeNode -> TreeNode)
    (nodes : list TreeNode) : list TreeNode :=
  match nodes with
  | [] => []
  | child :: rest =>
      if String.eqb (name child) part then f child :: rest
      else child :: updateChild part f rest
  end.

(** The inner [forEach((part, index, arr) => ...)] from position [index]
    on, with [nodes] the children of [currentNode]; the result is that
    children array once the walk is over. *)
Fixpoint insertParts (file : GitHubFile) (arr : list string) (index : nat)
    (parts : list string) (nodes : list TreeNode) : list TreeNode :=
  match parts with
  | [] => nodes
  | part :: rest =>
      match find (fun child => String.eqb (name child) part) nodes with
      | Some _ =>
          updateChild part
            (fun childNode =>
               withChildren childNode
                 (insertParts file arr (S index) rest (children childNode)))
            nodes
      | None =>
          let isLastPart := Nat.eqb index (List.length arr - 1) in
          nodes ++
          [ {| name := part;
               path := join "/" (slice0 (index + 1) arr);
               type := if isLastPart then blob else tree;
               children := insertParts file arr (S index) rest [];
               sha := if isLastPart then Some (file_sha file) else None |} ]
      end
  end.

(** One iteration of [files.forEach(file => ...)] on [root.children]. *)
Definition insertFile (nodes : list TreeNode) (file : GitHubFile)
    : list TreeNode :=
  let arr := split "/" (file_path file) in
  insertParts file arr 0 arr nodes.

Section TreeBuilder.

(** [a.localeCompare(b)]: negative, zero or positive. *)
Variable localeCompare : string -> string -> Z.

(** The comparator handed to [nodes.sort]. *)
Definition nodeCompare (a b : TreeNode) : Z :=
  match type a, type b with
  | tree, blob => (-1)%Z
  | blob, tree => 1%Z
  | _, _ => localeCompare (name a) (name b)
  end.

(** [Array.prototype.sort] is stable; for a consistent comparator its
    result is the one of stable insertion. *)
Fixpoint sortInsert (x : TreeNode) (sorted : list TreeNode) : list TreeNode :=
  match sorted with
  | [] => [x]
  | y :: rest =>
      if (nodeCompare x y <=? 0)%Z then x :: y :: rest
      else y :: sortInsert x rest
  end.

Fixpoint sort (nodes : list TreeNode) : list TreeNode :=
  match nodes with
  | [] => []
  | x :: rest => sortInsert x (sort rest)
  end.

(** [sortNodes] on the subtree under one node: only a ['tree'] node has
    its children sorted. *)
Fixpoint sortNode (node : TreeNode) : TreeNode :=
  match type node with
  | tree => withChildren node (sort (map sortNode (children node)))
  | blob => node
  end.

(** [sortNodes(nodes)].  The source sorts [nodes] and then descends; the
    comparator reads only [type] and [name], which the descent leaves
    alone, so descending first gives the same array (lemma
    [sortNodes_unfold] states the source's order). *)
Definition sortNodes (nodes : list TreeNode) : list TreeNode :=
  sort (map sortNode nodes).

(** [buildFileTree(files)] *)
Definition buildFileTree (files : list GitHubFile) : list TreeNode :=
  sortNodes (fold_left insertFile files []).

End TreeBuilder.

(* ================================================================== *)
(** * Effects: React state, the network, the console *)
(* ================================================================== *)

(** The [useState] cells of [App]. *)
Record AppState : Type := mkAppState {
  loading : LoadingState;
  error : option string;
  apiKey : string;
  fileTree : list TreeNode;
  repoOwnerAndName : option (string * string);
  selectedFile : option GitHubFile;
  fileContent : option string;
  review : option ReviewResult;
  repoReviewResults : option (gmap string ReviewResult);
  reviewProgress : option Progress
}.

(** What a run does that is visible outside the state cells, in program
    order: the requests that leave the browser, the console lines, and
    the progress values handed to [setReviewProgress]. *)
Inductive Event : Type :=
| FetchRepo (owner repo : string)
| FetchTree (owner repo branch : string)
| FetchContents (owner repo path : string)
| GenerateContent (fileName code : string)
| ConsoleWarn (line : string)
| ConsoleError (line : string)
| ProgressShown (p : option Progress).

Record World : Type := mkWorld {
  app : AppState;
  trace : list Event
}.

(** The functions of the platform and of the two remote services.  A
    rejected promise or a thrown exception is [Err]. *)
Record Platform : Type := mkPlatform {
  fetchRepo : string -> string -> Result (Response GithubRepoResponse);
  fetchTree :
    string -> string -> string -> Result (Response GithubTreeResponse);
  fetchContents :
    string -> string -> string -> Result (Response GithubContentResponse);
  atob : string -> Result string;
  (** [ai.models.generateContent(...)] followed by [response.text], for
      the prompt built from [fileName] and [code] under [apiKey]. *)
  generateContent : string -> string -> string -> Result string;
  trim : string -> string;
  JSON_parse : string -> Result ReviewResult
}.

(** State and exceptions. *)
Definition M (A : Type) : Type := World -> Result A * World.

Definition ret {A : Type} (a : A) : M A := fun w => (Ok a, w).

Definition throw {A : Type} (message : string) : M A :=
  fun w => (Err message, w).

Definition bind {A B : Type} (m : M A) (k : A -> M B) : M B :=
  fun w =>
    match m w with
    | (Ok a, w') => k a w'
    | (Err e, w') => (Err e, w')
    end.

Declare Scope js_scope.
Delimit Scope js_scope with js.
Notation "x <- m ;; k" := (bind m (fun x => k))
  (at level 100, m at next level, right associativity) : js_scope.
Notation "m ;; k" := (bind m (fun _ => k))
  (at level 100, right associativity) : js_scope.
Open Scope js_scope.

(** [try { body } catch (e) { handler }] *)
Definition tryCatch {A : Type} (body : M A) (handler : string -> M A) : M A :=
  fun w =>
    match body w with
    | (Ok a, w') => (Ok a, w')
    | (Err e, w') => handler e w'
    end.

(** [try { body } finally { fin }] *)
Definition tryFinally {A : Type} (body : M A) (fin : M unit) : M A :=
  fun w =>
    match body w with
    | (r, w') =>
        match fin w' with
        | (Ok _, w'') => (r, w'')
        | (Err e, w'') => (Err e, w'')
        end
    end.

(** Lift the outcome of a platform call into [M]. *)
Definition liftResult {A : Type} (r : Result A) : M A := fun w => (r, w).

Definition emit (e : Event) : M unit :=
  fun w => (Ok tt, {| app := app w; trace := trace w ++ [e] |}).

Definition getState : M AppState := fun w => (Ok (app w), w).

Definition modify (f : AppState -> AppState) : M unit :=
  fun w => (Ok tt, {| app := f (app w); trace := trace w |}).

Definition setLoading (v : LoadingState) : M unit :=
  modify (fun s =>
    {| loading := v; error := error s; apiKey := apiKey s;
       fileTree := fileTree s; repoOwnerAndName := repoOwnerAndName s;
       selectedFile := selectedFile s; fileContent := fileContent s;
       review := review s; repoReviewResults := repoReviewResults s;
       reviewProgress := reviewProgress s |}).

Definition setError (v : option string) : M unit :=
  modify (fun s =>
    {| loading := loading s; error := v; apiKey := apiKey s;
       fileTree := fileTree s; repoOwnerAndName := repoOwnerAndName s;
       selectedFile := selectedFile s; fileContent := fileContent s;
       review := review s; repoReviewResults := repoReviewResults s;
       reviewProgress := reviewProgress s |}).

Definition setFileTree (v : list TreeNode) : M unit :=
  modify (fun s =>
    {| loading := loading s; error := error s; apiKey := apiKey s;
       fileTree := v; repoOwnerAndName := repoOwnerAndName s;
       selectedFile := selectedFile s; fileContent := fileContent s;
       review := review s; repoReviewResults := repoReviewResults s;
       reviewProgress := reviewProgress s |}).

Definition setRepoOwnerAndName (v : option (string * string)) : M unit :=
  modify (fun s =>
    {| loading := loading s; error := error s; apiKey := apiKey s;
       fileTree := fileTree s; repoOwnerAndName := v;
       selectedFile := selectedFile s; fileContent := fileContent s;
       review := review s; repoReviewResults := repoReviewResults s;
       reviewProgress := reviewProgress s |}).

Definition setSelectedFile (v : option GitHubFile) : M unit :=
  modify (fun s =>
    {| loading := loading s; error := error s; apiKey := apiKey s;
       fileTree := fileTree s; repoOwnerAndName := repoOwnerAndName s;
       selectedFile := v; fileContent := fileContent s;
       review := review s; repoReviewResults := repoReviewResults s;
       reviewProgress := reviewProgress s |}).

Definition setFileContent (v : option string) : M unit :=
  modify (fun s =>
    {| loading := loading s; error := error s; apiKey := apiKey s;
       fileTree := fileTree s; repoOwnerAndName := repoOwnerAndName s;
       selectedFile := selectedFile s; fileContent := v;
       review := review s; repoReviewResults := repoReviewResults s;
       reviewProgress := reviewProgress s |}).

Definition setReview (v : option ReviewResult) : M unit :=
  modify (fun s =>
    {| loading := loading s; error := error s; apiKey := apiKey s;
       fileTree := fileTree s; repoOwnerAndName := repoOwnerAndName s;
       selectedFile := selectedFile s; fileContent := fileContent s;
       review := v; repoReviewResults := repoReviewResults s;
       reviewProgress := reviewProgress s |}).

Definition setRepoReviewResults (v : option (gmap string ReviewResult))
    : M unit :=
  modify (fun s =>
    {| loading := loading s; error := error s; apiKey := apiKey s;
       fileTree := fileTree s; repoOwnerAndName := repoOwnerAndName s;
       selectedFile := selectedFile s; fileContent := fileContent s;
       review := review s; repoReviewResults := v;
       reviewProgress := reviewProgress s |}).

(** [setReviewProgress(v)]: the cell is written and the value is what
    the loader shows next. *)
Definition setReviewProgress (v : option Progress) : M unit :=
  modify (fun s =>
    {| loading := loading s; error := error s; apiKey := apiKey s;
       fileTree := fileTree s; repoOwnerAndName := repoOwnerAndName s;
       selectedFile := selectedFile s; fileContent := fileContent s;
       review := review s; repoReviewResults := repoReviewResults s;
       reviewProgress := v |}) ;;
  emit (ProgressShown v).

(* ================================================================== *)
(** * Services (githubService.ts, geminiService.ts) *)
(* ================================================================== *)

(** The module-level [SOURCE_CODE_EXTENSIONS] of githubService.ts; the
    constant of the same name inside [handleAnalyzeRepo] lists the same
    twenty-six extensions. *)
Definition SOURCE_CODE_EXTENSIONS : list string :=
  [ ".js"; ".jsx"; ".ts"; ".tsx"; ".py"; ".java"; ".c"; ".cpp"; ".h"; ".hpp";
    ".cs"; ".go"; ".rs"; ".swift"; ".kt"; ".kts"; ".rb"; ".php"; ".m";
    ".scala"; ".html"; ".css"; ".scss"; ".less"; ".vue"; ".svelte" ].

(** The module-level [GITHUB_TOKEN] is a non-empty literal. *)
Definition GITHUB_TOKEN_set : bool := true.

(** [p.substring(p.lastIndexOf('.'))] *)
Definition extensionOf (p : string) : string :=
  substring_from (lastIndexOf "." p) p.

(** [file => allowList.has(file.path.substring(file.path.lastIndexOf('.')))] *)
Definition hasListedExtension (allowList : list string) (file : GitHubFile)
    : bool :=
  set_has allowList (extensionOf (file_path file)).

(** Lines 81-89 of [getRepoTree]: from [treeData.tree] to the value
    returned. *)
Definition listedFiles (items : list GithubTreeItem) : list GitHubFile :=
  let allFiles :=
    map (fun item =>
           {| file_path := item_path item; file_type := item_type item;
              file_sha := item_sha item |})
        (filter (fun file =>
                   NodeType_eqb (item_type file) blob && truthy (item_path file))
                items) in
  let sourceFiles :=
    filter (hasListedExtension SOURCE_CODE_EXTENSIONS) allFiles in
  let otherFiles :=
    filter (fun file => negb (hasListedExtension SOURCE_CODE_EXTENSIONS file))
           allFiles in
  sourceFiles ++ otherFiles.

Section Services.

Variable env : Platform.

(** [getRepoTree(owner, repo)].  Everything thrown here is an [Error],
    so the handler's last [throw] is never reached. *)
Definition getRepoTree (owner repo : string) : M (list GitHubFile) :=
  tryCatch
    (emit (FetchRepo owner repo) ;;
     repoRes <- liftResult (fetchRepo env owner repo) ;;
     (if negb (ok repoRes) then
        if Nat.eqb (status repoRes) 404 then
          throw "Repository not found. Please check the URL."
        else if Nat.eqb (status repoRes) 403 then
          throw
            (if GITHUB_TOKEN_set then
               "GitHub API request forbidden. The provided GITHUB_TOKEN may be invalid or lack necessary permissions."
             else
               "GitHub API rate limit exceeded for unauthenticated requests. Please set a GITHUB_TOKEN environment variable to increase the rate limit.")
        else
          throw ("Failed to fetch repository data. Status: "
                 ++ show_status (status repoRes))%string
      else ret tt) ;;
     repoData <- liftResult (json repoRes) ;;
     let defaultBranch := default_branch repoData in
     emit (FetchTree owner repo defaultBranch) ;;
     treeRes <- liftResult (fetchTree env owner repo defaultBranch) ;;
     (if negb (ok treeRes) then
        throw ("Failed to fetch repository file tree. Status: "
               ++ show_status (status treeRes))%string
      else ret tt) ;;
     treeData <- liftResult (json treeRes) ;;
     (if truncated treeData then
        emit (ConsoleWarn
                "File tree is truncated. Some files may not be displayed.")
      else ret tt) ;;
     ret (listedFiles (tree_items treeData)))
    (fun error =>
       emit (ConsoleError ("GitHub API Error: " ++ error)%string) ;;
       throw ("Could not retrieve repository files: " ++ error)%string).

(** [getFileContent(owner, repo, path)] *)
Definition getFileContent (owner repo path : string) : M string :=
  tryCatch
    (emit (FetchContents owner repo path) ;;
     res <- liftResult (fetchContents env owner repo path) ;;
     (if negb (ok res) then
        throw ("Failed to fetch file content for " ++ path ++ ". Status: "
               ++ show_status (status res))%string
      else ret tt) ;;
     data <- liftResult (json res) ;;
     if String.eqb (encoding data) "base64" then
       liftResult (atob env (content data))
     else throw "Unsupported file encoding received from GitHub.")
    (fun error =>
       emit (ConsoleError ("GitHub API Error: " ++ error)%string) ;;
       throw ("Could not retrieve file content: " ++ error)%string).

(** [reviewCode(fileName, code, apiKey)] *)
Definition reviewCode (fileName code key : string) : M ReviewResult :=
  if negb (truthy key) then
    throw
      "Gemini API Key is missing. Please provide it before running an analysis."
  else
    tryCatch
      (emit (GenerateContent fileName code) ;;
       text <- liftResult (generateContent env key fileName code) ;;
       let jsonText := trim env text in
       parsedResult <- liftResult (JSON_parse env jsonText) ;;
       ret parsedResult)
      (fun error =>
         emit (ConsoleError ("Gemini API Error: " ++ error)%string) ;;
         if includes error "API key not valid"
            || includes error "API_KEY_INVALID"
         then
           throw "Invalid Gemini API Key. Please check your key and try again."
         else
           throw
             "Failed to get code review from Gemini. Please check the console for more details.").

(* ================================================================== *)
(** * Orchestrators (App.tsx) *)
(* ================================================================== *)

(** [node.sha!]: the assertion has no run-time effect; every ['blob']
    node [buildFileTree] creates carries the sha of its file, so the
    default is never taken on a tree it built. *)
Definition nonNull (o : option string) : string :=
  match o with
  | Some s => s
  | None => EmptyString
  end.

(** The body of [collectFiles]'s loop for one node. *)
Fixpoint collectNode (node : TreeNode) : list GitHubFile :=
  match type node with
  | blob =>
      [ {| file_path := path node; file_type := blob;
           file_sha := nonNull (sha node) |} ]
  | tree => flat_map collectNode (children node)
  end.

(** [collectFiles(nodes)]: what it pushes on [allFiles], in order. *)
Definition collectFiles (nodes : list TreeNode) : list GitHubFile :=
  flat_map collectNode nodes.

(** [filesToReview]: the collected files that pass the extension
    filter. *)
Definition filesToReview (allowList : list string) (nodes : list TreeNode)
    : list GitHubFile :=
  filter (hasListedExtension allowList) (collectFiles nodes).

(** [selectedFile?.path === file.path] *)
Definition isSelected (selected : option GitHubFile) (file : GitHubFile)
    : bool :=
  match selected with
  | Some current => String.eqb (file_path current) (file_path file)
  | None => false
  end.

(** [handleFileSelect(file)], reading the state cells its closure
    captured. *)
Definition handleFileSelect (file : GitHubFile) : M unit :=
  s <- getState ;;
  match isSelected (selectedFile s) file, repoOwnerAndName s with
  | false, Some (owner, repo) =>
      if negb (truthy (apiKey s)) then
        setError (Some "Please enter your Gemini API Key to analyze files.")
      else
        setLoading LOADING_REVIEW ;;
        setError None ;;
        setSelectedFile (Some file) ;;
        setFileContent None ;;
        setReview None ;;
        setRepoReviewResults None ;;
        tryFinally
          (tryCatch
             (fileText <- getFileContent owner repo (file_path file) ;;
              setFileContent (Some fileText) ;;
              reviewResult <- reviewCode (file_path file) fileText (apiKey s) ;;
              setReview (Some reviewResult))
             (fun e => setError (Some e)))
          (setLoading IDLE)
  | _, _ => ret tt
  end.

(** The [for] loop of [handleAnalyzeRepo] from index [i] on; [pending]
    is [filesToReview.slice(i)] and [results] the object built so far. *)
Fixpoint reviewLoop (owner repo key : string) (len i : nat)
    (pending : list GitHubFile) (results : gmap string ReviewResult)
    : M (gmap string ReviewResult) :=
  match pending with
  | [] => ret results
  | file :: rest =>
      results' <-
        tryFinally
          (tryCatch
             (fileText <- getFileContent owner repo (file_path file) ;;
              reviewResult <- reviewCode (file_path file) fileText key ;;
              ret (<[file_path file := reviewResult]> results))
             (fun e =>
                emit (ConsoleError
                        ("Failed to review " ++ file_path file ++ ": " ++ e)%string) ;;
                ret results))
          (setReviewProgress
             (Some {| processed := i + 1; total := len |})) ;;
      reviewLoop owner repo key len (S i) rest results'
  end.

(** [handleAnalyzeRepo()] with the extension set as an argument. *)
Definition analyzeRepoWith (allowList : list string) : M unit :=
  s <- getState ;;
  match repoOwnerAndName s with
  | None => ret tt
  | Some (owner, repo) =>
      if negb (truthy (apiKey s)) then
        setError
          (Some "Please enter your Gemini API Key to analyze the repository.")
      else
        setLoading LOADING_REPO_REVIEW ;;
        setError None ;;
        setSelectedFile None ;;
        setReview None ;;
        setRepoReviewResults None ;;
        let files := filesToReview allowList (fileTree s) in
        if Nat.eqb (List.length files) 0 then
          setError
            (Some "No reviewable source code files found in this repository.") ;;
          setLoading IDLE
        else
          setReviewProgress
            (Some {| processed := 0; total := List.length files |}) ;;
          results <-
            reviewLoop owner repo (apiKey s) (List.length files) 0 files ∅ ;;
          setRepoReviewResults (Some results) ;;
          setReviewProgress None ;;
          setLoading IDLE
  end.

(** [handleAnalyzeRepo()] *)
Definition handleAnalyzeRepo : M unit :=
  analyzeRepoWith SOURCE_CODE_EXTENSIONS.

(** [handleFetchRepo(owner, repo)] *)
Definition handleFetchRepo (localeCompare : string -> string -> Z)
    (owner repo : string) : M unit :=
  setLoading LOADING_REPO ;;
  setError None ;;
  setFileTree [] ;;
  setSelectedFile None ;;
  setFileContent None ;;
  setReview None ;;
  setRepoReviewResults None ;;
  setRepoOwnerAndName (Some (owner, repo)) ;;
  tryFinally
    (tryCatch
       (repoFiles <- getRepoTree owner repo ;;
        setFileTree (buildFileTree localeCompare repoFiles))
       (fun e => setError (Some e)))
    (setLoading IDLE).

End Services.

(* ================================================================== *)
(** * Observations on a run *)
(* ================================================================== *)

(** Requests to the content gateway in a trace. *)
Definition contentCalls (t : list Event) : list Event :=
  filter (fun e => match e with FetchContents _ _ _ => true | _ => false end) t.

(** Requests to the review gateway in a trace. *)
Definition reviewCalls (t : list Event) : list Event :=
  filter (fun e => match e with GenerateContent _ _ => true | _ => false end) t.

(** The progress values shown, oldest first. *)
Definition progressShown (t : list Event) : list (option Progress) :=
  flat_map (fun e => match e with ProgressShown p => [p] | _ => [] end) t.

(** The cells other than [error] agree. *)
Definition sameExceptError (s s' : AppState) : Prop :=
  loading s' = loading s /\ apiKey s' = apiKey s /\
  fileTree s' = fileTree s /\ repoOwnerAndName s' = repoOwnerAndName s /\
  selectedFile s' = selectedFile s /\ fileContent s' = fileContent s /\
  review s' = review s /\ repoReviewResults s' = repoReviewResults s /\
  reviewProgress s' = reviewProgress s.

Definition initialWorld : World :=
  {| app :=
       {| loading := IDLE; error := None; apiKey := EmptyString;
          fileTree := []; repoOwnerAndName := None; selectedFile := None;
          fileContent := None; review := None; repoReviewResults := None;
          reviewProgress := None |};
     trace := [] |}.

(** What fetching and then reviewing [file] comes to: the review, or the
    message of the first phase that threw. *)
Definition reviewOutcome (env : Platform) (owner repo key : string)
    (file : GitHubFile) : Result ReviewResult :=
  fst ((fileText <- getFileContent env owner repo (file_path file) ;;
        reviewCode env (file_path file) fileText key) initialWorld).

Definition reviewFails (env : Platform) (owner repo key : string)
    (file : GitHubFile) : bool :=
  match reviewOutcome env owner repo key file with
  | Ok _ => false
  | Err _ => true
  end.

(** The events one call of [getFileContent] adds to the trace. *)
Definition contentEvents (env : Platform) (owner repo p : string)
    : list Event :=
  trace (snd (getFileContent env owner repo p initialWorld)).

(** The events one call of [reviewCode] adds to the trace. *)
Definition reviewEvents (env : Platform) (fileName code key : string)
    : list Event :=
  trace (snd (reviewCode env fileName code key initialWorld)).

(** The events fetching and then reviewing [file] adds to the trace. *)
Definition fileEvents (env : Platform) (owner repo key : string)
    (file : GitHubFile) : list Event :=
  trace (snd ((fileText <- getFileContent env owner repo (file_path file) ;;
               reviewCode env (file_path file) fileText key) initialWorld)).

(** The cells other than [reviewProgress] agree. *)
Definition sameExceptProgress (s s' : AppState) : Prop :=
  loading s' = loading s /\ error s' = error s /\ apiKey s' = apiKey s /\
  fileTree s' = fileTree s /\ repoOwnerAndName s' = repoOwnerAndName s /\
  selectedFile s' = selectedFile s /\ fileContent s' = fileContent s /\
  review s' = review s /\ repoReviewResults s' = repoReviewResults s.

(** The progress values of a batch of [len] files from [processed = i]
    on, [n] of them. *)
Definition progressFrom (len i n : nat) : list (option Progress) :=
  map (fun j => Some {| processed := j; total := len |}) (seq i n).

(* ================================================================== *)
(** * Vocabulary of the listing and of the extension filter *)
(* ================================================================== *)

(** The file [getRepoTree] makes of a listing entry. *)
Definition fileOfItem (item : GithubTreeItem) : GitHubFile :=
  {| file_path := item_path item; file_type := item_type item;
     file_sha := item_sha item |}.

(** A listing entry that is a file and has a path. *)
Definition isListedBlob (item : GithubTreeItem) : bool :=
  NodeType_eqb (item_type item) blob && truthy (item_path item).

(** The path's final segment, in the specification's words: what
    follows the last ['/']. *)
Definition finalSegment (p : string) : string :=
  last (split "/" p) EmptyString.

(** The final extension, in the specification's words: the substring
    starting at the last ['.'] within the final segment, when that
    segment has one. *)
Definition finalExtension (p : string) : option string :=
  let segment := finalSegment p in
  let dot := lastIndexOf "." segment in
  if (dot <? 0)%Z then None else Some (substring_from dot segment).

(** A source file, in the specification's words: a file whose
    extension, the final extension of its path, is in the source-code
    extension set. *)
Definition isSourceFile (file : GitHubFile) : Prop :=
  exists ext,
    finalExtension (file_path file) = Some ext
    /\ In ext SOURCE_CODE_EXTENSIONS.

(** [files] is the stable partition of the blob entries of [items] into
    source files first and the other files after: every file of the
    first group is a source file and no file of the second is, each
    group keeps the order of the listing, and nothing is lost or
    added. *)
Definition StablePartition (items : list GithubTreeItem)
    (files : list GitHubFile) : Prop :=
  exists sources others,
    files = sources ++ others
    /\ Forall isSourceFile sources
    /\ Forall (fun f => ~ isSourceFile f) others
    /\ sublist sources (map fileOfItem items)
    /\ sublist others (map fileOfItem items)
    /\ Permutation files (map fileOfItem (filter isListedBlob items))
    /\ Forall (fun f => file_type f = blob /\ file_path f <> EmptyString)
              files.

(** [c] occurs in [s]. *)
Fixpoint hasChar (c : ascii) (s : string) : bool :=
  match s with
  | EmptyString => false
  | String a s' => Ascii.eqb a c || hasChar c s'
  end.

(** The suffix of [s] that starts at its last [c]. *)
Fixpoint suffixAtLast (c : ascii) (s : string) : option string :=
  match s with
  | EmptyString => None
  | String a s' =>
      match suffixAtLast c s' with
      | Some e => Some e
      | None => if Ascii.eqb a c then Some s else None
      end
  end.

(** An extension as the allow-list spells it: it has a dot and no
    slash. *)
Definition isExtension (e : string) : bool :=
  hasChar "." e && negb (hasChar "/" e).

(* ================================================================== *)
(** * Vocabulary of the tree properties *)
(* ================================================================== *)

(** Induction on a node with the property at hand for all its
    children. *)
Definition TreeNode_children_ind (P : TreeNode -> Prop)
    (step : forall n, Forall P (children n) -> P n) : forall n, P n :=
  fix go (n : TreeNode) : P n :=
    match n as n0 return P n0 with
    | mkTreeNode nm p ty cs s =>
        step (mkTreeNode nm p ty cs s)
          ((fix all (l : list TreeNode) : Forall P l :=
              match l with
              | [] => @Forall_nil _ P
              | c :: l' => @Forall_cons _ P c l' (go c) (all l')
              end) cs)
    end.

(** A comparator [Array.prototype.sort] can rely on: swapping the
    arguments flips the sign, and "not after" is transitive. *)
Record ConsistentComparator (cmp : string -> string -> Z) : Prop := {
  cmp_flip : forall a b, (cmp a b < 0 <-> 0 < cmp b a)%Z;
  cmp_trans : forall a b c, (cmp a b <= 0 -> cmp b c <= 0 -> cmp a c <= 0)%Z
}.

(** The sibling ordering of the specification: at positions [i < j] a
    blob never comes before a tree, and two nodes of one kind are in
    non-decreasing name order. *)
Definition siblingsOrdered (localeCompare : string -> string -> Z)
    (nodes : list TreeNode) : Prop :=
  forall i j a b,
    i < j -> nth_error nodes i = Some a -> nth_error nodes j = Some b ->
    (type a = blob -> type b = blob)
    /\ (type a = type b -> (localeCompare (name a) (name b) <= 0)%Z).

(** The ordering holds for [nodes] and, below every node that [visit]
    admits, for its children in turn. *)
Inductive OrderedForest (localeCompare : string -> string -> Z)
    (visit : TreeNode -> Prop) : list TreeNode -> Prop :=
| OrderedForest_intro (nodes : list TreeNode) :
    siblingsOrdered localeCompare nodes ->
    (forall n, In n nodes -> visit n ->
               OrderedForest localeCompare visit (children n)) ->
    OrderedForest localeCompare visit nodes.

(** [file.path.split('/')] *)
Definition segments (file : GitHubFile) : list string :=
  split "/" (file_path file).

(** [p] is an initial part of [q] (possibly all of it). *)
Fixpoint isPrefix (p q : list string) : bool :=
  match p, q with
  | [], _ => true
  | _ :: _, [] => false
  | a :: p', b :: q' => String.eqb a b && isPrefix p' q'
  end.

(** Neither path is the other or a directory on the way to it. *)
Definition independent (p q : list string) : bool :=
  negb (isPrefix p q) && negb (isPrefix q p).

(** No two descriptors have the same path, and no descriptor's path is
    a directory of another's: what a git tree listing guarantees. *)
Fixpoint conflictFree (files : list GitHubFile) : bool :=
  match files with
  | [] => true
  | f :: rest =>
      forallb (fun g => independent (segments f) (segments g)) rest
      && conflictFree rest
  end.

(** Two names that occur in the paths of [files] compare equal under
    [localeCompare] only when they are the same name. *)
Definition namesSeparated (localeCompare : string -> string -> Z)
    (files : list GitHubFile) : Prop :=
  forall a b,
    In a (flat_map segments files) -> In b (flat_map segments files) ->
    localeCompare a b = 0%Z -> a = b.

(** The files a node stands for, each as the names from the node down
    to the blob and the blob's sha.  A blob is a file whatever hangs
    below it: that is how [collectFiles] reads the tree. *)
Fixpoint leaves (n : TreeNode) : list (list string * option string) :=
  match type n with
  | blob => [([name n], sha n)]
  | tree =>
      map (fun l => (name n :: fst l, snd l)) (flat_map leaves (children n))
  end.

Definition forestLeaves (nodes : list TreeNode)
    : list (list string * option string) :=
  flat_map leaves nodes.

(** The leaf the walk for [file] is to add. *)
Definition leafOf (file : GitHubFile) : list string * option string :=
  (segments file, Some (file_sha file)).

(** The file [collectFiles] makes of a leaf found below [prefix]. *)
Definition fileOfLeaf (prefix : list string)
    (l : list string * option string) : GitHubFile :=
  {| file_path := join "/" (prefix ++ fst l); file_type := blob;
     file_sha := nonNull (snd l) |}.

(** The leaves that start with [x], without that first name. *)
Definition under (x : string) (ls : list (list string * option string))
    : list (list string * option string) :=
  flat_map (fun l =>
              match fst l with
              | h :: t => if String.eqb h x then [(t, snd l)] else []
              | [] => []
              end) ls.

(** What every tree under construction satisfies, [prefix] being the
    names on the way down to [nodes]: sibling names are distinct and
    free of slashes, [path] is the names joined, and a ['tree'] node has
    no sha and at least one child. *)
Inductive WellFormed : list string -> list TreeNode -> Prop :=
| WellFormed_intro (prefix : list string) (nodes : list TreeNode) :
    NoDup (map name nodes) ->
    (forall n, In n nodes ->
       path n = join "/" (prefix ++ [name n])
       /\ hasChar "/" (name n) = false
       /\ (type n = tree -> sha n = None /\ children n <> [])) ->
    (forall n, In n nodes -> WellFormed (prefix ++ [name n]) (children n)) ->
    WellFormed prefix nodes.

(** No ['blob'] node has children. *)
Inductive BlobsAreLeaves : list TreeNode -> Prop :=
| BlobsAreLeaves_intro (nodes : list TreeNode) :
    (forall n, In n nodes -> type n = blob -> children n = []) ->
    (forall n, In n nodes -> BlobsAreLeaves (children n)) ->
    BlobsAreLeaves nodes.

(* ================================================================== *)
(** * Sample inputs *)
(* ================================================================== *)

Definition demoFiles : list GitHubFile :=
  [ mkGitHubFile "src/a.ts" blob "s1";
    mkGitHubFile "readme.md" blob "s2";
    mkGitHubFile "src/b.py" blob "s3" ].

(** A listing as the tree API returns it: directories among the files,
    and one entry without a path. *)
Definition demoListing : list GithubTreeItem :=
  [ mkGithubTreeItem "readme.md" blob "s2" (Some 120%Z) "u2";
    mkGithubTreeItem "src" tree "s0" None "u0";
    mkGithubTreeItem "src/a.ts" blob "s1" (Some 40%Z) "u1";
    mkGithubTreeItem "" blob "s9" (Some 0%Z) "u9";
    mkGithubTreeItem "src/b.py" blob "s3" (Some 70%Z) "u3" ].

(** [demoFiles] in another order. *)
Definition demoFilesSwapped : list GitHubFile :=
  [ mkGitHubFile "readme.md" blob "s2";
    mkGitHubFile "src/a.ts" blob "s1";
    mkGitHubFile "src/b.py" blob "s3" ].

(** Descriptors with distinct paths, one of which names a directory of
    the other. *)
Definition clashingFiles : list GitHubFile :=
  [ mkGitHubFile "a/b" blob "s1";
    mkGitHubFile "a" blob "s2" ].

Definition clashingFilesSwapped : list GitHubFile :=
  [ mkGitHubFile "a" blob "s2";
    mkGitHubFile "a/b" blob "s1" ].

(** Two files side by side. *)
Definition siblingFiles : list GitHubFile :=
  [ mkGitHubFile "b.ts" blob "s1";
    mkGitHubFile "a.ts" blob "s2" ].

(** Descriptors with distinct paths, the first of which names a
    directory of the other two. *)
Definition nestedUnderBlob : list GitHubFile :=
  [ mkGitHubFile "a" blob "s1";
    mkGitHubFile "a/x" blob "s2";
    mkGitHubFile "a/y/z" blob "s3" ].

Definition demoReview : ReviewResult :=
  {| summary := "Looks fine."; suggestions := [] |}.

(** A platform on which every request succeeds except the content of
    [src/b.py], which answers 404. *)
Definition demoPlatform : Platform :=
  {| fetchRepo := fun _ _ =>
       Ok (mkResponse true 200 (Ok {| default_branch := "main" |}));
     fetchTree := fun _ _ _ =>
       Ok (mkResponse true 200
             (Ok {| tree_sha := "t"; tree_url := "u";
                    tree_items := demoListing; truncated := false |}));
     fetchContents := fun _ _ p =>
       if String.eqb p "src/b.py" then
         Ok (mkResponse false 404 (Err "Unexpected end of JSON input"))
       else
         Ok (mkResponse true 200
               (Ok {| content := "Y29kZQ=="; encoding := "base64" |}));
     atob := fun _ => Ok "code";
     generateContent := fun _ _ _ => Ok "{}";
     trim := fun s => s;
     JSON_parse := fun _ => Ok demoReview |}.

(** [App] after [demoFiles] were fetched for [octo/demo] and a key was
    entered. *)
Definition demoWorld : World :=
  {| app :=
       {| loading := IDLE; error := None; apiKey := "key";
          fileTree := buildFileTree codeUnitCompare demoFiles;
          repoOwnerAndName := Some ("octo", "demo"); selectedFile := None;
          fileContent := None; review := None; repoReviewResults := None;
          reviewProgress := None |};
     trace := [] |}.

(** A session on a repository that holds documentation only. *)
Definition demoWorldDocsOnly : World :=
  {| app :=
       {| loading := IDLE; error := None; apiKey := "key";
          fileTree :=
            buildFileTree codeUnitCompare
              [ mkGitHubFile "readme.md" blob "s2";
                mkGitHubFile "docs/Makefile" blob "s4" ];
          repoOwnerAndName := Some ("octo", "docs"); selectedFile := None;
          fileContent := None; review := None; repoReviewResults := None;
          reviewProgress := None |};
     trace := [] |}.

(** The same session once [src/a.ts] was reviewed and the key field was
    then cleared. *)
Definition demoWorldKeyCleared : World :=
  {| app :=
       {| loading := IDLE; error := None; apiKey := EmptyString;
          fileTree := buildFileTree codeUnitCompare demoFiles;
          repoOwnerAndName := Some ("octo", "demo");
          selectedFile := Some (mkGitHubFile "src/a.ts" blob "s1");
          fileContent := Some "code"; review := Some demoReview;
          repoReviewResults := None; reviewProgress := None |};
     trace := [FetchContents "octo" "demo" "src/a.ts";
               GenerateContent "src/a.ts" "code"] |}.


(* ================================================================== *)
(** * URL parsing (App.tsx, [parseGithubUrl]) *)
(* ================================================================== *)

(** The two fields of a [URL] object the code reads. *)
Record URLRecord : Type := mkURLRecord {
  hostname : string;
  pathname : string
}.

Fixpoint string_take (n : nat) (s : string) : string :=
  match n, s with
  | O, _ => EmptyString
  | S _, EmptyString => EmptyString
  | S n', String c s' => String c (string_take n' s')
  end.

(** [s.endsWith(suffix)] *)
Definition endsWith (s suffix : string) : bool :=
  Nat.leb (String.length suffix) (String.length s)
  && String.eqb
       (string_drop (String.length s - String.length suffix) s) suffix.

(** [s.slice(0, -k)]: all but the last [k] characters, nothing when the
    string is shorter. *)
Definition sliceOffEnd (k : nat) (s : string) : string :=
  string_take (String.length s - k) s.

(** [parseGithubUrl(url)]; [newURL] is the platform's [new URL(url)],
    which throws on a string that is not a URL. *)
Definition parseGithubUrl (newURL : string -> Result URLRecord) (url : string)
    : option (string * string) :=
  match newURL url with
  | Err _ => None
  | Ok urlObj =>
      if negb (String.eqb (hostname urlObj) "github.com") then None
      else
        let pathParts := filter truthy (split "/" (pathname urlObj)) in
        if Nat.leb 2 (List.length pathParts) then
          match pathParts with
          | owner :: repo :: _ =>
              Some (owner,
                    if endsWith repo ".git" then sliceOffEnd 4 repo else repo)
          | _ => None
          end
        else None
  end.

(* ================================================================== *)
(** * What the main area shows (App.tsx, the [<main>] of [App]) *)
(* ================================================================== *)

(** The components [<main>] can hold. *)
Inductive Panel : Type :=
| WelcomeScreen
| ReviewLoader
| RepoLoader (progress : option Progress)
| MainAlert (message : string)
| RepoReviewPanel (results : gmap string ReviewResult)
| ReviewPanel (shown : ReviewResult) (code fileName : string).

(** The six conditional children of [<main>], in order.  A string cell
    is truthy when it is set and not empty; an object cell when it is
    set. *)
Definition mainPanels (s : AppState) : list Panel :=
  let idle := match loading s with IDLE => true | _ => false end in
  (match repoReviewResults s, selectedFile s with
   | None, None => if idle then [WelcomeScreen] else []
   | _, _ => []
   end)
  ++ (match loading s with LOADING_REVIEW => [ReviewLoader] | _ => [] end)
  ++ (match loading s with
      | LOADING_REPO_REVIEW => [RepoLoader (reviewProgress s)]
      | _ => []
      end)
  ++ (match error s, review s, repoReviewResults s with
      | Some message, None, None =>
          if idle && truthy message then [MainAlert message] else []
      | _, _, _ => []
      end)
  ++ (match repoReviewResults s with
      | Some results => if idle then [RepoReviewPanel results] else []
      | None => []
      end)
  ++ (match repoReviewResults s, review s, fileContent s, selectedFile s with
      | None, Some shown, Some code, Some file =>
          if idle && truthy code then [ReviewPanel shown code (file_path file)]
          else []
      | _, _, _, _ => []
      end).

(* ================================================================== *)
(** * Vocabulary of the further tree properties *)
(* ================================================================== *)

(** A node and everything below it, whatever its kind. *)
Fixpoint allNodes (n : TreeNode) : list TreeNode :=
  n :: flat_map allNodes (children n).

Definition forestNodes (nodes : list TreeNode) : list TreeNode :=
  flat_map allNodes nodes.

(** What sorting leaves alone in a node. *)
Definition nodeFacts (n : TreeNode) : string * NodeType * option string :=
  (path n, type n, sha n).

(** [path] is the parent's [path], a slash and [name]; at the top it is
    [name]. *)
Inductive PathsChained : option string -> list TreeNode -> Prop :=
| PathsChained_intro (parentPath : option string) (nodes : list TreeNode) :
    (forall n, In n nodes ->
       path n = match parentPath with
                | None => name n
                | Some p => (p ++ "/" ++ name n)%string
                end) ->
    (forall n, In n nodes -> PathsChained (Some (path n)) (children n)) ->
    PathsChained parentPath nodes.

(** The files behind a tree: every blob node carries the path and sha
    of one of them, and every one of them has a node with its path. *)
Definition BuiltFrom (files : list GitHubFile) (nodes : list TreeNode)
    : Prop :=
  (forall n, In n (forestNodes nodes) -> type n = blob ->
             exists g, In g files /\ path n = file_path g
                       /\ sha n = Some (file_sha g))
  /\ (forall g, In g files ->
                exists n, In n (forestNodes nodes) /\ path n = file_path g).

(** The content-gateway outcome for [file], as [reviewOutcome] has the
    outcome of both calls. *)
Definition contentOutcome (env : Platform) (owner repo : string)
    (file : GitHubFile) : Result string :=
  fst (getFileContent env owner repo (file_path file) initialWorld).

(** The review request the batch sends for [file], if it gets that
    far. *)
Definition reviewRequestFor (env : Platform) (owner repo : string)
    (file : GitHubFile) : list Event :=
  match contentOutcome env owner repo file with
  | Ok fileText => [GenerateContent (file_path file) fileText]
  | Err _ => []
  end.

(** The outcome of [getRepoTree], as [contentOutcome] has the one of
    [getFileContent]. *)
Definition listingOutcome (env : Platform) (owner repo : string)
    : Result (list GitHubFile) :=
  fst (getRepoTree env owner repo initialWorld).

(** The events one call of [getRepoTree] adds to the trace. *)
Definition listingEvents (env : Platform) (owner repo : string)
    : list Event :=
  trace (snd (getRepoTree env owner repo initialWorld)).

(* ================================================================== *)
(** * The handlers one after the other (App.tsx, [App]) *)
(* ================================================================== *)

(** [setApiKey(v)], called by [handleApiKeyChange] and by the effect
    that reads the stored key. *)
Definition setApiKey (v : string) : M unit :=
  modify (fun s =>
    {| loading := loading s; error := error s; apiKey := v;
       fileTree := fileTree s; repoOwnerAndName := repoOwnerAndName s;
       selectedFile := selectedFile s; fileContent := fileContent s;
       review := review s; repoReviewResults := repoReviewResults s;
       reviewProgress := reviewProgress s |}).

(** The [disabled] attribute of the "Analyze Entire Repo" button:
    [loading !== LoadingState.IDLE || fileTree.length === 0 || !apiKey]. *)
Definition analyzeDisabled (s : AppState) : bool :=
  match loading s with IDLE => false | _ => true end
  || Nat.eqb (List.length (fileTree s)) 0
  || negb (truthy (apiKey s)).

(** One handler of [App] run to its end on the state it finds. *)
Inductive handlerRuns (env : Platform)
    (localeCompare : string -> string -> Z) : World -> World -> Prop :=
| runs_setApiKey (key : string) (w : World) :
    handlerRuns env localeCompare w (snd (setApiKey key w))
| runs_handleFetchRepo (owner repo : string) (w : World) :
    handlerRuns env localeCompare w
      (snd (handleFetchRepo env localeCompare owner repo w))
| runs_handleFileSelect (file : GitHubFile) (w : World) :
    handlerRuns env localeCompare w (snd (handleFileSelect env file w))
| runs_handleAnalyzeRepo (w : World) :
    handlerRuns env localeCompare w (snd (handleAnalyzeRepo env w)).

(** The worlds the application can be in between two handlers, when no
    two of them overlap. *)
Inductive reachable (env : Platform)
    (localeCompare : string -> string -> Z) : World -> Prop :=
| reachable_initial : reachable env localeCompare initialWorld
| reachable_next (w w' : World) :
    reachable env localeCompare w ->
    handlerRuns env localeCompare w w' ->
    reachable env localeCompare w'.

(** What holds of the state cells between two handlers. *)
Definition AtRest (s : AppState) : Prop :=
  loading s = IDLE
  /\ reviewProgress s = None
  /\ (fileTree s <> [] -> repoOwnerAndName s <> None)
  /\ (selectedFile s <> None -> repoOwnerAndName s <> None)
  /\ (review s <> None ->
      selectedFile s <> None /\ fileContent s <> None
      /\ repoReviewResults s = None)
  /\ (repoReviewResults s <> None ->
      selectedFile s = None /\ review s = None).

(* ================================================================== *)
(** * The file browser and the repository report (App.tsx) *)
(* ================================================================== *)

(** What a click on a [FileNode] does: a folder flips its own [isOpen]
    cell, a file is handed to [onSelect]. *)
Inductive ClickEffect : Type :=
| SetIsOpen (v : bool)
| OnSelect (file : GitHubFile).

(** [handleClick] of [FileNode] *)
Definition handleClick (node : TreeNode) (isOpen : bool) : ClickEffect :=
  match type node with
  | tree => SetIsOpen (negb isOpen)
  | blob =>
      OnSelect {| file_path := path node; file_type := blob;
                  file_sha := nonNull (sha node) |}
  end.

(** [filesWithSuggestions] of [RepoReviewPanel], up to the order of the
    entries; the panel shows its "no issues" screen when there is
    none. *)
Definition filesWithSuggestions (results : gmap string ReviewResult)
    : list (string * ReviewResult) :=
  filter (fun entry => Nat.ltb 0 (List.length (suggestions (snd entry))))
         (map_to_list results).

(* ================================================================== *)
(** * Further sample inputs *)
(* ================================================================== *)

(** [demoPlatform] with a review backend that rejects the key. *)
Definition rejectingPlatform : Platform :=
  {| fetchRepo := fetchRepo demoPlatform;
     fetchTree := fetchTree demoPlatform;
     fetchContents := fetchContents demoPlatform;
     atob := atob demoPlatform;
     generateContent := fun _ _ _ =>
       Err "API key not valid. Please pass a valid API key.";
     trim := trim demoPlatform;
     JSON_parse := JSON_parse demoPlatform |}.

(** A platform without a network: every request is rejected. *)
Definition offlinePlatform : Platform :=
  {| fetchRepo := fun _ _ => Err "Failed to fetch";
     fetchTree := fun _ _ _ => Err "Failed to fetch";
     fetchContents := fun _ _ _ => Err "Failed to fetch";
     atob := atob demoPlatform;
     generateContent := fun _ _ _ => Err "Failed to fetch";
     trim := trim demoPlatform;
     JSON_parse := JSON_parse demoPlatform |}.

(** A platform on which the repository does not exist. *)
Definition missingRepoPlatform : Platform :=
  {| fetchRepo := fun _ _ =>
       Ok (mkResponse false 404 (Err "Unexpected end of JSON input"));
     fetchTree := fetchTree demoPlatform;
     fetchContents := fetchContents demoPlatform;
     atob := atob demoPlatform;
     generateContent := generateContent demoPlatform;
     trim := trim demoPlatform;
     JSON_parse := JSON_parse demoPlatform |}.

(** [new URL] on the two strings the samples use. *)
Definition demoNewURL (url : string) : Result URLRecord :=
  if String.eqb url "https://github.com/octo/demo.git" then
    Ok {| hostname := "github.com"; pathname := "/octo/demo.git" |}
  else if String.eqb url "https://github.com/octo/demo.git/tree/main" then
    Ok {| hostname := "github.com"; pathname := "/octo/demo.git/tree/main" |}
  else Err "Invalid URL".

(* ================================================================== *)
(** * Runs of the two services *)
(* ================================================================== *)

Section ServiceRuns.

Variable env : Platform.

(** A call of [getFileContent] leaves the state cells alone; its outcome
    and the events it adds do not depend on the world it starts in. *)
Lemma getFileContent_run (owner repo p : string) (w : World) :
  getFileContent env owner repo p w =
  (fst (getFileContent env owner repo p initialWorld),
   {| app := app w; trace := trace w ++ contentEvents env owner repo p |}).
Proof.
  unfold contentEvents, getFileContent, tryCatch, bind, emit, liftResult,
    throw, ret.
  cbn [app trace initialWorld fst snd].
  destruct (fetchContents env owner repo p) as [res | e]; cbn.
  - destruct (ok res); cbn.
    + destruct (json res) as [data | e]; cbn.
      * destruct (String.eqb (encoding data) "base64"); cbn.
        -- destruct (atob env (content data)); cbn;
             rewrite <- ?app_assoc; reflexivity.
        -- rewrite <- ?app_assoc; reflexivity.
      * rewrite <- ?app_assoc; reflexivity.
    + rewrite <- ?app_assoc; reflexivity.
  - rewrite <- ?app_assoc; reflexivity.
Qed.

(** It sends exactly one request, to the content gateway. *)
Lemma contentEvents_calls (owner repo p : string) :
  contentCalls (contentEvents env owner repo p) = [FetchContents owner repo p]
  /\ reviewCalls (contentEvents env owner repo p) = []
  /\ progressShown (contentEvents env owner repo p) = [].
Proof.
  unfold contentEvents, getFileContent, tryCatch, bind, emit, liftResult,
    throw, ret.
  cbn [app trace initialWorld fst snd].
  destruct (fetchContents env owner repo p) as [res | e]; cbn.
  - destruct (ok res); cbn.
    + destruct (json res) as [data | e]; cbn.
      * destruct (String.eqb (encoding data) "base64"); cbn.
        -- destruct (atob env (content data)); cbn; auto.
        -- auto.
      * auto.
    + auto.
  - auto.
Qed.

Lemma reviewCode_run (fileName code key : string) (w : World) :
  reviewCode env fileName code key w =
  (fst (reviewCode env fileName code key initialWorld),
   {| app := app w; trace := trace w ++ reviewEvents env fileName code key |}).
Proof.
  unfold reviewEvents, reviewCode.
  destruct (truthy key); cbn [negb].
  - unfold tryCatch, bind, emit, liftResult, throw, ret.
    cbn [app trace initialWorld fst snd].
    destruct (generateContent env key fileName code) as [text | e]; cbn.
    + destruct (JSON_parse env (trim env text)) as [r | e]; cbn.
      * reflexivity.
      * destruct (includes e "API key not valid" || includes e "API_KEY_INVALID");
          cbn; rewrite <- ?app_assoc; reflexivity.
    + destruct (includes e "API key not valid" || includes e "API_KEY_INVALID");
        cbn; rewrite <- ?app_assoc; reflexivity.
  - unfold throw. cbn. rewrite app_nil_r. destruct w; reflexivity.
Qed.

(** [reviewCode] never touches the content gateway, and without a key it
    sends nothing at all. *)
Lemma reviewEvents_calls (fileName code key : string) :
  contentCalls (reviewEvents env fileName code key) = []
  /\ progressShown (reviewEvents env fileName code key) = []
  /\ (truthy key = false -> reviewEvents env fileName code key = []).
Proof.
  unfold reviewEvents, reviewCode.
  destruct (truthy key); cbn [negb].
  - unfold tryCatch, bind, emit, liftResult, throw, ret.
    cbn [app trace initialWorld fst snd].
    destruct (generateContent env key fileName code) as [text | e]; cbn.
    + destruct (JSON_parse env (trim env text)) as [r | e]; cbn.
      * repeat split; auto; discriminate.
      * destruct (includes e "API key not valid" || includes e "API_KEY_INVALID");
          cbn; repeat split; auto; discriminate.
    + destruct (includes e "API key not valid" || includes e "API_KEY_INVALID");
        cbn; repeat split; auto; discriminate.
  - cbn. auto.
Qed.

End ServiceRuns.

Arguments getFileContent : simpl never.
Arguments reviewCode : simpl never.
Arguments contentEvents : simpl never.
Arguments reviewEvents : simpl never.
Arguments fileEvents : simpl never.
Arguments reviewOutcome : simpl never.

(** Run the monad's own steps and the state setters, reading state
    cells as they go, and nothing else. *)
Ltac run_world :=
  cbn [bind ret throw tryCatch tryFinally liftResult emit getState modify
       setLoading setError setFileTree setRepoOwnerAndName setSelectedFile
       setFileContent setReview setRepoReviewResults setReviewProgress
       app trace loading error apiKey fileTree repoOwnerAndName
       selectedFile fileContent review repoReviewResults reviewProgress
       initialWorld fst snd negb List.app].

(** Reduce the reads of state cells and of the trace, and nothing
    else. *)
Ltac simpl_world :=
  cbn [app trace loading error apiKey fileTree repoOwnerAndName
       selectedFile fileContent review repoReviewResults reviewProgress
       initialWorld fst snd negb List.app].

(* ================================================================== *)
(** * Single-file review: [handleFileSelect] *)
(* ================================================================== *)

Section SingleFileReview.

Variable env : Platform.

(** C10.  Selecting the file whose path is the one already selected is a
    no-op: the handler returns at once, and the world it leaves (every
    state cell, and the trace of requests) is the world it found. *)
Theorem handleFileSelect_same_path_noop
    (file current : GitHubFile) (w : World) :
  selectedFile (app w) = Some current ->
  file_path current = file_path file ->
  handleFileSelect env file w = (Ok tt, w).
Proof.
  intros Hsel Hpath.
  unfold handleFileSelect, bind, getState.
  rewrite Hsel. cbn [isSelected]. rewrite Hpath, String.eqb_refl.
  reflexivity.
Qed.

(** C5 (as the code has it).  With a repository loaded, no key entered
    and a file other than the selected one, the handler sets the
    missing-key message and does nothing else: no request is sent and
    every other state cell keeps its value. *)
Theorem handleFileSelect_missing_credential
    (file : GitHubFile) (w : World) (owner repo : string) :
  apiKey (app w) = EmptyString ->
  repoOwnerAndName (app w) = Some (owner, repo) ->
  isSelected (selectedFile (app w)) file = false ->
  exists w',
    handleFileSelect env file w = (Ok tt, w')
    /\ error (app w') =
       Some "Please enter your Gemini API Key to analyze files."
    /\ trace w' = trace w
    /\ contentCalls (trace w') = contentCalls (trace w)
    /\ reviewCalls (trace w') = reviewCalls (trace w)
    /\ sameExceptError (app w) (app w').
Proof.
  intros Hkey Hrepo Hsel.
  unfold handleFileSelect. run_world.
  rewrite Hsel, Hrepo, Hkey. run_world.
  eexists. split; [reflexivity|].
  unfold sameExceptError. simpl_world. repeat split; reflexivity.
Qed.

(** C6.  When the handler gets as far as [getFileContent] and that call
    throws, the review gateway is never reached, the message thrown
    becomes the error shown, and no content or review is left behind. *)
Theorem handleFileSelect_fetch_failure
    (file : GitHubFile) (w : World) (owner repo e : string) :
  repoOwnerAndName (app w) = Some (owner, repo) ->
  isSelected (selectedFile (app w)) file = false ->
  truthy (apiKey (app w)) = true ->
  fst (getFileContent env owner repo (file_path file) w) = Err e ->
  exists w',
    handleFileSelect env file w = (Ok tt, w')
    /\ reviewCalls (trace w') = reviewCalls (trace w)
    /\ contentCalls (trace w') =
       contentCalls (trace w) ++ [FetchContents owner repo (file_path file)]
    /\ error (app w') = Some e
    /\ review (app w') = None
    /\ fileContent (app w') = None
    /\ loading (app w') = IDLE.
Proof.
  intros Hrepo Hsel Hkey Hfail.
  rewrite getFileContent_run in Hfail. cbn [fst] in Hfail.
  unfold handleFileSelect. run_world.
  rewrite Hsel, Hrepo, Hkey. run_world.
  unfold tryFinally, tryCatch, bind at 1.
  rewrite getFileContent_run, Hfail. run_world.
  eexists. split; [reflexivity|]. simpl_world.
  destruct (contentEvents_calls env owner repo (file_path file))
    as (Hc & Hr & _).
  unfold contentCalls, reviewCalls in *.
  rewrite !filter_app, Hc, Hr, app_nil_r. repeat split; reflexivity.
Qed.

End SingleFileReview.

(* ================================================================== *)
(** * Batch review: [handleAnalyzeRepo] *)
(* ================================================================== *)

Section BatchReview.

Variable env : Platform.

Lemma bind_assoc {A B C : Type} (m : M A) (k : A -> M B) (h : B -> M C)
    (w : World) :
  bind (bind m k) h w = bind m (fun a => bind (k a) h) w.
Proof.
  unfold bind. destruct (m w) as [[a | e] w']; reflexivity.
Qed.

Lemma fetchThenReview_run (owner repo key : string) (file : GitHubFile)
    (w : World) :
  (fileText <- getFileContent env owner repo (file_path file) ;;
   reviewCode env (file_path file) fileText key) w =
  (reviewOutcome env owner repo key file,
   {| app := app w; trace := trace w ++ fileEvents env owner repo key file |}).
Proof.
  unfold reviewOutcome, fileEvents, bind.
  rewrite (getFileContent_run env owner repo (file_path file) w).
  rewrite (getFileContent_run env owner repo (file_path file) initialWorld).
  destruct (fst (getFileContent env owner repo (file_path file) initialWorld))
    as [fileText | e].
  - simpl_world.
    rewrite (reviewCode_run env _ _ _ {| app := app w; trace := _ |}).
    rewrite (reviewCode_run env _ _ _ {| app := app initialWorld; trace := _ |}).
    simpl_world.
    rewrite app_assoc. reflexivity.
  - simpl_world. reflexivity.
Qed.

Lemma fileEvents_calls (owner repo key : string) (file : GitHubFile) :
  contentCalls (fileEvents env owner repo key file) =
    [FetchContents owner repo (file_path file)]
  /\ progressShown (fileEvents env owner repo key file) = [].
Proof.
  unfold fileEvents, bind.
  rewrite (getFileContent_run env owner repo (file_path file) initialWorld).
  destruct (contentEvents_calls env owner repo (file_path file))
    as (Hc & _ & Hp).
  destruct (fst (getFileContent env owner repo (file_path file) initialWorld))
    as [fileText | e].
  - simpl_world.
    rewrite reviewCode_run. simpl_world.
    destruct (reviewEvents_calls env (file_path file) fileText key)
      as (Hc' & Hp' & _).
    unfold contentCalls, progressShown in *.
    rewrite filter_app, flat_map_app, Hc, Hc', Hp, Hp'. auto.
  - simpl_world. auto.
Qed.

(** One turn of the loop: the file's review is stored when both calls
    succeed, the failure is logged otherwise, and the progress is shown
    either way. *)
Lemma reviewLoop_step (owner repo key : string) (len i : nat)
    (file : GitHubFile) (results : gmap string ReviewResult) (w : World) :
  exists s' evs,
    tryFinally
      (tryCatch
         (fileText <- getFileContent env owner repo (file_path file) ;;
          reviewResult <- reviewCode env (file_path file) fileText key ;;
          ret (<[file_path file := reviewResult]> results))
         (fun e =>
            emit (ConsoleError
                    ("Failed to review " ++ file_path file ++ ": " ++ e)%string) ;;
            ret results))
      (setReviewProgress (Some {| processed := i + 1; total := len |})) w
    = (Ok match reviewOutcome env owner repo key file with
          | Ok r => <[file_path file := r]> results
          | Err _ => results
          end,
       {| app := s'; trace := trace w ++ evs |})
    /\ sameExceptProgress (app w) s'
    /\ reviewProgress s' = Some {| processed := i + 1; total := len |}
    /\ progressShown evs = [Some {| processed := i + 1; total := len |}]
    /\ contentCalls evs = [FetchContents owner repo (file_path file)].
Proof.
  destruct (fileEvents_calls owner repo key file) as (Hc & Hp).
  unfold tryFinally, tryCatch.
  rewrite <- bind_assoc. unfold bind at 1.
  rewrite fetchThenReview_run.
  destruct (reviewOutcome env owner repo key file) as [r | e].
  - run_world. do 2 eexists. split.
    + rewrite <- app_assoc. reflexivity.
    + unfold sameExceptProgress, contentCalls, progressShown in *.
      simpl_world.
      rewrite filter_app, flat_map_app, Hc, Hp. repeat split; reflexivity.
  - run_world. do 2 eexists. split.
    + rewrite <- !app_assoc. reflexivity.
    + unfold sameExceptProgress, contentCalls, progressShown in *.
      simpl_world.
      rewrite filter_app, flat_map_app, Hc, Hp. repeat split; reflexivity.
Qed.


(** The loop from index [i] on: it always runs to its end, asks the
    content gateway once per file in order, shows one progress value per
    file, and stores exactly the reviews that succeeded. *)
Lemma reviewLoop_run (owner repo key : string) (len : nat) :
  forall (pending : list GitHubFile) (i : nat)
         (results : gmap string ReviewResult) (w : World),
  exists results' s' evs,
    reviewLoop env owner repo key len i pending results w
    = (Ok results', {| app := s'; trace := trace w ++ evs |})
    /\ sameExceptProgress (app w) s'
    /\ progressShown evs = progressFrom len (i + 1) (List.length pending)
    /\ contentCalls evs =
       map (fun f => FetchContents owner repo (file_path f)) pending
    /\ (forall p, ~ In p (map file_path pending) ->
        results' !! p = results !! p)
    /\ (NoDup (map file_path pending) ->
        forall f, In f pending ->
        results' !! file_path f =
        match reviewOutcome env owner repo key f with
        | Ok r => Some r
        | Err _ => results !! file_path f
        end)
    /\ (NoDup (map file_path pending) ->
        (forall f, In f pending -> results !! file_path f = None) ->
        size results' =
        size results
        + List.length
            (filter (fun f => negb (reviewFails env owner repo key f)) pending)).
Proof.
  induction pending as [| file rest IH]; intros i results w.
  - exists results, (app w), []. cbn [reviewLoop]. rewrite app_nil_r.
    unfold ret, sameExceptProgress. destruct w; simpl_world.
    cbn [List.length filter map].
    repeat split; auto; try (intros _ f []); intros; lia.
  - destruct (reviewLoop_step owner repo key len i file results w)
      as (s1 & evs1 & Hstep & Hsame1 & _ & Hp1 & Hc1).
    cbn [reviewLoop]. unfold bind at 1. rewrite Hstep. cbv beta iota.
    set (results1 := match reviewOutcome env owner repo key file with
                     | Ok r => <[file_path file := r]> results
                     | Err _ => results
                     end) in *.
    destruct (IH (S i) results1 {| app := s1; trace := trace w ++ evs1 |})
      as (results' & s' & evs & Hrun & Hsame & Hp & Hc & Hframe & Hin & Hsize).
    cbn [app trace] in *.
    assert (Hother : forall p, p <> file_path file ->
                               results1 !! p = results !! p).
    { intros p Hne. unfold results1.
      destruct (reviewOutcome env owner repo key file); [|reflexivity].
      apply lookup_insert_ne. congruence. }
    exists results', s', (evs1 ++ evs). rewrite Hrun.
    split; [rewrite app_assoc; reflexivity|].
    split.
    { unfold sameExceptProgress in *.
      destruct Hsame1 as (?&?&?&?&?&?&?&?&?).
      destruct Hsame as (?&?&?&?&?&?&?&?&?).
      repeat split; congruence. }
    split.
    { unfold progressShown in *. rewrite flat_map_app, Hp1, Hp.
      unfold progressFrom. cbn [List.length seq map].
      replace (S i + 1) with (S (i + 1)) by lia. reflexivity. }
    split.
    { unfold contentCalls in *. rewrite filter_app, Hc1, Hc. reflexivity. }
    split.
    { intros p Hnot. cbn in Hnot.
      rewrite Hframe by tauto. apply Hother. intros ->. tauto. }
    split.
    { intros Hnd f Hf. cbn in Hnd. apply NoDup_cons_iff in Hnd.
      destruct Hnd as [Hfresh Hnd].
      destruct Hf as [<- | Hf].
      - rewrite (Hframe _ Hfresh). unfold results1.
        destruct (reviewOutcome env owner repo key file);
          [apply lookup_insert_eq | reflexivity].
      - rewrite (Hin Hnd f Hf).
        destruct (reviewOutcome env owner repo key f); [reflexivity|].
        apply Hother. intros Heq. apply Hfresh. rewrite <- Heq.
        apply in_map. exact Hf. }
    { intros Hnd Hnone. cbn in Hnd. apply NoDup_cons_iff in Hnd.
      destruct Hnd as [Hfresh Hnd].
      rewrite (Hsize Hnd).
      2:{ intros f Hf. rewrite Hother; [apply Hnone; right; exact Hf|].
          intros Heq. apply Hfresh. rewrite <- Heq. apply in_map. exact Hf. }
      cbn [filter]. unfold reviewFails at 2. unfold results1.
      destruct (reviewOutcome env owner repo key file) as [r | e];
        cbn [negb List.length].
      - rewrite map_size_insert_None by (apply Hnone; left; reflexivity). lia.
      - lia. }
Qed.


(** C7.  With a repository loaded and a key entered, an empty filtered
    set ends the handler with the no-reviewable-files message and
    without a single event: neither gateway is called. *)
Theorem analyzeRepo_no_reviewable_files
    (allowList : list string) (w : World) (owner repo : string) :
  repoOwnerAndName (app w) = Some (owner, repo) ->
  truthy (apiKey (app w)) = true ->
  filesToReview allowList (fileTree (app w)) = [] ->
  exists w',
    analyzeRepoWith env allowList w = (Ok tt, w')
    /\ error (app w') =
       Some "No reviewable source code files found in this repository."
    /\ loading (app w') = IDLE
    /\ repoReviewResults (app w') = None
    /\ trace w' = trace w
    /\ contentCalls (trace w') = contentCalls (trace w)
    /\ reviewCalls (trace w') = reviewCalls (trace w).
Proof.
  intros Hrepo Hkey Hempty.
  unfold analyzeRepoWith. run_world.
  rewrite Hrepo, Hkey, Hempty. run_world. cbn [List.length Nat.eqb]. run_world.
  eexists. split; [reflexivity|]. simpl_world. repeat split; reflexivity.
Qed.

(** C1 (as the code has it).  With a repository loaded, a key entered
    and a non-empty filtered list of [N] files with distinct paths, the
    handler completes without an error whatever fails along the way.
    The aggregate holds the review of every file whose fetch and review
    both succeeded and nothing else, so it has [N] minus the number of
    failed files entries.  The progress values shown are [0/N], [1/N],
    ..., [N/N] and then [null]: the last value the loop shows is [N/N],
    and the progress cell is cleared when the handler ends. *)
Theorem analyzeRepo_absorbs_failures
    (allowList : list string) (w : World) (owner repo : string) :
  repoOwnerAndName (app w) = Some (owner, repo) ->
  truthy (apiKey (app w)) = true ->
  filesToReview allowList (fileTree (app w)) <> [] ->
  NoDup (map file_path (filesToReview allowList (fileTree (app w)))) ->
  exists w' results,
    analyzeRepoWith env allowList w = (Ok tt, w')
    /\ error (app w') = None
    /\ loading (app w') = IDLE
    /\ repoReviewResults (app w') = Some results
    /\ (forall f, In f (filesToReview allowList (fileTree (app w))) ->
        results !! file_path f =
        match reviewOutcome env owner repo (apiKey (app w)) f with
        | Ok r => Some r
        | Err _ => None
        end)
    /\ (forall p,
        ~ In p (map file_path (filesToReview allowList (fileTree (app w)))) ->
        results !! p = None)
    /\ size results =
       List.length (filesToReview allowList (fileTree (app w)))
       - List.length
           (filter (reviewFails env owner repo (apiKey (app w)))
                   (filesToReview allowList (fileTree (app w))))
    /\ progressShown (trace w') =
       progressShown (trace w)
       ++ progressFrom
            (List.length (filesToReview allowList (fileTree (app w)))) 0
            (S (List.length (filesToReview allowList (fileTree (app w)))))
       ++ [None]
    /\ reviewProgress (app w') = None
    /\ contentCalls (trace w') =
       contentCalls (trace w)
       ++ map (fun f => FetchContents owner repo (file_path f))
              (filesToReview allowList (fileTree (app w))).
Proof.
  intros Hrepo Hkey Hne Hnd.
  set (files := filesToReview allowList (fileTree (app w))) in *.
  unfold analyzeRepoWith. run_world.
  rewrite Hrepo, Hkey. run_world. fold files.
  destruct (Nat.eqb (List.length files) 0) eqn:Hlen.
  { apply Nat.eqb_eq in Hlen. destruct files; [congruence | discriminate]. }
  run_world. unfold bind at 1.
  match goal with
  | |- context [reviewLoop env owner repo ?k ?n 0 files ∅ ?w0] =>
      destruct (reviewLoop_run owner repo k n files 0 ∅ w0)
        as (results & s' & evs & Hrun & Hsame & Hp & Hc & Hframe & Hin & Hsize)
  end.
  rewrite Hrun. run_world.
  destruct Hsame as (Hl & He & Hk & Ht & Hr & Hs & Hf & Hv & Hrr).
  cbn [app error] in He.
  eexists. exists results. split; [reflexivity|]. simpl_world.
  split; [exact He|]. split; [reflexivity|]. split; [reflexivity|].
  split.
  { intros f Hf'. rewrite (Hin Hnd f Hf').
    destruct (reviewOutcome env owner repo (apiKey (app w)) f);
      [reflexivity | apply lookup_empty]. }
  split.
  { intros p Hp'. rewrite (Hframe p Hp'). apply lookup_empty. }
  split.
  { rewrite (Hsize Hnd) by (intros; apply lookup_empty).
    rewrite map_size_empty.
    pose proof (filter_length (reviewFails env owner repo (apiKey (app w)))
                  files) as Hfl.
    lia. }
  split.
  { unfold progressShown in *. rewrite !flat_map_app. cbn [flat_map List.app].
    rewrite Hp. unfold progressFrom. cbn [seq map Nat.add].
    rewrite <- !app_assoc. reflexivity. }
  split; [reflexivity|].
  unfold contentCalls in *. rewrite !filter_app. cbn [filter List.app].
  rewrite !app_nil_r, Hc. reflexivity.
Qed.

End BatchReview.

(* ================================================================== *)
(** * Extensions: [extensionOf] against the final extension *)
(* ================================================================== *)

Lemma lastIndexOf_from_suffix (c : ascii) (s : string) :
  forall i found : Z,
  lastIndexOf_from c s i found =
  match suffixAtLast c s with
  | Some e => (i + Z.of_nat (String.length s) - Z.of_nat (String.length e))%Z
  | None => found
  end.
Proof.
  induction s as [| a s IH]; intros i found; cbn [lastIndexOf_from suffixAtLast].
  - reflexivity.
  - rewrite IH. destruct (suffixAtLast c s) as [e |].
    + cbn [String.length]. lia.
    + destruct (Ascii.eqb a c); [cbn [String.length]; lia | reflexivity].
Qed.

Lemma suffixAtLast_length (c : ascii) (s e : string) :
  suffixAtLast c s = Some e -> String.length e <= String.length s.
Proof.
  revert e. induction s as [| a s IH]; intros e; cbn [suffixAtLast].
  - discriminate.
  - destruct (suffixAtLast c s) as [e' |].
    + intros [= <-]. specialize (IH e' eq_refl). cbn. lia.
    + destruct (Ascii.eqb a c); [intros [= <-]; lia | discriminate].
Qed.

Lemma suffixAtLast_drop (c : ascii) (s e : string) :
  suffixAtLast c s = Some e ->
  string_drop (String.length s - String.length e) s = e.
Proof.
  revert e. induction s as [| a s IH]; intros e; cbn [suffixAtLast].
  - discriminate.
  - destruct (suffixAtLast c s) as [e' |] eqn:Hs.
    + intros [= <-]. pose proof (suffixAtLast_length c s e' Hs) as Hlen.
      cbn [String.length].
      replace (S (String.length s) - String.length e')
        with (S (String.length s - String.length e')) by lia.
      cbn [string_drop]. apply IH. reflexivity.
    + destruct (Ascii.eqb a c); [|discriminate].
      intros [= <-]. rewrite Nat.sub_diag. reflexivity.
Qed.

(** [p.substring(p.lastIndexOf(c))] is the suffix at the last [c], and
    the whole of [p] when [c] does not occur ([lastIndexOf] is [-1]). *)
Lemma substring_lastIndexOf (c : ascii) (s : string) :
  substring_from (lastIndexOf c s) s =
  match suffixAtLast c s with
  | Some e => e
  | None => s
  end.
Proof.
  unfold substring_from, lastIndexOf. rewrite lastIndexOf_from_suffix.
  destruct (suffixAtLast c s) as [e |] eqn:Hs.
  - pose proof (suffixAtLast_length c s e Hs) as Hlen.
    replace (Z.to_nat _) with (String.length s - String.length e) by lia.
    apply (suffixAtLast_drop c). exact Hs.
  - reflexivity.
Qed.

Lemma finalExtension_suffix (p : string) :
  finalExtension p = suffixAtLast "." (finalSegment p).
Proof.
  unfold finalExtension.
  pose proof (substring_lastIndexOf "." (finalSegment p)) as Hsub.
  unfold lastIndexOf in *. rewrite lastIndexOf_from_suffix in *.
  destruct (suffixAtLast "." (finalSegment p)) as [e |] eqn:Hs.
  - pose proof (suffixAtLast_length _ _ _ Hs) as Hlen.
    destruct (Z.ltb_spec
                (0 + Z.of_nat (String.length (finalSegment p))
                 - Z.of_nat (String.length e)) 0); [lia|].
    rewrite Hsub. reflexivity.
  - reflexivity.
Qed.

Lemma split_nonempty (sep : ascii) (s : string) : split sep s <> [].
Proof.
  destruct s as [| a s]; cbn; [discriminate|].
  destruct (Ascii.eqb a sep); [discriminate|].
  destruct (split sep s); discriminate.
Qed.

Lemma split_without_separator (sep : ascii) (s : string) :
  hasChar sep s = false -> split sep s = [s].
Proof.
  induction s as [| a s IH]; cbn; [reflexivity|].
  destruct (Ascii.eqb a sep); cbn; [discriminate|].
  intros H. rewrite (IH H). reflexivity.
Qed.

Lemma split_with_separator (sep : ascii) (s : string) :
  hasChar sep s = true ->
  exists seg seg' segs, split sep s = seg :: seg' :: segs.
Proof.
  induction s as [| a s IH]; cbn; [discriminate|].
  destruct (Ascii.eqb a sep) eqn:Ha; cbn.
  - intros _. pose proof (split_nonempty sep s) as Hne.
    destruct (split sep s) as [| seg' segs]; [congruence|]. eauto.
  - intros H. destruct (IH H) as (seg & seg' & segs & ->). eauto.
Qed.

Lemma finalSegment_cons (a : ascii) (s : string) :
  finalSegment (String a s) =
  if Ascii.eqb a "/" || hasChar "/" s then finalSegment s else String a s.
Proof.
  unfold finalSegment. cbn [split].
  destruct (Ascii.eqb a "/") eqn:Ha; cbn [orb].
  - pose proof (split_nonempty "/" s) as Hne.
    destruct (split "/" s); [congruence | reflexivity].
  - destruct (hasChar "/" s) eqn:Hs.
    + destruct (split_with_separator "/" s Hs) as (seg & seg' & segs & ->).
      reflexivity.
    + rewrite (split_without_separator "/" s Hs). reflexivity.
Qed.

Lemma suffixAtLast_None (c : ascii) (s : string) :
  suffixAtLast c s = None -> hasChar c s = false.
Proof.
  induction s as [| a s IH]; cbn; [reflexivity|].
  destruct (suffixAtLast c s); [discriminate|].
  destruct (Ascii.eqb a c); [discriminate|]. intros _. apply IH. reflexivity.
Qed.

Lemma suffixAtLast_absent (c : ascii) (s : string) :
  hasChar c s = false -> suffixAtLast c s = None.
Proof.
  induction s as [| a s IH]; cbn [hasChar suffixAtLast]; [reflexivity|].
  intros H. apply orb_false_iff in H. destruct H as [Ha Hs].
  rewrite (IH Hs), Ha. reflexivity.
Qed.

Lemma suffixAtLast_Some (c : ascii) (s e : string) :
  suffixAtLast c s = Some e -> hasChar c s = true.
Proof.
  intros Hs. destruct (hasChar c s) eqn:Hc; [reflexivity|].
  rewrite (suffixAtLast_absent c s Hc) in Hs. discriminate.
Qed.

(** The last dot of the path lies in the final segment when that
    segment has one; otherwise what follows it runs over a slash. *)
Lemma suffixAtLast_finalSegment (p : string) :
  match suffixAtLast "." (finalSegment p) with
  | Some e => suffixAtLast "." p = Some e
  | None =>
      match suffixAtLast "." p with
      | Some e' => hasChar "/" e' = true
      | None => True
      end
  end.
Proof.
  induction p as [| a s IH]; [exact I|].
  rewrite finalSegment_cons.
  destruct (Ascii.eqb a "/" || hasChar "/" s) eqn:Hslash.
  - cbn [suffixAtLast].
    destruct (suffixAtLast "." (finalSegment s)) as [e |].
    + rewrite IH. reflexivity.
    + destruct (suffixAtLast "." s) as [e' |]; [exact IH|].
      destruct (Ascii.eqb a ".") eqn:Hdot; [|exact I].
      cbn [hasChar]. apply Ascii.eqb_eq in Hdot. subst a.
      cbn in Hslash. cbn. exact Hslash.
  - destruct (suffixAtLast "." (String a s)); [reflexivity | exact I].
Qed.

Lemma set_has_In (s : list string) (x : string) :
  set_has s x = true <-> In x s.
Proof.
  unfold set_has. rewrite existsb_exists. split.
  - intros (y & Hy & Heq). apply String.eqb_eq in Heq. subst. exact Hy.
  - intros H. exists x. split; [exact H | apply String.eqb_refl].
Qed.

(** On an allow-list of proper extensions the code's test, which cuts
    the whole path at its last dot, is membership of the final
    extension. *)
Lemma hasListedExtension_finalExtension (allowList : list string)
    (file : GitHubFile) :
  Forall (fun e => isExtension e = true) allowList ->
  hasListedExtension allowList file = true <->
  exists ext, finalExtension (file_path file) = Some ext /\ In ext allowList.
Proof.
  intros Hallow. unfold hasListedExtension, extensionOf.
  rewrite set_has_In, substring_lastIndexOf, finalExtension_suffix.
  pose proof (suffixAtLast_finalSegment (file_path file)) as Hrel.
  rewrite Forall_forall in Hallow.
  destruct (suffixAtLast "." (finalSegment (file_path file))) as [e |].
  - rewrite Hrel. split.
    + intros H. exists e. auto.
    + intros (ext & [= <-] & H). exact H.
  - split; [|intros (ext & Hext & _); discriminate].
    intros H. exfalso. apply Hallow in H. unfold isExtension in H.
    apply andb_true_iff in H. destruct H as [Hdot Hslash].
    destruct (suffixAtLast "." (file_path file)) as [e' |] eqn:Hs.
    + rewrite Hrel in Hslash. discriminate.
    + rewrite (suffixAtLast_None _ _ Hs) in Hdot. discriminate.
Qed.

Lemma SOURCE_CODE_EXTENSIONS_proper :
  Forall (fun e => isExtension e = true) SOURCE_CODE_EXTENSIONS.
Proof.
  unfold SOURCE_CODE_EXTENSIONS. repeat constructor.
Qed.

(** C8.  A collected file is kept by the batch filter exactly when the
    final extension of its path (the substring starting at the last dot
    of the final segment) is in the extension set; a file whose final
    segment has no dot is never kept. *)
Theorem batch_filter_by_final_extension
    (nodes : list TreeNode) (file : GitHubFile) :
  (In file (filesToReview SOURCE_CODE_EXTENSIONS nodes) <->
   In file (collectFiles nodes)
   /\ exists ext,
        finalExtension (file_path file) = Some ext
        /\ In ext SOURCE_CODE_EXTENSIONS)
  /\ (hasChar "." (finalSegment (file_path file)) = false ->
      ~ In file (filesToReview SOURCE_CODE_EXTENSIONS nodes)).
Proof.
  pose proof (hasListedExtension_finalExtension SOURCE_CODE_EXTENSIONS file
                SOURCE_CODE_EXTENSIONS_proper) as Hiff.
  unfold filesToReview. rewrite filter_In. split.
  - rewrite Hiff. reflexivity.
  - intros Hnodot (_ & Hsel). apply Hiff in Hsel.
    destruct Hsel as (ext & Hext & _).
    rewrite finalExtension_suffix in Hext.
    apply suffixAtLast_Some in Hext. congruence.
Qed.

(* ================================================================== *)
(** * Listing: [getRepoTree] *)
(* ================================================================== *)

Lemma filter_sublist {A : Type} (f : A -> bool) (l : list A) :
  sublist (filter f l) l.
Proof.
  induction l as [| x l IH]; cbn.
  - constructor.
  - destruct (f x); constructor; exact IH.
Qed.

Lemma sublist_map {A B : Type} (g : A -> B) (l1 l2 : list A) :
  sublist l1 l2 -> sublist (map g l1) (map g l2).
Proof.
  induction 1; cbn; constructor; assumption.
Qed.

Lemma filter_partition_Permutation {A : Type} (f : A -> bool) (l : list A) :
  Permutation (filter f l ++ filter (fun x => negb (f x)) l) l.
Proof.
  induction l as [| x l IH]; cbn; [constructor|].
  destruct (f x); cbn.
  - constructor. exact IH.
  - symmetry. apply Permutation_cons_app. symmetry. exact IH.
Qed.

(** What lines 81-89 return is the stable partition of the listing. *)
Lemma listedFiles_stable_partition (items : list GithubTreeItem) :
  StablePartition items (listedFiles items).
Proof.
  unfold StablePartition, listedFiles.
  fold isListedBlob. fold fileOfItem.
  set (allFiles := map fileOfItem (filter isListedBlob items)).
  assert (Hsub : sublist allFiles (map fileOfItem items)).
  { apply sublist_map, filter_sublist. }
  exists (filter (hasListedExtension SOURCE_CODE_EXTENSIONS) allFiles),
         (filter (fun file =>
                    negb (hasListedExtension SOURCE_CODE_EXTENSIONS file))
                 allFiles).
  split; [reflexivity|].
  split.
  { apply Forall_forall. intros f Hf. apply filter_In in Hf.
    destruct Hf as [_ Hf]. unfold isSourceFile.
    apply (hasListedExtension_finalExtension SOURCE_CODE_EXTENSIONS f
             SOURCE_CODE_EXTENSIONS_proper). exact Hf. }
  split.
  { apply Forall_forall. intros f Hf. apply filter_In in Hf.
    destruct Hf as [_ Hf]. apply negb_true_iff in Hf.
    unfold isSourceFile. intros Hsource.
    apply (hasListedExtension_finalExtension SOURCE_CODE_EXTENSIONS f
             SOURCE_CODE_EXTENSIONS_proper) in Hsource.
    congruence. }
  split. { etransitivity; [apply filter_sublist | exact Hsub]. }
  split. { etransitivity; [apply filter_sublist | exact Hsub]. }
  split. { apply filter_partition_Permutation. }
  apply Forall_forall. intros f Hf.
  apply in_app_or in Hf.
  assert (Hall : In f allFiles).
  { destruct Hf as [Hf | Hf]; apply filter_In in Hf; tauto. }
  unfold allFiles in Hall. apply in_map_iff in Hall.
  destruct Hall as (item & <- & Hitem). apply filter_In in Hitem.
  destruct Hitem as [_ Hitem]. unfold isListedBlob in Hitem.
  apply andb_true_iff in Hitem. destruct Hitem as [Hty Hpath].
  unfold fileOfItem. cbn. split.
  - destruct (item_type item); [reflexivity | discriminate].
  - intros Heq. rewrite Heq in Hpath. discriminate.
Qed.

Section Listing.

Variable env : Platform.

(** C9.  When both requests are answered, [getRepoTree] returns the
    stable partition of the listing's blob entries: the files whose
    final extension is in the source-code extension set first, the
    files whose final extension is not (or that have none) after, each
    group in the order of the response, and no entry that is not a blob
    or has an empty path. *)
Theorem getRepoTree_stable_partition
    (owner repo : string) (w : World)
    (repoRes : Response GithubRepoResponse) (repoData : GithubRepoResponse)
    (treeRes : Response GithubTreeResponse) (treeData : GithubTreeResponse) :
  fetchRepo env owner repo = Ok repoRes ->
  ok repoRes = true ->
  json repoRes = Ok repoData ->
  fetchTree env owner repo (default_branch repoData) = Ok treeRes ->
  ok treeRes = true ->
  json treeRes = Ok treeData ->
  exists files w',
    getRepoTree env owner repo w = (Ok files, w')
    /\ app w' = app w
    /\ StablePartition (tree_items treeData) files.
Proof.
  intros Hrepo Hok Hjson Htree Hok' Hjson'.
  unfold getRepoTree, tryCatch, bind, emit, liftResult, ret.
  rewrite Hrepo, Hok. cbn. rewrite Hjson. cbn.
  rewrite Htree, Hok'. cbn. rewrite Hjson'.
  destruct (truncated treeData); cbn.
  - eexists. eexists. split; [reflexivity|]. cbn.
    split; [reflexivity | apply listedFiles_stable_partition].
  - eexists. eexists. split; [reflexivity|]. cbn.
    split; [reflexivity | apply listedFiles_stable_partition].
Qed.

End Listing.

(* ================================================================== *)
(** * Sorting: [sortNodes] *)
(* ================================================================== *)

Section Sorting.

Variable localeCompare : string -> string -> Z.

Abbreviation nodeLe := (fun a b => (nodeCompare localeCompare a b <= 0)%Z).

Lemma sortInsert_Permutation (x : TreeNode) (l : list TreeNode) :
  Permutation (sortInsert localeCompare x l) (x :: l).
Proof.
  induction l as [| y l IH]; cbn; [reflexivity|].
  destruct (nodeCompare localeCompare x y <=? 0)%Z; [reflexivity|].
  rewrite IH. apply perm_swap.
Qed.

Lemma sort_Permutation (l : list TreeNode) :
  Permutation (sort localeCompare l) l.
Proof.
  induction l as [| x l IH]; cbn; [reflexivity|].
  rewrite sortInsert_Permutation, IH. reflexivity.
Qed.

(** Sorting commutes with a rewrite of the nodes that keeps the keys the
    comparator reads. *)
Lemma sortInsert_map (f : TreeNode -> TreeNode) (x : TreeNode)
    (l : list TreeNode) :
  (forall n, type (f n) = type n /\ name (f n) = name n) ->
  sortInsert localeCompare (f x) (map f l) =
  map f (sortInsert localeCompare x l).
Proof.
  intros Hkeys. induction l as [| y l IH]; cbn; [reflexivity|].
  assert (Hcmp : nodeCompare localeCompare (f x) (f y) =
                 nodeCompare localeCompare x y).
  { unfold nodeCompare. destruct (Hkeys x) as [-> ->].
    destruct (Hkeys y) as [-> ->]. reflexivity. }
  rewrite Hcmp. destruct (nodeCompare localeCompare x y <=? 0)%Z; cbn.
  - reflexivity.
  - rewrite IH. reflexivity.
Qed.

Lemma sort_map (f : TreeNode -> TreeNode) (l : list TreeNode) :
  (forall n, type (f n) = type n /\ name (f n) = name n) ->
  sort localeCompare (map f l) = map f (sort localeCompare l).
Proof.
  intros Hkeys. induction l as [| x l IH]; cbn; [reflexivity|].
  rewrite IH. apply sortInsert_map. exact Hkeys.
Qed.

Lemma sortNode_keys (n : TreeNode) :
  type (sortNode localeCompare n) = type n
  /\ name (sortNode localeCompare n) = name n.
Proof.
  destruct n as [nm p ty cs s]. destruct ty; cbn; auto.
Qed.

Lemma sortNode_fields (n : TreeNode) :
  path (sortNode localeCompare n) = path n
  /\ sha (sortNode localeCompare n) = sha n.
Proof.
  destruct n as [nm p ty cs s]. destruct ty; cbn; auto.
Qed.

Lemma sortNode_children (n : TreeNode) :
  children (sortNode localeCompare n) =
  match type n with
  | tree => sortNodes localeCompare (children n)
  | blob => children n
  end.
Proof.
  destruct n as [nm p ty cs s]. destruct ty; reflexivity.
Qed.

(** [sortNodes] in the order the source runs it: sort the array, then
    sort the children of each ['tree'] node of the sorted array. *)
Lemma sortNodes_unfold (nodes : list TreeNode) :
  sortNodes localeCompare nodes =
  map (fun node =>
         match type node with
         | tree =>
             withChildren node (sortNodes localeCompare (children node))
         | blob => node
         end)
      (sort localeCompare nodes).
Proof.
  unfold sortNodes at 1. rewrite sort_map by apply sortNode_keys.
  apply map_ext. intros [nm p ty cs s]. destruct ty; reflexivity.
Qed.

Hypothesis consistent : ConsistentComparator localeCompare.

Lemma nodeLe_total (a b : TreeNode) :
  (nodeCompare localeCompare a b <= 0)%Z
  \/ (nodeCompare localeCompare b a <= 0)%Z.
Proof.
  unfold nodeCompare.
  pose proof (cmp_flip _ consistent (name a) (name b)).
  destruct (type a), (type b); lia.
Qed.

Lemma nodeLe_trans (a b c : TreeNode) :
  (nodeCompare localeCompare a b <= 0)%Z ->
  (nodeCompare localeCompare b c <= 0)%Z ->
  (nodeCompare localeCompare a c <= 0)%Z.
Proof.
  unfold nodeCompare.
  pose proof (cmp_trans _ consistent (name a) (name b) (name c)).
  destruct (type a), (type b), (type c); lia.
Qed.

Lemma sortInsert_sorted (x : TreeNode) (l : list TreeNode) :
  StronglySorted nodeLe l ->
  StronglySorted nodeLe (sortInsert localeCompare x l).
Proof.
  induction 1 as [| y l Hsorted IH Hall]; cbn.
  - repeat constructor.
  - destruct (Z.leb_spec (nodeCompare localeCompare x y) 0) as [Hle | Hgt].
    + constructor; [constructor; assumption|].
      constructor; [exact Hle|].
      eapply Forall_impl; [|exact Hall].
      intros z Hz. cbn in Hz. eapply nodeLe_trans; eassumption.
    + constructor; [exact IH|].
      assert (Hyx : (nodeCompare localeCompare y x <= 0)%Z).
      { destruct (nodeLe_total x y); [lia | assumption]. }
      rewrite Forall_forall in *. intros z Hz.
      apply (Permutation_in _ (sortInsert_Permutation x l)) in Hz.
      destruct Hz as [<- | Hz]; [exact Hyx | apply Hall; exact Hz].
Qed.

Lemma sort_sorted (l : list TreeNode) :
  StronglySorted nodeLe (sort localeCompare l).
Proof.
  induction l as [| x l IH]; cbn; [constructor|].
  apply sortInsert_sorted. exact IH.
Qed.

Lemma StronglySorted_nth {A : Type} (R : A -> A -> Prop) (l : list A) :
  StronglySorted R l ->
  forall i j a b,
    i < j -> nth_error l i = Some a -> nth_error l j = Some b -> R a b.
Proof.
  induction 1 as [| x l Hsorted IH Hall]; intros i j a b Hij Ha Hb.
  - destruct i; discriminate.
  - destruct j as [| j]; [lia|]. cbn in Hb.
    destruct i as [| i]; cbn in Ha.
    + injection Ha as <-. rewrite Forall_forall in Hall.
      apply Hall. eapply nth_error_In. exact Hb.
    + apply (IH i j); [lia | assumption | assumption].
Qed.

Lemma sorted_siblingsOrdered (l : list TreeNode) :
  StronglySorted nodeLe l -> siblingsOrdered localeCompare l.
Proof.
  intros Hsorted i j a b Hij Ha Hb.
  pose proof (StronglySorted_nth _ _ Hsorted i j a b Hij Ha Hb) as Hle.
  cbn in Hle. unfold nodeCompare in Hle.
  destruct (type a), (type b); split; intros; try congruence; lia.
Qed.

Lemma sortNodes_ordered (nodes : list TreeNode) :
  OrderedForest localeCompare (fun n => type n = tree)
                (sortNodes localeCompare nodes).
Proof.
  assert (Hnode : forall n,
             type n = tree ->
             OrderedForest localeCompare (fun n => type n = tree)
                           (sortNodes localeCompare (children n))).
  { induction n as [n IH] using TreeNode_children_ind. intros _.
    constructor.
    - apply sorted_siblingsOrdered, sort_sorted.
    - intros m Hm Hty.
      apply (Permutation_in _ (sort_Permutation _)) in Hm.
      apply in_map_iff in Hm. destruct Hm as (c & <- & Hc).
      rewrite sortNode_children.
      destruct (sortNode_keys c) as [Hkey _]. rewrite Hkey in Hty.
      rewrite Hty. rewrite Forall_forall in IH. apply IH; assumption. }
  constructor.
  - apply sorted_siblingsOrdered, sort_sorted.
  - intros m Hm Hty.
    apply (Permutation_in _ (sort_Permutation _)) in Hm.
    apply in_map_iff in Hm. destruct Hm as (c & <- & Hc).
    rewrite sortNode_children.
    destruct (sortNode_keys c) as [Hkey _]. rewrite Hkey in Hty.
    rewrite Hty. apply Hnode. exact Hty.
Qed.

(** C4 (as the code has it).  In the tree [buildFileTree] returns, the
    top-level nodes and the children of every ['tree'] node reached
    through ['tree'] nodes are ordered: trees before blobs, and within a
    kind the names non-decreasing under [localeCompare]. *)
Theorem buildFileTree_siblings_ordered (files : list GitHubFile) :
  OrderedForest localeCompare (fun n => type n = tree)
                (buildFileTree localeCompare files).
Proof.
  unfold buildFileTree. apply sortNodes_ordered.
Qed.

End Sorting.

(* ================================================================== *)
(** * Paths: [split] and [join] *)
(* ================================================================== *)

Lemma join_cons_char (c : ascii) (seg : string) (segs : list string) :
  join "/" (String c seg :: segs) = String c (join "/" (seg :: segs)).
Proof.
  destruct segs; reflexivity.
Qed.

(** [p.split('/').join('/')] is [p]. *)
Lemma join_split (s : string) : join "/" (split "/" s) = s.
Proof.
  induction s as [| c s IH]; [reflexivity|].
  cbn [split]. destruct (Ascii.eqb c "/") eqn:Hc.
  - apply Ascii.eqb_eq in Hc. subst c.
    pose proof (split_nonempty "/" s) as Hne.
    destruct (split "/" s) as [| seg segs]; [congruence|].
    change (join "/" (EmptyString :: seg :: segs))
      with (String "/" (join "/" (seg :: segs))).
    rewrite IH. reflexivity.
  - pose proof (split_nonempty "/" s) as Hne.
    destruct (split "/" s) as [| seg segs]; [congruence|].
    rewrite join_cons_char, IH. reflexivity.
Qed.

Lemma split_segments_no_separator (s : string) :
  Forall (fun seg => hasChar "/" seg = false) (split "/" s).
Proof.
  induction s as [| c s IH]; cbn [split].
  - repeat constructor.
  - destruct (Ascii.eqb c "/") eqn:Hc.
    + constructor; [reflexivity | exact IH].
    + destruct (split "/" s) as [| seg segs]; [repeat constructor; cbn; now rewrite Hc|].
      inversion IH as [| ? ? Hseg Hsegs]; subst.
      constructor; [cbn; rewrite Hc; exact Hseg | exact Hsegs].
Qed.

(** Joining slash-free segments loses nothing: [split] gives them
    back. *)
Lemma split_join (segs : list string) :
  segs <> [] ->
  Forall (fun seg => hasChar "/" seg = false) segs ->
  split "/" (join "/" segs) = segs.
Proof.
  induction segs as [| seg rest IH]; [congruence|]. intros _ Hall.
  inversion Hall as [| ? ? Hseg Hrest]; subst.
  destruct rest as [| seg' rest'].
  - cbn [join]. apply split_without_separator. exact Hseg.
  - assert (IH' : split "/" (join "/" (seg' :: rest')) = seg' :: rest').
    { apply IH; [discriminate | exact Hrest]. }
    change (join "/" (seg :: seg' :: rest'))
      with (seg ++ "/" ++ join "/" (seg' :: rest'))%string.
    revert IH'. generalize (join "/" (seg' :: rest')).
    intros t Ht. clear -Hseg Ht.
    induction seg as [| c seg IHs].
    + change (split "/" (String "/" t) = EmptyString :: seg' :: rest').
      cbn [split]. rewrite Ht. reflexivity.
    + change (split "/" (String c (seg ++ "/" ++ t)%string)
              = String c seg :: seg' :: rest').
      cbn [hasChar] in Hseg. apply orb_false_iff in Hseg.
      destruct Hseg as [Hc Hseg].
      cbn [split]. rewrite Hc. rewrite (IHs Hseg). reflexivity.
Qed.

(* ================================================================== *)
(** * One walk of the builder: [insertParts] *)
(* ================================================================== *)

Lemma find_none_names (part : string) (nodes : list TreeNode) :
  find (fun child => String.eqb (name child) part) nodes = None ->
  ~ In part (map name nodes).
Proof.
  intros Hfind Hin. apply in_map_iff in Hin. destruct Hin as (n & Hn & Hin).
  apply (find_none _ _ Hfind) in Hin. cbn in Hin.
  rewrite Hn, String.eqb_refl in Hin. discriminate.
Qed.

(** When [find] returns [child], the rewrite touches that node only. *)
Lemma updateChild_found (part : string) (f : TreeNode -> TreeNode)
    (nodes : list TreeNode) (child : TreeNode) :
  find (fun c => String.eqb (name c) part) nodes = Some child ->
  exists before after,
    nodes = before ++ child :: after
    /\ name child = part
    /\ updateChild part f nodes = before ++ f child :: after.
Proof.
  induction nodes as [| c rest IH]; cbn; [discriminate|].
  destruct (String.eqb (name c) part) eqn:Hc.
  - intros [= <-]. exists [], rest. apply String.eqb_eq in Hc. auto.
  - intros Hfind. destruct (IH Hfind) as (before & after & -> & Hname & Hup).
    exists (c :: before), after. cbn. rewrite Hup. auto.
Qed.

Lemma insertParts_nonempty (file : GitHubFile) (arr : list string)
    (index : nat) (parts : list string) (nodes : list TreeNode) :
  parts <> [] \/ nodes <> [] ->
  insertParts file arr index parts nodes <> [].
Proof.
  destruct parts as [| part rest]; cbn [insertParts].
  - intros [H | H]; congruence.
  - intros _.
    destruct (find (fun child => String.eqb (name child) part) nodes)
      as [child |] eqn:Hfind.
    + destruct (updateChild_found part
                  (fun childNode =>
                     withChildren childNode
                       (insertParts file arr (S index) rest
                                    (children childNode)))
                  nodes child Hfind) as (before & after & _ & _ & ->).
      destruct before; discriminate.
    + destruct nodes; discriminate.
Qed.

Lemma slice0_prefix (prefix : list string) (part : string)
    (rest : list string) :
  slice0 (List.length prefix + 1) (prefix ++ part :: rest) = prefix ++ [part].
Proof.
  unfold slice0. induction prefix as [| a prefix IH]; cbn.
  - reflexivity.
  - rewrite IH. reflexivity.
Qed.

Lemma isLastPart_spec (prefix : list string) (part : string)
    (rest : list string) :
  Nat.eqb (List.length prefix)
          (List.length (prefix ++ part :: rest) - 1) =
  match rest with
  | [] => true
  | _ :: _ => false
  end.
Proof.
  rewrite length_app. cbn [List.length].
  destruct rest; cbn [List.length].
  - apply Nat.eqb_eq. lia.
  - apply Nat.eqb_neq. lia.
Qed.

(** The walk keeps the tree well formed, whatever it meets. *)
Lemma insertParts_WellFormed (file : GitHubFile) (arr : list string) :
  forall (parts prefix : list string) (nodes : list TreeNode),
    arr = prefix ++ parts ->
    Forall (fun seg => hasChar "/" seg = false) parts ->
    WellFormed prefix nodes ->
    WellFormed prefix
      (insertParts file arr (List.length prefix) parts nodes).
Proof.
  induction parts as [| part rest IH]; intros prefix nodes Harr Hparts Hwf;
    [exact Hwf|].
  inversion Hparts as [| ? ? Hpart Hrest]; subst.
  inversion Hwf as [? ? Hnd Hprops Hkids]; subst.
  assert (Hstep : forall kids,
             WellFormed (prefix ++ [part]) kids ->
             WellFormed (prefix ++ [part])
               (insertParts file (prefix ++ part :: rest)
                            (S (List.length prefix)) rest kids)).
  { intros kids Hk.
    replace (S (List.length prefix)) with (List.length (prefix ++ [part]))
      by (rewrite length_app; cbn; lia).
    apply IH; [rewrite <- app_assoc; reflexivity | exact Hrest | exact Hk]. }
  cbn [insertParts].
  destruct (find (fun child => String.eqb (name child) part) nodes)
    as [child |] eqn:Hfind.
  - destruct (updateChild_found part
                (fun childNode =>
                   withChildren childNode
                     (insertParts file (prefix ++ part :: rest)
                        (S (List.length prefix)) rest (children childNode)))
                nodes child Hfind) as (before & after & Hnodes & Hname & ->).
    subst nodes.
    assert (Hchild : In child (before ++ child :: after))
      by (apply in_elt).
    constructor.
    + rewrite map_app in *. exact Hnd.
    + intros n Hn. apply in_app_or in Hn. destruct Hn as [Hn | [<- | Hn]].
      * apply Hprops. apply in_or_app. auto.
      * cbn. destruct (Hprops child Hchild) as (Hp & Hs & Ht).
        repeat split; try assumption.
        -- apply Ht; assumption.
        -- apply insertParts_nonempty. right. apply Ht. assumption.
      * apply Hprops. apply in_or_app. cbn. auto.
    + intros n Hn. apply in_app_or in Hn. destruct Hn as [Hn | [<- | Hn]].
      * apply Hkids. apply in_or_app. auto.
      * cbn. rewrite Hname. apply Hstep. rewrite <- Hname.
        apply Hkids. exact Hchild.
      * apply Hkids. apply in_or_app. cbn. auto.
  - rewrite isLastPart_spec, slice0_prefix.
    constructor.
    + rewrite map_app. cbn. apply NoDup_app; [exact Hnd | repeat constructor; cbn; tauto |].
      intros x Hx [<- | []]. exact (find_none_names _ _ Hfind Hx).
    + intros n Hn. apply in_app_or in Hn. destruct Hn as [Hn | [<- | []]].
      * apply Hprops. exact Hn.
      * cbn. repeat split; try assumption.
        -- destruct rest; [discriminate | reflexivity].
        -- apply insertParts_nonempty. left. destruct rest; [discriminate | discriminate].
    + intros n Hn. apply in_app_or in Hn. destruct Hn as [Hn | [<- | []]].
      * apply Hkids. exact Hn.
      * cbn. apply Hstep. constructor; [constructor | intros ? [] | intros ? []].
Qed.

(* ================================================================== *)
(** * The files a tree stands for *)
(* ================================================================== *)

Lemma leaves_unfold (n : TreeNode) :
  leaves n =
  match type n with
  | blob => [([name n], sha n)]
  | tree =>
      map (fun l => (name n :: fst l, snd l)) (forestLeaves (children n))
  end.
Proof.
  destruct n; reflexivity.
Qed.

Lemma forestLeaves_app (a b : list TreeNode) :
  forestLeaves (a ++ b) = forestLeaves a ++ forestLeaves b.
Proof.
  apply flat_map_app.
Qed.

Lemma forestLeaves_cons (n : TreeNode) (rest : list TreeNode) :
  forestLeaves (n :: rest) = leaves n ++ forestLeaves rest.
Proof.
  reflexivity.
Qed.

(** Every node of a well-formed tree leads to a file. *)
Lemma WellFormed_has_leaf (prefix : list string) (nodes : list TreeNode) :
  WellFormed prefix nodes -> nodes <> [] -> forestLeaves nodes <> [].
Proof.
  induction 1 as [prefix nodes Hnd Hprops Hkids IH].
  destruct nodes as [| n rest]; [congruence|]. intros _.
  rewrite forestLeaves_cons, leaves_unfold.
  destruct (Hprops n (or_introl eq_refl)) as (_ & _ & Htree).
  destruct (type n) eqn:Hty; [discriminate|].
  destruct (Htree eq_refl) as [_ Hne].
  specialize (IH n (or_introl eq_refl) Hne).
  destruct (forestLeaves (children n)); [congruence | discriminate].
Qed.

Lemma independent_cons (a : string) (p q : list string) :
  independent (a :: p) (a :: q) = independent p q.
Proof.
  unfold independent. cbn [isPrefix]. rewrite String.eqb_refl. reflexivity.
Qed.

Lemma independent_sym (p q : list string) :
  independent p q = independent q p.
Proof.
  unfold independent. apply andb_comm.
Qed.

Lemma in_leaves_node (n : TreeNode) (nodes : list TreeNode)
    (l : list string * option string) :
  In n nodes -> In l (leaves n) -> In l (forestLeaves nodes).
Proof.
  intros Hn Hl. unfold forestLeaves. apply in_flat_map. eauto.
Qed.

(** On a tree whose blobs are leaves, a walk that runs into no existing
    file and through none adds exactly its own file. *)
Lemma insertParts_leaves (file : GitHubFile) (arr : list string) :
  forall (parts prefix : list string) (nodes : list TreeNode),
    parts <> [] ->
    arr = prefix ++ parts ->
    WellFormed prefix nodes ->
    BlobsAreLeaves nodes ->
    (forall l, In l (forestLeaves nodes) ->
               independent parts (fst l) = true) ->
    BlobsAreLeaves (insertParts file arr (List.length prefix) parts nodes)
    /\ Permutation
         (forestLeaves (insertParts file arr (List.length prefix) parts nodes))
         (forestLeaves nodes ++ [(parts, Some (file_sha file))]).
Proof.
  induction parts as [| part rest IH]; intros prefix nodes Hne Harr Hwf Hbl Hind;
    [congruence|].
  subst arr.
  inversion Hwf as [? ? Hnd Hprops Hkids]; subst.
  inversion Hbl as [? Hblob Hbkids]; subst.
  assert (Hstep : forall kids,
             rest <> [] ->
             WellFormed (prefix ++ [part]) kids ->
             BlobsAreLeaves kids ->
             (forall l, In l (forestLeaves kids) ->
                        independent rest (fst l) = true) ->
             BlobsAreLeaves
               (insertParts file (prefix ++ part :: rest)
                            (S (List.length prefix)) rest kids)
             /\ Permutation
                  (forestLeaves
                     (insertParts file (prefix ++ part :: rest)
                                  (S (List.length prefix)) rest kids))
                  (forestLeaves kids ++ [(rest, Some (file_sha file))])).
  { intros kids Hrest Hk Hb Hi.
    replace (S (List.length prefix)) with (List.length (prefix ++ [part]))
      by (rewrite length_app; cbn [List.length]; lia).
    apply IH; try assumption. rewrite <- app_assoc. reflexivity. }
  cbn [insertParts].
  destruct (find (fun child => String.eqb (name child) part) nodes)
    as [child |] eqn:Hfind.
  - destruct (updateChild_found part
                (fun childNode =>
                   withChildren childNode
                     (insertParts file (prefix ++ part :: rest)
                        (S (List.length prefix)) rest (children childNode)))
                nodes child Hfind) as (before & after & Hnodes & Hname & ->).
    subst nodes.
    assert (Hchild : In child (before ++ child :: after)) by apply in_elt.
    destruct (Hprops child Hchild) as (_ & _ & Htree).
    destruct (type child) eqn:Hty.
    + exfalso.
      assert (Hl : In ([part], sha child)
                      (forestLeaves (before ++ child :: after))).
      { apply (in_leaves_node child); [exact Hchild|].
        rewrite leaves_unfold, Hty, Hname. left. reflexivity. }
      apply Hind in Hl. cbn [fst] in Hl. rewrite independent_cons in Hl.
      unfold independent in Hl. destruct rest; discriminate.
    + destruct (Htree eq_refl) as [_ Hkne].
      destruct rest as [| r rest'].
      * exfalso.
        pose proof (WellFormed_has_leaf _ _ (Hkids child Hchild) Hkne) as Hleaf.
        destruct (forestLeaves (children child)) as [| l ls] eqn:Hls;
          [congruence|].
        assert (Hl : In (part :: fst l, snd l)
                        (forestLeaves (before ++ child :: after))).
        { apply (in_leaves_node child); [exact Hchild|].
          rewrite leaves_unfold, Hty, Hname, Hls. left. reflexivity. }
        apply Hind in Hl. cbn [fst] in Hl. rewrite independent_cons in Hl.
        unfold independent in Hl. cbn [isPrefix negb andb] in Hl.
        discriminate.
      * destruct (Hstep (children child)) as [Hb' Hp'].
        -- discriminate.
        -- rewrite <- Hname. apply Hkids. exact Hchild.
        -- apply Hbkids. exact Hchild.
        -- intros l Hl.
           assert (Hl' : In (part :: fst l, snd l)
                            (forestLeaves (before ++ child :: after))).
           { apply (in_leaves_node child); [exact Hchild|].
             rewrite leaves_unfold, Hty, Hname. apply in_map_iff.
             exists l. auto. }
           apply Hind in Hl'. cbn [fst] in Hl'.
           rewrite independent_cons in Hl'. exact Hl'.
        -- split.
           ++ constructor.
              ** intros n Hn Hb. apply in_app_or in Hn.
                 destruct Hn as [Hn | [<- | Hn]].
                 --- apply Hblob; [apply in_or_app; auto | exact Hb].
                 --- cbn [type withChildren] in Hb. congruence.
                 --- apply Hblob; [apply in_or_app; cbn; auto | exact Hb].
              ** intros n Hn. apply in_app_or in Hn.
                 destruct Hn as [Hn | [<- | Hn]].
                 --- apply Hbkids. apply in_or_app. auto.
                 --- cbn [children withChildren]. exact Hb'.
                 --- apply Hbkids. apply in_or_app. cbn. auto.
           ++ rewrite !forestLeaves_app, !forestLeaves_cons.
              rewrite (leaves_unfold (withChildren child _)).
              rewrite (leaves_unfold child).
              cbn [type name children withChildren]. rewrite Hty, Hname.
              rewrite Hp', map_app. cbn [map fst snd].
              rewrite <- !app_assoc. apply Permutation_app_head.
              apply Permutation_app_head. apply Permutation_app_comm.
  - rewrite isLastPart_spec, slice0_prefix.
    destruct rest as [| r rest'].
    + cbn [insertParts]. split.
      * constructor.
        -- intros n Hn Hb. apply in_app_or in Hn.
           destruct Hn as [Hn | [<- | []]]; [apply Hblob; assumption|].
           reflexivity.
        -- intros n Hn. apply in_app_or in Hn.
           destruct Hn as [Hn | [<- | []]]; [apply Hbkids; assumption|].
           cbn [children]. constructor; intros ? [].
      * rewrite forestLeaves_app. reflexivity.
    + destruct (Hstep []) as [Hb' Hp'].
      * discriminate.
      * constructor; [constructor | intros ? [] | intros ? []].
      * constructor; intros ? [].
      * intros l [].
      * split.
        -- constructor.
           ++ intros n Hn Hb. apply in_app_or in Hn.
              destruct Hn as [Hn | [<- | []]]; [apply Hblob; assumption|].
              cbn [type] in Hb. discriminate.
           ++ intros n Hn. apply in_app_or in Hn.
              destruct Hn as [Hn | [<- | []]]; [apply Hbkids; assumption|].
              cbn [children]. exact Hb'.
        -- rewrite forestLeaves_app. apply Permutation_app_head.
           rewrite forestLeaves_cons, leaves_unfold.
           cbn [type name children forestLeaves flat_map].
           rewrite app_nil_r. fold (forestLeaves
             (insertParts file (prefix ++ part :: r :: rest')
                (S (List.length prefix)) (r :: rest') [])).
           rewrite Hp'. reflexivity.
Qed.

(* ================================================================== *)
(** * All walks: the tree before sorting *)
(* ================================================================== *)

Lemma WellFormed_nil (prefix : list string) : WellFormed prefix [].
Proof.
  constructor; [constructor | intros ? [] | intros ? []].
Qed.

Lemma BlobsAreLeaves_nil : BlobsAreLeaves [].
Proof.
  constructor; intros ? [].
Qed.

Lemma insertFile_WellFormed (nodes : list TreeNode) (file : GitHubFile) :
  WellFormed [] nodes -> WellFormed [] (insertFile nodes file).
Proof.
  intros Hwf. unfold insertFile.
  apply (insertParts_WellFormed file (split "/" (file_path file))
           (split "/" (file_path file)) [] nodes);
    [reflexivity | apply split_segments_no_separator | exact Hwf].
Qed.

Lemma fold_insertFile_WellFormed (files : list GitHubFile) :
  forall nodes,
    WellFormed [] nodes -> WellFormed [] (fold_left insertFile files nodes).
Proof.
  induction files as [| file files IH]; intros nodes Hwf; [exact Hwf|].
  cbn [fold_left]. apply IH, insertFile_WellFormed, Hwf.
Qed.

Lemma conflictFree_cons (f : GitHubFile) (rest : list GitHubFile) :
  conflictFree (f :: rest) = true ->
  (forall g, In g rest -> independent (segments f) (segments g) = true)
  /\ conflictFree rest = true.
Proof.
  cbn [conflictFree]. intros H. apply andb_true_iff in H.
  destruct H as [Hall Hrest]. split; [|exact Hrest].
  rewrite forallb_forall in Hall. exact Hall.
Qed.

(** Inserting conflict-free files into a tree none of them conflicts
    with adds one leaf per file and keeps the blobs childless. *)
Lemma fold_insertFile_leaves (files : list GitHubFile) :
  forall nodes,
    WellFormed [] nodes ->
    BlobsAreLeaves nodes ->
    conflictFree files = true ->
    (forall f l, In f files -> In l (forestLeaves nodes) ->
                 independent (segments f) (fst l) = true) ->
    BlobsAreLeaves (fold_left insertFile files nodes)
    /\ Permutation (forestLeaves (fold_left insertFile files nodes))
                   (forestLeaves nodes ++ map leafOf files).
Proof.
  induction files as [| file files IH]; intros nodes Hwf Hbl Hcf Hind.
  - cbn [fold_left map]. rewrite app_nil_r. auto.
  - apply conflictFree_cons in Hcf. destruct Hcf as [Hfile Hcf].
    destruct (insertParts_leaves file (split "/" (file_path file))
                (split "/" (file_path file)) [] nodes) as [Hbl1 Hp1].
    + apply split_nonempty.
    + reflexivity.
    + exact Hwf.
    + exact Hbl.
    + intros l Hl. apply (Hind file l); [left; reflexivity | exact Hl].
    + cbn [List.length] in Hbl1, Hp1. fold (insertFile nodes file) in Hbl1, Hp1.
      destruct (IH (insertFile nodes file)) as [Hbl2 Hp2].
      * apply insertFile_WellFormed, Hwf.
      * exact Hbl1.
      * exact Hcf.
      * intros g l Hg Hl. apply (Permutation_in _ Hp1) in Hl.
        apply in_app_or in Hl. destruct Hl as [Hl | [<- | []]].
        -- apply (Hind g l); [right; exact Hg | exact Hl].
        -- cbn [fst]. rewrite independent_sym. apply Hfile. exact Hg.
      * cbn [fold_left map]. split; [exact Hbl2|].
        rewrite Hp2, Hp1. rewrite <- app_assoc. reflexivity.
Qed.

(* ================================================================== *)
(** * [collectFiles] reads the leaves *)
(* ================================================================== *)

Lemma flat_map_map_pointwise {A B C : Type} (f : A -> list C)
    (h : A -> list B) (g : B -> C) (l : list A) :
  (forall x, In x l -> f x = map g (h x)) ->
  flat_map f l = map g (flat_map h l).
Proof.
  induction l as [| x l IH]; intros H; [reflexivity|].
  cbn [flat_map]. rewrite map_app, (H x (or_introl eq_refl)), IH;
    [reflexivity|].
  intros y Hy. apply H. right. exact Hy.
Qed.

Lemma collectNode_unfold (n : TreeNode) :
  collectNode n =
  match type n with
  | blob =>
      [ {| file_path := path n; file_type := blob;
           file_sha := nonNull (sha n) |} ]
  | tree => collectFiles (children n)
  end.
Proof.
  destruct n; reflexivity.
Qed.

Lemma collectFiles_leaves (prefix : list string) (nodes : list TreeNode) :
  WellFormed prefix nodes ->
  collectFiles nodes = map (fileOfLeaf prefix) (forestLeaves nodes).
Proof.
  induction 1 as [prefix nodes Hnd Hprops Hkids IH].
  unfold collectFiles, forestLeaves. apply flat_map_map_pointwise.
  intros n Hn. rewrite collectNode_unfold, leaves_unfold.
  destruct (Hprops n Hn) as (Hpath & _ & _).
  destruct (type n).
  - cbn [map]. unfold fileOfLeaf. cbn [fst snd]. rewrite Hpath. reflexivity.
  - rewrite (IH n Hn), map_map. apply map_ext. intros l.
    unfold fileOfLeaf. cbn [fst snd]. rewrite <- app_assoc. reflexivity.
Qed.

Section SortedTree.

Variable localeCompare : string -> string -> Z.

Lemma flat_map_Permutation_pointwise {A B : Type} (f g : A -> list B)
    (l : list A) :
  (forall x, In x l -> Permutation (f x) (g x)) ->
  Permutation (flat_map f l) (flat_map g l).
Proof.
  induction l as [| x l IH]; intros H; [constructor|].
  cbn [flat_map]. apply Permutation_app.
  - apply H. left. reflexivity.
  - apply IH. intros y Hy. apply H. right. exact Hy.
Qed.

(** Sorting moves the files around and loses none. *)
Lemma collectFiles_sortNodes (nodes : list TreeNode) :
  Permutation (collectFiles (sortNodes localeCompare nodes))
              (collectFiles nodes).
Proof.
  assert (Hnode : forall n,
             Permutation (collectNode (sortNode localeCompare n))
                         (collectNode n)).
  { induction n as [n IH] using TreeNode_children_ind.
    rewrite (collectNode_unfold (sortNode localeCompare n)),
      (collectNode_unfold n).
    destruct (sortNode_keys localeCompare n) as [Hty _]. rewrite Hty.
    destruct (sortNode_fields localeCompare n) as [Hpath Hsha].
    rewrite Hpath, Hsha, sortNode_children.
    destruct (type n); [reflexivity|].
    unfold sortNodes, collectFiles.
    rewrite (Permutation_flat_map _ (sort_Permutation localeCompare _)).
    rewrite flat_map_concat_map, map_map, <- flat_map_concat_map.
    apply flat_map_Permutation_pointwise.
    rewrite Forall_forall in IH. exact IH. }
  unfold sortNodes, collectFiles.
  rewrite (Permutation_flat_map _ (sort_Permutation localeCompare _)).
  rewrite flat_map_concat_map, map_map, <- flat_map_concat_map.
  apply flat_map_Permutation_pointwise. intros n _. apply Hnode.
Qed.

Lemma sortNodes_BlobsAreLeaves (nodes : list TreeNode) :
  BlobsAreLeaves nodes -> BlobsAreLeaves (sortNodes localeCompare nodes).
Proof.
  induction 1 as [nodes Hblob Hkids IH].
  constructor; intros m Hm;
    apply (Permutation_in _ (sort_Permutation _ _)) in Hm;
    apply in_map_iff in Hm; destruct Hm as (c & <- & Hc);
    rewrite sortNode_children.
  - destruct (sortNode_keys localeCompare c) as [-> _].
    intros Hty. rewrite Hty. apply Hblob; assumption.
  - destruct (type c); [apply Hkids | apply IH]; exact Hc.
Qed.

(** C2 (as the code has it).  For blob descriptors none of whose paths
    is another's path or a directory of it, the blob leaves of the tree
    [buildFileTree] returns are the input descriptors, each exactly
    once: as many leaves as descriptors, every leaf carrying the path
    and sha of one descriptor and every descriptor found at one leaf;
    and every blob node of that tree is such a leaf. *)
Theorem buildFileTree_leaves_are_files (files : list GitHubFile) :
  conflictFree files = true ->
  Forall (fun f => file_type f = blob) files ->
  Permutation (collectFiles (buildFileTree localeCompare files)) files
  /\ List.length (collectFiles (buildFileTree localeCompare files))
     = List.length files
  /\ BlobsAreLeaves (buildFileTree localeCompare files).
Proof.
  intros Hcf Hblob.
  assert (Hperm : Permutation (collectFiles (buildFileTree localeCompare files))
                              files).
  { unfold buildFileTree. rewrite collectFiles_sortNodes.
    rewrite (collectFiles_leaves []
               (fold_left insertFile files [])
               (fold_insertFile_WellFormed files [] (WellFormed_nil []))).
    destruct (fold_insertFile_leaves files [] (WellFormed_nil [])
                BlobsAreLeaves_nil Hcf) as [_ Hp].
    { intros f l _ []. }
    rewrite Hp. cbn [forestLeaves flat_map List.app].
    rewrite map_map.
    replace (map (fun x => fileOfLeaf [] (leafOf x)) files)
      with (map (fun x : GitHubFile => x) files);
      [rewrite map_id; reflexivity|].
    apply map_ext_in. intros f Hf.
    rewrite Forall_forall in Hblob. specialize (Hblob f Hf).
    unfold fileOfLeaf, leafOf, segments. cbn [fst snd List.app nonNull].
    rewrite join_split. destruct f as [p t s]. cbn in *. subst t.
    reflexivity. }
  split; [exact Hperm|]. split; [apply Permutation_length; exact Hperm|].
  unfold buildFileTree. apply sortNodes_BlobsAreLeaves.
  destruct (fold_insertFile_leaves files [] (WellFormed_nil [])
              BlobsAreLeaves_nil Hcf) as [Hbl _]; [intros f l _ []|].
  exact Hbl.
Qed.

End SortedTree.

(* ================================================================== *)
(** * The sorted tree is determined by its files *)
(* ================================================================== *)

Lemma in_leaves_head (n : TreeNode) (l : list string * option string) :
  In l (leaves n) -> exists t, fst l = name n :: t.
Proof.
  rewrite leaves_unfold. destruct (type n).
  - intros [<- | []]. exists []. reflexivity.
  - intros Hl. apply in_map_iff in Hl. destruct Hl as (l' & <- & _).
    exists (fst l'). reflexivity.
Qed.

Lemma leaf_path_nonempty (nodes : list TreeNode)
    (l : list string * option string) :
  In l (forestLeaves nodes) -> fst l <> [].
Proof.
  intros Hl. apply in_flat_map in Hl. destruct Hl as (n & _ & Hl).
  apply in_leaves_head in Hl. destruct Hl as (t & ->). discriminate.
Qed.

Lemma WellFormed_node_leaf (prefix : list string) (nodes : list TreeNode)
    (n : TreeNode) :
  WellFormed prefix nodes -> In n nodes -> exists l, In l (leaves n).
Proof.
  intros Hwf Hn. inversion Hwf as [? ? _ Hprops Hkids]; subst.
  rewrite leaves_unfold.
  destruct (Hprops n Hn) as (_ & _ & Htree).
  destruct (type n); [eexists; left; reflexivity|].
  destruct (Htree eq_refl) as [_ Hne].
  pose proof (WellFormed_has_leaf _ _ (Hkids n Hn) Hne) as Hleaf.
  destruct (forestLeaves (children n)) as [| l ls]; [congruence|].
  eexists. left. reflexivity.
Qed.

Lemma under_app (x : string) (a b : list (list string * option string)) :
  under x (a ++ b) = under x a ++ under x b.
Proof.
  apply flat_map_app.
Qed.

Lemma under_leaves (x : string) (n : TreeNode) :
  under x (leaves n) =
  if String.eqb (name n) x then
    match type n with
    | blob => [([], sha n)]
    | tree => forestLeaves (children n)
    end
  else [].
Proof.
  rewrite leaves_unfold. destruct (type n).
  - unfold under. cbn [flat_map fst snd].
    destruct (String.eqb (name n) x); reflexivity.
  - unfold under.
    induction (forestLeaves (children n)) as [| [p s] ls IH].
    + destruct (String.eqb (name n) x); reflexivity.
    + cbn [map flat_map fst snd]. rewrite IH.
      destruct (String.eqb (name n) x); reflexivity.
Qed.

Lemma under_absent (x : string) (nodes : list TreeNode) :
  ~ In x (map name nodes) -> under x (forestLeaves nodes) = [].
Proof.
  induction nodes as [| n rest IH]; intros Hx; [reflexivity|].
  rewrite forestLeaves_cons, under_app, under_leaves.
  cbn [map In] in Hx.
  destruct (String.eqb_spec (name n) x) as [Heq | _]; [tauto|].
  apply IH. tauto.
Qed.

(** Among siblings with distinct names, the leaves that start with a
    node's name are that node's. *)
Lemma under_forest (nodes : list TreeNode) (n : TreeNode) :
  NoDup (map name nodes) -> In n nodes ->
  under (name n) (forestLeaves nodes) =
  match type n with
  | blob => [([], sha n)]
  | tree => forestLeaves (children n)
  end.
Proof.
  induction nodes as [| m rest IH]; intros Hnd Hn; [destruct Hn|].
  cbn [map] in Hnd. apply NoDup_cons_iff in Hnd. destruct Hnd as [Hm Hnd].
  rewrite forestLeaves_cons, under_app, under_leaves.
  destruct Hn as [-> | Hn].
  - rewrite String.eqb_refl, (under_absent _ _ Hm). apply app_nil_r.
  - destruct (String.eqb_spec (name m) (name n)) as [Heq | _].
    + exfalso. apply Hm. rewrite Heq. apply in_map. exact Hn.
    + apply IH; assumption.
Qed.

Lemma under_Permutation (x : string)
    (a b : list (list string * option string)) :
  Permutation a b -> Permutation (under x a) (under x b).
Proof.
  apply Permutation_flat_map.
Qed.

Lemma NoDup_map_injective {A B : Type} (f : A -> B) (l : list A) (a b : A) :
  NoDup (map f l) -> In a l -> In b l -> f a = f b -> a = b.
Proof.
  induction l as [| x l IH]; intros Hnd Ha Hb Heq; [destruct Ha|].
  cbn [map] in Hnd. apply NoDup_cons_iff in Hnd. destruct Hnd as [Hx Hnd].
  destruct Ha as [-> | Ha], Hb as [-> | Hb].
  - reflexivity.
  - exfalso. apply Hx. rewrite Heq. apply in_map. exact Hb.
  - exfalso. apply Hx. rewrite <- Heq. apply in_map. exact Ha.
  - apply IH; assumption.
Qed.

(** Two trees with the same files have nodes of the same names. *)
Lemma same_leaves_same_names (prefix : list string)
    (nodes nodes' : list TreeNode) (n : TreeNode) :
  WellFormed prefix nodes ->
  Permutation (forestLeaves nodes) (forestLeaves nodes') ->
  In n nodes -> exists n', In n' nodes' /\ name n' = name n.
Proof.
  intros Hwf Hperm Hn.
  destruct (WellFormed_node_leaf _ _ _ Hwf Hn) as (l & Hl).
  pose proof (in_leaves_node _ _ _ Hn Hl) as Hin.
  apply (Permutation_in _ Hperm) in Hin.
  apply in_flat_map in Hin. destruct Hin as (n' & Hn' & Hl').
  apply in_leaves_head in Hl. apply in_leaves_head in Hl'.
  destruct Hl as (t & Ht). destruct Hl' as (t' & Ht').
  exists n'. split; [exact Hn' | congruence].
Qed.

Lemma StronglySorted_unique {A : Type} (R : A -> A -> Prop) :
  forall l l' : list A,
    StronglySorted R l -> StronglySorted R l' -> Permutation l l' ->
    (forall a b, In a l -> In b l -> R a b -> R b a -> a = b) ->
    l = l'.
Proof.
  induction l as [| x t IH]; intros l' Hs Hs' Hperm Hanti.
  - apply Permutation_nil in Hperm. congruence.
  - destruct l' as [| y t'].
    + symmetry in Hperm. apply Permutation_nil in Hperm. discriminate.
    + inversion Hs as [| ? ? Hst Hx]; subst.
      inversion Hs' as [| ? ? Hst' Hy]; subst.
      rewrite Forall_forall in Hx, Hy.
      assert (Hxy : x = y).
      { assert (Hx' : In x (y :: t'))
          by (apply (Permutation_in _ Hperm); left; reflexivity).
        assert (Hy' : In y (x :: t))
          by (apply (Permutation_in _ (Permutation_sym Hperm));
              left; reflexivity).
        destruct Hx' as [-> | Hx']; [reflexivity|].
        destruct Hy' as [-> | Hy']; [reflexivity|].
        apply Hanti; [left; reflexivity | right; exact Hy' | |].
        - apply Hx. exact Hy'.
        - apply Hy. exact Hx'. }
      subst y. f_equal. apply IH; try assumption.
      * apply Permutation_cons_inv in Hperm. exact Hperm.
      * intros a b Ha Hb. apply Hanti; right; assumption.
Qed.

Lemma conflictFree_Permutation (l l' : list GitHubFile) :
  Permutation l l' -> conflictFree l = true -> conflictFree l' = true.
Proof.
  induction 1 as [| x l l' Hperm IH | x y l | l l' l'' _ IH1 _ IH2];
    intros Hcf.
  - reflexivity.
  - cbn [conflictFree] in *. apply andb_true_iff in Hcf.
    destruct Hcf as [Hx Hl]. apply andb_true_iff. split; [|apply IH, Hl].
    rewrite forallb_forall in *. intros g Hg. apply Hx.
    apply (Permutation_in _ (Permutation_sym Hperm)). exact Hg.
  - cbn [conflictFree forallb] in *.
    rewrite (independent_sym (segments x) (segments y)).
    destruct (independent (segments y) (segments x)),
      (forallb (fun g => independent (segments y) (segments g)) l),
      (forallb (fun g => independent (segments x) (segments g)) l),
      (conflictFree l); cbn in *; congruence.
  - apply IH2, IH1, Hcf.
Qed.

Section OrderIndependence.

Variable localeCompare : string -> string -> Z.
Hypothesis consistent : ConsistentComparator localeCompare.

Lemma sort_unique (l l' : list TreeNode) :
  Permutation l l' ->
  (forall a b, In a l -> In b l ->
     (nodeCompare localeCompare a b <= 0)%Z ->
     (nodeCompare localeCompare b a <= 0)%Z -> a = b) ->
  sort localeCompare l = sort localeCompare l'.
Proof.
  intros Hperm Hanti.
  apply (StronglySorted_unique
           (fun a b => (nodeCompare localeCompare a b <= 0)%Z)).
  - apply sort_sorted. exact consistent.
  - apply sort_sorted. exact consistent.
  - rewrite !sort_Permutation. exact Hperm.
  - intros a b Ha Hb. apply Hanti.
    + apply (Permutation_in _ (sort_Permutation localeCompare l)). exact Ha.
    + apply (Permutation_in _ (sort_Permutation localeCompare l)). exact Hb.
Qed.

(** Two nodes that no sort can tell apart have names that compare
    equal. *)
Lemma nodeCompare_both (a b : TreeNode) :
  (nodeCompare localeCompare a b <= 0)%Z ->
  (nodeCompare localeCompare b a <= 0)%Z ->
  localeCompare (name a) (name b) = 0%Z.
Proof.
  unfold nodeCompare.
  pose proof (cmp_flip _ consistent (name a) (name b)).
  destruct (type a), (type b); lia.
Qed.

(** Two matching nodes of two trees with the same files agree on
    everything but the order of what is below them. *)
Lemma matching_nodes (prefix : list string) (nodes nodes' : list TreeNode)
    (n n' : TreeNode) :
  WellFormed prefix nodes -> BlobsAreLeaves nodes ->
  WellFormed prefix nodes' -> BlobsAreLeaves nodes' ->
  Permutation (forestLeaves nodes) (forestLeaves nodes') ->
  In n nodes -> In n' nodes' -> name n = name n' ->
  path n = path n' /\ type n = type n' /\ sha n = sha n'
  /\ match type n with
     | blob => children n = [] /\ children n' = []
     | tree =>
         Permutation (forestLeaves (children n)) (forestLeaves (children n'))
     end.
Proof.
  intros Hwf Hbl Hwf' Hbl' Hperm Hn Hn' Hname.
  inversion Hwf as [? ? Hnd Hprops Hkids]; subst.
  inversion Hwf' as [? ? Hnd' Hprops' Hkids']; subst.
  inversion Hbl as [? Hblob _]; subst.
  inversion Hbl' as [? Hblob' _]; subst.
  destruct (Hprops n Hn) as (Hpath & _ & Htree).
  destruct (Hprops' n' Hn') as (Hpath' & _ & Htree').
  pose proof (under_Permutation (name n) _ _ Hperm) as Hu.
  rewrite (under_forest _ _ Hnd Hn) in Hu.
  rewrite Hname, (under_forest _ _ Hnd' Hn') in Hu.
  split; [rewrite Hpath, Hpath', Hname; reflexivity|].
  destruct (type n) eqn:Hty, (type n') eqn:Hty'.
  - apply Permutation_length_1 in Hu. injection Hu as Hsha.
    repeat split; auto.
  - exfalso.
    assert (Hin : In ([], sha n) (forestLeaves (children n'))).
    { apply (Permutation_in _ Hu). left. reflexivity. }
    apply leaf_path_nonempty in Hin. apply Hin. reflexivity.
  - exfalso.
    assert (Hin : In ([], sha n') (forestLeaves (children n))).
    { apply (Permutation_in _ (Permutation_sym Hu)). left. reflexivity. }
    apply leaf_path_nonempty in Hin. apply Hin. reflexivity.
  - destruct (Htree eq_refl) as [-> _]. destruct (Htree' eq_refl) as [-> _].
    repeat split; auto.
Qed.

(** The sorted form of a tree whose blobs are leaves depends only on
    the files it stands for, as long as [localeCompare] tells their
    names apart. *)
Lemma sortNodes_determined (prefix : list string) (nodes : list TreeNode) :
  WellFormed prefix nodes ->
  forall nodes',
    BlobsAreLeaves nodes ->
    WellFormed prefix nodes' -> BlobsAreLeaves nodes' ->
    Permutation (forestLeaves nodes) (forestLeaves nodes') ->
    (forall a b,
       In a (flat_map fst (forestLeaves nodes)) ->
       In b (flat_map fst (forestLeaves nodes)) ->
       localeCompare a b = 0%Z -> a = b) ->
    sortNodes localeCompare nodes = sortNodes localeCompare nodes'.
Proof.
  induction 1 as [prefix nodes Hnd Hprops Hkids IH].
  intros nodes' Hbl Hwf' Hbl' Hperm Hsep.
  assert (Hwf : WellFormed prefix nodes) by (constructor; assumption).
  inversion Hwf' as [? ? Hnd' Hprops' Hkids']; subst.
  inversion Hbl as [? Hblob Hbkids]; subst.
  inversion Hbl' as [? Hblob' Hbkids']; subst.
  assert (Hmatch : forall n n',
             In n nodes -> In n' nodes' -> name n = name n' ->
             sortNode localeCompare n = sortNode localeCompare n').
  { intros n n' Hn Hn' Hname.
    destruct (matching_nodes prefix nodes nodes' n n'
                Hwf Hbl Hwf' Hbl' Hperm Hn Hn' Hname)
      as (Hpath & Hty & Hsha & Hch).
    destruct (type n) eqn:Htn.
    - destruct Hch as [Hc Hc'].
      destruct n as [nm p ty cs s], n' as [nm' p' ty' cs' s'].
      cbn in *. subst. reflexivity.
    - assert (Hkidseq : sortNodes localeCompare (children n)
                        = sortNodes localeCompare (children n')).
      { apply (IH n Hn).
        - apply Hbkids. exact Hn.
        - rewrite Hname. apply Hkids'. exact Hn'.
        - apply Hbkids'. exact Hn'.
        - exact Hch.
        - assert (Hsub : forall a,
                     In a (flat_map fst (forestLeaves (children n))) ->
                     In a (flat_map fst (forestLeaves nodes))).
          { intros a Ha. apply in_flat_map in Ha.
            destruct Ha as (l & Hl & Ha).
            apply in_flat_map. exists (name n :: fst l, snd l). split.
            - apply (in_leaves_node n); [exact Hn|].
              rewrite leaves_unfold, Htn. apply in_map_iff. eauto.
            - right. exact Ha. }
          intros a b Ha Hb. apply Hsep; apply Hsub; assumption. }
      destruct n as [nm p ty cs s], n' as [nm' p' ty' cs' s'].
      cbn in *. subst. unfold sortNodes in Hkidseq. cbn [sortNode type].
      unfold withChildren. cbn. rewrite Hkidseq. reflexivity. }
  unfold sortNodes. apply sort_unique.
  - apply NoDup_Permutation.
    + apply (NoDup_map_inv name). rewrite map_map.
      erewrite map_ext; [exact Hnd|].
      intros n. apply sortNode_keys.
    + apply (NoDup_map_inv name). rewrite map_map.
      erewrite map_ext; [exact Hnd'|].
      intros n. apply sortNode_keys.
    + intros x. split; intros Hx; apply in_map_iff in Hx;
        destruct Hx as (n & <- & Hn).
      * destruct (same_leaves_same_names prefix nodes nodes' n Hwf Hperm Hn)
          as (n' & Hn' & Hname).
        rewrite (Hmatch n n' Hn Hn' (eq_sym Hname)). apply in_map. exact Hn'.
      * destruct (same_leaves_same_names prefix nodes' nodes n Hwf'
                    (Permutation_sym Hperm) Hn) as (n' & Hn' & Hname).
        rewrite <- (Hmatch n' n Hn' Hn Hname). apply in_map. exact Hn'.
  - intros a b Ha Hb Hab Hba.
    apply in_map_iff in Ha. destruct Ha as (n & <- & Hn).
    apply in_map_iff in Hb. destruct Hb as (m & <- & Hm).
    pose proof (nodeCompare_both _ _ Hab Hba) as Hzero.
    destruct (sortNode_keys localeCompare n) as [_ Hkn].
    destruct (sortNode_keys localeCompare m) as [_ Hkm].
    rewrite Hkn, Hkm in Hzero.
    assert (Hhead : forall k, In k nodes ->
                              In (name k) (flat_map fst (forestLeaves nodes))).
    { intros k Hk. destruct (WellFormed_node_leaf _ _ _ Hwf Hk) as (l & Hl).
      apply in_flat_map. exists l. split.
      - apply (in_leaves_node k); assumption.
      - apply in_leaves_head in Hl. destruct Hl as (t & ->). left. reflexivity. }
    apply Hsep in Hzero; [| apply Hhead; exact Hn | apply Hhead; exact Hm].
    rewrite (NoDup_map_injective name nodes n m Hnd Hn Hm Hzero). reflexivity.
Qed.

(** C3 (as the code has it).  For descriptors none of whose paths is
    another's path or a directory of it, and whose path names
    [localeCompare] tells apart, [buildFileTree] returns the same tree
    for every order of the input. *)
Theorem buildFileTree_order_independent (files files' : list GitHubFile) :
  Permutation files files' ->
  conflictFree files = true ->
  namesSeparated localeCompare files ->
  buildFileTree localeCompare files = buildFileTree localeCompare files'.
Proof.
  intros Hperm Hcf Hsep.
  pose proof (conflictFree_Permutation _ _ Hperm Hcf) as Hcf'.
  destruct (fold_insertFile_leaves files [] (WellFormed_nil [])
              BlobsAreLeaves_nil Hcf) as [Hbl Hp]; [intros f l _ []|].
  destruct (fold_insertFile_leaves files' [] (WellFormed_nil [])
              BlobsAreLeaves_nil Hcf') as [Hbl' Hp']; [intros f l _ []|].
  cbn [forestLeaves flat_map List.app] in Hp, Hp'.
  unfold buildFileTree.
  apply (sortNodes_determined []).
  - apply fold_insertFile_WellFormed, WellFormed_nil.
  - exact Hbl.
  - apply fold_insertFile_WellFormed, WellFormed_nil.
  - exact Hbl'.
  - rewrite Hp, Hp'. apply Permutation_map. exact Hperm.
  - assert (Hsegs : forall a,
               In a (flat_map fst (forestLeaves (fold_left insertFile files [])))
               -> In a (flat_map segments files)).
    { intros a Ha.
      apply (Permutation_in _ (Permutation_flat_map fst Hp)) in Ha.
      rewrite flat_map_concat_map, map_map, <- flat_map_concat_map in Ha.
      exact Ha. }
    intros a b Ha Hb. apply Hsep; apply Hsegs; assumption.
Qed.

End OrderIndependence.

(* ================================================================== *)
(** * Distinct paths *)
(* ================================================================== *)

Lemma leaf_segments_no_separator (prefix : list string)
    (nodes : list TreeNode) :
  WellFormed prefix nodes ->
  forall l, In l (forestLeaves nodes) ->
            Forall (fun seg => hasChar "/" seg = false) (fst l).
Proof.
  induction 1 as [prefix nodes Hnd Hprops Hkids IH]. intros l Hl.
  apply in_flat_map in Hl. destruct Hl as (n & Hn & Hl).
  destruct (Hprops n Hn) as (_ & Hname & _).
  rewrite leaves_unfold in Hl. destruct (type n).
  - destruct Hl as [<- | []]. repeat constructor. exact Hname.
  - apply in_map_iff in Hl. destruct Hl as (l' & <- & Hl').
    constructor; [exact Hname | apply (IH n Hn), Hl'].
Qed.

Lemma NoDup_map_injective_on {A B : Type} (f : A -> B) (l : list A) :
  NoDup l ->
  (forall x y, In x l -> In y l -> f x = f y -> x = y) ->
  NoDup (map f l).
Proof.
  induction 1 as [| x l Hx Hnd IH]; intros Hinj; cbn [map]; constructor.
  - intros Hin. apply in_map_iff in Hin. destruct Hin as (y & Heq & Hy).
    apply Hx. rewrite <- (Hinj y x); [exact Hy | right; exact Hy
                                      | left; reflexivity | exact Heq].
  - apply IH. intros a b Ha Hb. apply Hinj; right; assumption.
Qed.

Lemma forestLeaves_NoDup_step (nodes : list TreeNode) :
  NoDup (map name nodes) ->
  (forall n, In n nodes -> NoDup (map fst (forestLeaves (children n)))) ->
  NoDup (map fst (forestLeaves nodes)).
Proof.
  induction nodes as [| n rest IH]; intros Hnd Hkids; [constructor|].
  cbn [map] in Hnd. apply NoDup_cons_iff in Hnd. destruct Hnd as [Hn Hnd].
  rewrite forestLeaves_cons, map_app. apply NoDup_app.
  - rewrite leaves_unfold. destruct (type n).
    + repeat constructor. intros [].
    + rewrite map_map. cbn [fst].
      rewrite <- (map_map fst (cons (name n))).
      apply NoDup_map_injective_on.
      * apply Hkids. left. reflexivity.
      * intros x y _ _ [= ->]. reflexivity.
  - apply IH; [exact Hnd|]. intros m Hm. apply Hkids. right. exact Hm.
  - intros p Hp Hq.
    apply in_map_iff in Hp. destruct Hp as (l & <- & Hl).
    apply in_map_iff in Hq. destruct Hq as (l' & Heq & Hl').
    apply in_leaves_head in Hl. destruct Hl as (t & Ht).
    apply in_flat_map in Hl'. destruct Hl' as (m & Hm & Hl').
    apply in_leaves_head in Hl'. destruct Hl' as (t' & Ht').
    apply Hn. replace (name n) with (name m) by congruence.
    apply in_map. exact Hm.
Qed.

Lemma forestLeaves_NoDup (prefix : list string) (nodes : list TreeNode) :
  WellFormed prefix nodes -> NoDup (map fst (forestLeaves nodes)).
Proof.
  induction 1 as [prefix nodes Hnd Hprops Hkids IH].
  apply forestLeaves_NoDup_step; assumption.
Qed.

(** Filtering files keeps their paths distinct. *)
Lemma filter_paths_distinct (keep : GitHubFile -> bool)
    (files : list GitHubFile) :
  NoDup (map file_path files) -> NoDup (map file_path (filter keep files)).
Proof.
  induction files as [| file files IH]; intros Hnd; [constructor|].
  cbn [map] in Hnd. apply NoDup_cons_iff in Hnd. destruct Hnd as [Hfresh Hnd].
  cbn [filter]. destruct (keep file); [|apply IH, Hnd].
  cbn [map]. constructor; [|apply IH, Hnd].
  intros Hin. apply Hfresh. apply in_map_iff in Hin.
  destruct Hin as (other & Heq & Hother). apply filter_In in Hother.
  rewrite <- Heq. apply in_map. tauto.
Qed.

(** The files collected from a well-formed tree have distinct paths. *)
Lemma collectFiles_paths_distinct (nodes : list TreeNode) :
  WellFormed [] nodes -> NoDup (map file_path (collectFiles nodes)).
Proof.
  intros Hwf. rewrite (collectFiles_leaves [] nodes Hwf), map_map.
  unfold fileOfLeaf. cbn [file_path List.app].
  rewrite <- (map_map fst (join "/")).
  apply NoDup_map_injective_on; [apply (forestLeaves_NoDup []), Hwf|].
  intros p q Hp Hq Heq.
  apply in_map_iff in Hp. destruct Hp as (l & <- & Hl).
  apply in_map_iff in Hq. destruct Hq as (l' & <- & Hl').
  rewrite <- (split_join (fst l)), <- (split_join (fst l')).
  - rewrite Heq. reflexivity.
  - apply (leaf_path_nonempty nodes), Hl'.
  - apply (leaf_segments_no_separator [] nodes Hwf), Hl'.
  - apply (leaf_path_nonempty nodes), Hl.
  - apply (leaf_segments_no_separator [] nodes Hwf), Hl.
Qed.

(** Whatever the descriptors, the files a batch review takes from the
    tree [buildFileTree] made of them have distinct paths. *)
Lemma buildFileTree_paths_distinct (localeCompare : string -> string -> Z)
    (allowList : list string) (files : list GitHubFile) :
  NoDup (map file_path
           (filesToReview allowList (buildFileTree localeCompare files))).
Proof.
  unfold filesToReview. apply filter_paths_distinct.
  unfold buildFileTree.
  apply (Permutation_NoDup
           (Permutation_sym
              (Permutation_map file_path
                 (collectFiles_sortNodes localeCompare _)))).
  apply collectFiles_paths_distinct.
  apply fold_insertFile_WellFormed, WellFormed_nil.
Qed.

(* ================================================================== *)
(** * What the hypotheses of the tree theorems are for *)
(* ================================================================== *)

(** Sorting keeps childless blobs childless, so on conflict-free input
    the ordering holds below every node. *)
Lemma sortNodes_ordered_everywhere (localeCompare : string -> string -> Z)
    (nodes : list TreeNode) :
  ConsistentComparator localeCompare ->
  BlobsAreLeaves nodes ->
  OrderedForest localeCompare (fun _ => True)
                (sortNodes localeCompare nodes).
Proof.
  intros Hcons. induction 1 as [nodes Hblob Hkids IH].
  constructor.
  - apply sorted_siblingsOrdered, sort_sorted. exact Hcons.
  - intros m Hm _.
    apply (Permutation_in _ (sort_Permutation _ _)) in Hm.
    apply in_map_iff in Hm. destruct Hm as (c & <- & Hc).
    rewrite sortNode_children. destruct (type c) eqn:Hty.
    + rewrite (Hblob c Hc Hty). constructor; [|intros ? []].
      intros i j a b _ Ha. destruct i; discriminate.
    + apply IH. exact Hc.
Qed.

(** On conflict-free paths and with a consistent [localeCompare], the
    siblings are ordered below every node of the tree [buildFileTree]
    returns, folders before files and each group by name. *)
Lemma buildFileTree_ordered_everywhere
    (localeCompare : string -> string -> Z) (files : list GitHubFile) :
  ConsistentComparator localeCompare ->
  conflictFree files = true ->
  OrderedForest localeCompare (fun _ => True)
                (buildFileTree localeCompare files).
Proof.
  intros Hcons Hcf. unfold buildFileTree.
  apply sortNodes_ordered_everywhere; [exact Hcons|].
  destruct (fold_insertFile_leaves files [] (WellFormed_nil [])
              BlobsAreLeaves_nil Hcf) as [Hbl _]; [intros f l _ []|].
  exact Hbl.
Qed.

(* ================================================================== *)
(** * The sample comparator *)
(* ================================================================== *)

Lemma codeUnitCompare_consistent : ConsistentComparator codeUnitCompare.
Proof.
  split.
  - intros a b. unfold codeUnitCompare.
    rewrite (String_as_OT.cmp_antisym a b).
    destruct (String_as_OT.cmp b a); cbn [CompOpp]; lia.
  - intros a b c. unfold codeUnitCompare.
    destruct (String_as_OT.cmp a b) eqn:Hab; [| |lia].
    + apply String_as_OT.cmp_eq in Hab. subst b. auto.
    + destruct (String_as_OT.cmp b c) eqn:Hbc; [| |lia].
      * apply String_as_OT.cmp_eq in Hbc. subst c. rewrite Hab. lia.
      * apply String_as_OT.cmp_lt in Hab, Hbc.
        pose proof (String_as_OT.lt_trans _ _ _ Hab Hbc) as Hac.
        apply String_as_OT.cmp_lt in Hac. rewrite Hac. lia.
Qed.

Lemma codeUnitCompare_separates (files : list GitHubFile) :
  namesSeparated codeUnitCompare files.
Proof.
  intros a b _ _. unfold codeUnitCompare.
  destruct (String_as_OT.cmp a b) eqn:Hab; try discriminate.
  intros _. apply String_as_OT.cmp_eq. exact Hab.
Qed.

(* ================================================================== *)
(** * The theorems on the sample inputs *)
(* ================================================================== *)

Lemma handleFileSelect_same_path_noop_witness :
  selectedFile (app demoWorldKeyCleared)
    = Some (mkGitHubFile "src/a.ts" blob "s1")
  /\ handleFileSelect demoPlatform (mkGitHubFile "src/a.ts" blob "s1")
       demoWorldKeyCleared
     = (Ok tt, demoWorldKeyCleared).
Proof.
  split; [reflexivity|].
  apply (handleFileSelect_same_path_noop demoPlatform
           (mkGitHubFile "src/a.ts" blob "s1")
           (mkGitHubFile "src/a.ts" blob "s1") demoWorldKeyCleared);
    reflexivity.
Defined.

Lemma handleFileSelect_missing_credential_witness :
  apiKey (app demoWorldKeyCleared) = EmptyString
  /\ isSelected (selectedFile (app demoWorldKeyCleared))
       (mkGitHubFile "src/b.py" blob "s3") = false
  /\ exists w',
       handleFileSelect demoPlatform (mkGitHubFile "src/b.py" blob "s3")
         demoWorldKeyCleared = (Ok tt, w')
       /\ error (app w')
          = Some "Please enter your Gemini API Key to analyze files."
       /\ trace w' = trace demoWorldKeyCleared.
Proof.
  split; [reflexivity|]. split; [reflexivity|].
  destruct (handleFileSelect_missing_credential demoPlatform
              (mkGitHubFile "src/b.py" blob "s3") demoWorldKeyCleared
              "octo" "demo" eq_refl eq_refl eq_refl)
    as (w' & Hrun & Herr & Htrace & _).
  exists w'. auto.
Defined.

(** With the key field cleared, selecting the file that is already
    selected sets no missing-key message. *)
Lemma handleFileSelect_missing_credential_silent :
  apiKey (app demoWorldKeyCleared) = EmptyString
  /\ repoOwnerAndName (app demoWorldKeyCleared) = Some ("octo", "demo")
  /\ error (app (snd (handleFileSelect demoPlatform
                        (mkGitHubFile "src/a.ts" blob "s1")
                        demoWorldKeyCleared)))
     <> Some "Please enter your Gemini API Key to analyze files.".
Proof.
  split; [reflexivity|]. split; [reflexivity|].
  vm_compute. discriminate.
Qed.

Lemma handleFileSelect_fetch_failure_witness :
  fst (getFileContent demoPlatform "octo" "demo" "src/b.py" demoWorld)
    = Err "Could not retrieve file content: Failed to fetch file content for src/b.py. Status: 404"
  /\ exists w',
       handleFileSelect demoPlatform (mkGitHubFile "src/b.py" blob "s3")
         demoWorld = (Ok tt, w')
       /\ reviewCalls (trace w') = reviewCalls (trace demoWorld)
       /\ error (app w')
          = Some "Could not retrieve file content: Failed to fetch file content for src/b.py. Status: 404"
       /\ review (app w') = None.
Proof.
  split; [vm_compute; reflexivity|].
  destruct (handleFileSelect_fetch_failure demoPlatform
              (mkGitHubFile "src/b.py" blob "s3") demoWorld "octo" "demo"
              "Could not retrieve file content: Failed to fetch file content for src/b.py. Status: 404")
    as (w' & Hrun & Hcalls & _ & Herr & Hrev & _).
  - reflexivity.
  - reflexivity.
  - reflexivity.
  - vm_compute. reflexivity.
  - exists w'. auto.
Defined.

Lemma analyzeRepo_no_reviewable_files_witness :
  filesToReview SOURCE_CODE_EXTENSIONS (fileTree (app demoWorldDocsOnly)) = []
  /\ exists w',
       handleAnalyzeRepo demoPlatform demoWorldDocsOnly = (Ok tt, w')
       /\ error (app w')
          = Some "No reviewable source code files found in this repository."
       /\ trace w' = trace demoWorldDocsOnly.
Proof.
  split; [vm_compute; reflexivity|].
  destruct (analyzeRepo_no_reviewable_files demoPlatform
              SOURCE_CODE_EXTENSIONS demoWorldDocsOnly "octo" "docs")
    as (w' & Hrun & Herr & _ & _ & Htrace & _).
  - reflexivity.
  - reflexivity.
  - vm_compute. reflexivity.
  - exists w'. auto.
Defined.

Lemma analyzeRepo_absorbs_failures_witness :
  List.length
    (filesToReview SOURCE_CODE_EXTENSIONS (fileTree (app demoWorld))) = 2
  /\ exists w' results,
       handleAnalyzeRepo demoPlatform demoWorld = (Ok tt, w')
       /\ error (app w') = None
       /\ repoReviewResults (app w') = Some results
       /\ results !! "src/a.ts" = Some demoReview
       /\ results !! "src/b.py" = None
       /\ size results = 1.
Proof.
  split; [vm_compute; reflexivity|].
  destruct (analyzeRepo_absorbs_failures demoPlatform
              SOURCE_CODE_EXTENSIONS demoWorld "octo" "demo")
    as (w' & results & Hrun & Herr & _ & Hres & Hin & _ & Hsize & _).
  - reflexivity.
  - reflexivity.
  - vm_compute. discriminate.
  - vm_compute. repeat constructor; cbn [In]; intuition discriminate.
  - exists w', results.
    split; [exact Hrun|]. split; [exact Herr|]. split; [exact Hres|].
    split.
    { apply (Hin (mkGitHubFile "src/a.ts" blob "s1")).
      vm_compute. left. reflexivity. }
    split.
    { apply (Hin (mkGitHubFile "src/b.py" blob "s3")).
      vm_compute. right. left. reflexivity. }
    rewrite Hsize. vm_compute. reflexivity.
Defined.

(** A batch of two files ends with the progress cell cleared, not at
    [2/2]. *)
Lemma analyzeRepo_final_progress_cleared :
  List.length
    (filesToReview SOURCE_CODE_EXTENSIONS (fileTree (app demoWorld))) = 2
  /\ reviewProgress (app (snd (handleAnalyzeRepo demoPlatform demoWorld)))
     <> Some {| processed := 2; total := 2 |}.
Proof.
  split; [vm_compute; reflexivity|].
  vm_compute. discriminate.
Qed.

Lemma batch_filter_by_final_extension_witness :
  hasChar "." (finalSegment "docs/Makefile") = false
  /\ ~ In (mkGitHubFile "docs/Makefile" blob "s4")
          (filesToReview SOURCE_CODE_EXTENSIONS
             (fileTree (app demoWorldDocsOnly)))
  /\ In (mkGitHubFile "src/a.ts" blob "s1")
        (filesToReview SOURCE_CODE_EXTENSIONS (fileTree (app demoWorld))).
Proof.
  split; [reflexivity|]. split.
  - apply (proj2 (batch_filter_by_final_extension
                    (fileTree (app demoWorldDocsOnly))
                    (mkGitHubFile "docs/Makefile" blob "s4"))).
    reflexivity.
  - apply (proj1 (batch_filter_by_final_extension
                    (fileTree (app demoWorld))
                    (mkGitHubFile "src/a.ts" blob "s1"))).
    split.
    + vm_compute. left. reflexivity.
    + exists ".ts". split; [reflexivity|].
      vm_compute. right. right. left. reflexivity.
Defined.

Lemma getRepoTree_stable_partition_witness :
  exists files w',
    getRepoTree demoPlatform "octo" "demo" demoWorld = (Ok files, w')
    /\ map file_path files = ["src/a.ts"; "src/b.py"; "readme.md"]
    /\ app w' = app demoWorld
    /\ StablePartition demoListing files.
Proof.
  destruct (getRepoTree_stable_partition demoPlatform "octo" "demo" demoWorld
              (mkResponse true 200 (Ok {| default_branch := "main" |}))
              {| default_branch := "main" |}
              (mkResponse true 200
                 (Ok {| tree_sha := "t"; tree_url := "u";
                        tree_items := demoListing; truncated := false |}))
              {| tree_sha := "t"; tree_url := "u";
                 tree_items := demoListing; truncated := false |})
    as (files & w' & Hrun & Happ & Hpartition); try reflexivity.
  exists files, w'. split; [exact Hrun|].
  split; [|split; [exact Happ | exact Hpartition]].
  assert (Hfiles : fst (getRepoTree demoPlatform "octo" "demo" demoWorld) =
                   Ok files) by (rewrite Hrun; reflexivity).
  vm_compute in Hfiles. injection Hfiles as <-. reflexivity.
Defined.

Lemma buildFileTree_siblings_ordered_witness :
  ConsistentComparator codeUnitCompare
  /\ OrderedForest codeUnitCompare (fun n => type n = tree)
       (buildFileTree codeUnitCompare demoFiles).
Proof.
  split; [exact codeUnitCompare_consistent|].
  apply (buildFileTree_siblings_ordered codeUnitCompare
           codeUnitCompare_consistent demoFiles).
Defined.

(** Under a blob that a later path runs through, a blob comes before a
    tree. *)
Lemma buildFileTree_unordered_below_blob :
  NoDup (map file_path nestedUnderBlob)
  /\ ~ OrderedForest codeUnitCompare (fun _ => True)
         (buildFileTree codeUnitCompare nestedUnderBlob).
Proof.
  split.
  { vm_compute. repeat constructor; cbn [In]; intuition discriminate. }
  intros H.
  inversion H as [nodes _ Hkids Hnodes]; subst nodes.
  specialize (Hkids
    {| name := "a"; path := "a"; type := blob;
       children :=
         [ {| name := "x"; path := "a/x"; type := blob; children := [];
              sha := Some "s2" |};
           {| name := "y"; path := "a/y"; type := tree;
              children :=
                [ {| name := "z"; path := "a/y/z"; type := blob;
                     children := []; sha := Some "s3" |} ];
              sha := None |} ];
       sha := Some "s1" |}).
  cbn [children] in Hkids.
  assert (Hin : In
    {| name := "a"; path := "a"; type := blob;
       children :=
         [ {| name := "x"; path := "a/x"; type := blob; children := [];
              sha := Some "s2" |};
           {| name := "y"; path := "a/y"; type := tree;
              children :=
                [ {| name := "z"; path := "a/y/z"; type := blob;
                     children := []; sha := Some "s3" |} ];
              sha := None |} ];
       sha := Some "s1" |}
    (buildFileTree codeUnitCompare nestedUnderBlob)).
  { vm_compute. left. reflexivity. }
  specialize (Hkids Hin I).
  inversion Hkids as [nodes Hsib _ Hnodes]; subst nodes.
  destruct (Hsib 0 1 _ _ (Nat.lt_0_succ 0) eq_refl eq_refl) as [Hblob _].
  specialize (Hblob eq_refl). discriminate.
Qed.

Lemma buildFileTree_leaves_are_files_witness :
  conflictFree demoFiles = true
  /\ Permutation (collectFiles (buildFileTree codeUnitCompare demoFiles))
                 demoFiles
  /\ List.length (collectFiles (buildFileTree codeUnitCompare demoFiles)) = 3.
Proof.
  split; [reflexivity|].
  destruct (buildFileTree_leaves_are_files codeUnitCompare demoFiles)
    as (Hperm & Hlen & _).
  - reflexivity.
  - repeat constructor.
  - split; [exact Hperm | exact Hlen].
Defined.

(** Two descriptors with distinct paths, one a directory of the other,
    leave a single blob leaf. *)
Lemma buildFileTree_loses_clashing_file :
  NoDup (map file_path clashingFiles)
  /\ Forall (fun f => file_type f = blob) clashingFiles
  /\ List.length (collectFiles (buildFileTree codeUnitCompare clashingFiles))
     <> List.length clashingFiles.
Proof.
  split.
  { vm_compute. repeat constructor; cbn [In]; intuition discriminate. }
  split; [repeat constructor|].
  vm_compute. discriminate.
Qed.

Lemma buildFileTree_order_independent_witness :
  Permutation demoFiles demoFilesSwapped
  /\ conflictFree demoFiles = true
  /\ buildFileTree codeUnitCompare demoFiles
     = buildFileTree codeUnitCompare demoFilesSwapped.
Proof.
  assert (Hperm : Permutation demoFiles demoFilesSwapped)
    by apply perm_swap.
  split; [exact Hperm|]. split; [reflexivity|].
  apply (buildFileTree_order_independent codeUnitCompare
           codeUnitCompare_consistent demoFiles demoFilesSwapped Hperm).
  - reflexivity.
  - apply codeUnitCompare_separates.
Defined.

(** The same two descriptors in the two orders give two trees. *)
Lemma buildFileTree_order_matters_on_clash :
  Permutation clashingFiles clashingFilesSwapped
  /\ buildFileTree codeUnitCompare clashingFiles
     <> buildFileTree codeUnitCompare clashingFilesSwapped.
Proof.
  split; [apply perm_swap|].
  vm_compute. discriminate.
Qed.

(** A consistent comparator that ties two different names lets the
    input order through: the sort is stable. *)
Lemma buildFileTree_order_matters_on_ties :
  ConsistentComparator (fun _ _ => 0%Z)
  /\ conflictFree siblingFiles = true
  /\ buildFileTree (fun _ _ => 0%Z) siblingFiles
     <> buildFileTree (fun _ _ => 0%Z) (rev siblingFiles).
Proof.
  split; [split; intros; lia|].
  split; [reflexivity|].
  vm_compute. discriminate.
Qed.

(* ================================================================== *)
(** * The review service: [reviewCode] *)
(* ================================================================== *)

Section ReviewService.

Variable env : Platform.

(** Whatever goes wrong, [reviewCode] throws one of three fixed
    messages: the missing-key one exactly when the key is empty, and
    otherwise the invalid-key or the generic one; what the backend or
    the parser said reaches the console only. *)
Theorem reviewCode_failure_messages
    (fileName code key message : string) (w : World) :
  fst (reviewCode env fileName code key w) = Err message ->
  (truthy key = false
   /\ message =
      "Gemini API Key is missing. Please provide it before running an analysis.")
  \/ (truthy key = true
      /\ (message =
          "Invalid Gemini API Key. Please check your key and try again."
          \/ message =
             "Failed to get code review from Gemini. Please check the console for more details.")).
Proof.
  unfold reviewCode. destruct (truthy key); cbn [negb].
  - unfold tryCatch, bind, emit, liftResult, throw, ret.
    cbn [app trace fst snd].
    intros H. right. split; [reflexivity|].
    destruct (generateContent env key fileName code) as [text | e];
      cbn [fst snd] in H.
    + destruct (JSON_parse env (trim env text)) as [r | e]; cbn [fst snd] in H;
        [discriminate|].
      destruct (includes e "API key not valid" || includes e "API_KEY_INVALID");
        cbn [fst] in H; injection H as <-; auto.
    + destruct (includes e "API key not valid" || includes e "API_KEY_INVALID");
        cbn [fst] in H; injection H as <-; auto.
  - unfold throw. cbn [fst]. intros [= <-]. left. auto.
Qed.

(** [reviewCode] asks the backend once when it has a key and not at all
    when it has none; it never touches the state cells. *)
Theorem reviewCode_requests (fileName code key : string) (w : World) :
  app (snd (reviewCode env fileName code key w)) = app w
  /\ reviewCalls (trace (snd (reviewCode env fileName code key w))) =
     reviewCalls (trace w)
     ++ (if truthy key then [GenerateContent fileName code] else [])
  /\ contentCalls (trace (snd (reviewCode env fileName code key w))) =
     contentCalls (trace w).
Proof.
  unfold reviewCode. destruct (truthy key); cbn [negb].
  - unfold tryCatch, bind, emit, liftResult, throw, ret.
    cbn [app trace fst snd].
    destruct (generateContent env key fileName code) as [text | e];
      cbn [fst snd app trace].
    + destruct (JSON_parse env (trim env text)) as [r | e];
        cbn [fst snd app trace].
      * unfold reviewCalls, contentCalls. rewrite !filter_app.
        cbn [filter]. rewrite app_nil_r. auto.
      * destruct (includes e "API key not valid" || includes e "API_KEY_INVALID");
          cbn [fst snd app trace]; unfold reviewCalls, contentCalls;
          rewrite !filter_app; cbn [filter]; rewrite !app_nil_r; auto.
    + destruct (includes e "API key not valid" || includes e "API_KEY_INVALID");
        cbn [fst snd app trace]; unfold reviewCalls, contentCalls;
        rewrite !filter_app; cbn [filter]; rewrite !app_nil_r; auto.
  - unfold throw. cbn [snd]. rewrite app_nil_r. auto.
Qed.

(** With a key, [reviewCode] returns a review exactly when the backend
    answers and its trimmed text parses, and the review is that parse. *)
Theorem reviewCode_success_iff
    (fileName code key : string) (r : ReviewResult) (w : World) :
  truthy key = true ->
  fst (reviewCode env fileName code key w) = Ok r <->
  exists text,
    generateContent env key fileName code = Ok text
    /\ JSON_parse env (trim env text) = Ok r.
Proof.
  intros Hkey. unfold reviewCode. rewrite Hkey. cbn [negb].
  unfold tryCatch, bind, emit, liftResult, throw, ret.
  cbn [app trace fst snd].
  destruct (generateContent env key fileName code) as [text | e];
    cbn [fst snd].
  - destruct (JSON_parse env (trim env text)) as [r' | e] eqn:Hparse;
      cbn [fst snd].
    + split.
      * intros [= <-]. exists text. auto.
      * intros (text' & [= <-] & Hp). congruence.
    + split.
      * destruct (includes e "API key not valid" || includes e "API_KEY_INVALID");
          cbn [fst]; discriminate.
      * intros (text' & [= <-] & Hp). congruence.
  - split.
    + destruct (includes e "API key not valid" || includes e "API_KEY_INVALID");
        cbn [fst]; discriminate.
    + intros (text' & Hg & _). discriminate.
Qed.

(** A backend failure that mentions an invalid key is reported as the
    invalid-key message. *)
Theorem reviewCode_invalid_key
    (fileName code key e : string) (w : World) :
  truthy key = true ->
  generateContent env key fileName code = Err e ->
  includes e "API key not valid" || includes e "API_KEY_INVALID" = true ->
  fst (reviewCode env fileName code key w) =
  Err "Invalid Gemini API Key. Please check your key and try again.".
Proof.
  intros Hkey Hgen Hinc. unfold reviewCode. rewrite Hkey. cbn [negb].
  unfold tryCatch, bind, emit, liftResult, throw, ret.
  cbn [app trace fst snd]. rewrite Hgen. cbn [fst snd]. rewrite Hinc.
  reflexivity.
Qed.

End ReviewService.

(* ================================================================== *)
(** * The repository service: [getFileContent], [getRepoTree] *)
(* ================================================================== *)

Section RepositoryService.

Variable env : Platform.

(** [getFileContent] returns text exactly when the request is answered
    with an ok status, a body that parses, the base64 encoding and a
    content that decodes; the text is the decoded content. *)
Theorem getFileContent_success_iff
    (owner repo p fileText : string) (w : World) :
  fst (getFileContent env owner repo p w) = Ok fileText <->
  exists res data,
    fetchContents env owner repo p = Ok res
    /\ ok res = true
    /\ json res = Ok data
    /\ encoding data = "base64"
    /\ atob env (content data) = Ok fileText.
Proof.
  unfold getFileContent, tryCatch, bind, emit, liftResult, throw, ret.
  cbn [app trace fst snd].
  destruct (fetchContents env owner repo p) as [res | e]; cbn [fst snd].
  - destruct (ok res) eqn:Hok; cbn [negb fst snd].
    + destruct (json res) as [data | e] eqn:Hjson; cbn [fst snd].
      * destruct (String.eqb (encoding data) "base64") eqn:Henc;
          cbn [fst snd].
        -- destruct (atob env (content data)) as [t | e] eqn:Hatob;
             cbn [fst snd].
           ++ split.
              ** intros [= <-]. exists res, data.
                 apply String.eqb_eq in Henc. auto.
              ** intros (res' & data' & [= <-] & _ & Hj & _ & Ha).
                 congruence.
           ++ split; [discriminate|].
              intros (res' & data' & [= <-] & _ & Hj & _ & Ha). congruence.
        -- split; [discriminate|].
           intros (res' & data' & [= <-] & _ & Hj & He & _).
           assert (data' = data) by congruence. subst data'.
           rewrite He in Henc. discriminate.
      * split; [discriminate|].
        intros (res' & data' & [= <-] & _ & Hj & _). congruence.
    + split; [discriminate|].
      intros (res' & data' & [= <-] & Hok' & _). congruence.
  - split; [discriminate|].
    intros (res' & data' & Hf & _). discriminate.
Qed.

(** Every failure of [getFileContent] is the message of its cause
    behind one fixed prefix, and the cause is logged. *)
Theorem getFileContent_failure_wrapped
    (owner repo p message : string) (w : World) :
  fst (getFileContent env owner repo p w) = Err message ->
  exists cause,
    message = ("Could not retrieve file content: " ++ cause)%string
    /\ In (ConsoleError ("GitHub API Error: " ++ cause)%string)
          (trace (snd (getFileContent env owner repo p w))).
Proof.
  unfold getFileContent, tryCatch, bind, emit, liftResult, throw, ret.
  cbn [app trace fst snd].
  destruct (fetchContents env owner repo p) as [res | e]; cbn [fst snd].
  - destruct (ok res); cbn [negb fst snd app trace].
    + destruct (json res) as [data | e]; cbn [fst snd app trace].
      * destruct (String.eqb (encoding data) "base64");
          cbn [fst snd app trace].
        -- destruct (atob env (content data)) as [t | e];
             cbn [fst snd app trace]; [discriminate|].
           intros [= <-]. eexists. split; [reflexivity|].
           apply in_or_app. right. left. reflexivity.
        -- intros [= <-]. eexists. split; [reflexivity|].
           apply in_or_app. right. left. reflexivity.
      * intros [= <-]. eexists. split; [reflexivity|].
        apply in_or_app. right. left. reflexivity.
    + intros [= <-]. eexists. split; [reflexivity|].
      apply in_or_app. right. left. reflexivity.
  - intros [= <-]. eexists. split; [reflexivity|].
    apply in_or_app. right. left. reflexivity.
Qed.

(** A status that is not ok is reported with its code, and the body is
    neither parsed nor decoded. *)
Theorem getFileContent_bad_status
    (owner repo p : string) (res : Response GithubContentResponse)
    (w : World) :
  fetchContents env owner repo p = Ok res ->
  ok res = false ->
  fst (getFileContent env owner repo p w) =
  Err ("Could not retrieve file content: Failed to fetch file content for "
       ++ p ++ ". Status: " ++ show_status (status res))%string.
Proof.
  intros Hf Hok.
  unfold getFileContent, tryCatch, bind, emit, liftResult, throw, ret.
  cbn [app trace fst snd]. rewrite Hf. cbn [fst snd]. rewrite Hok.
  reflexivity.
Qed.

(** When the repository request is rejected or answered with a status
    that is not ok, [getRepoTree] fails behind its fixed prefix and the
    tree request is never sent. *)
Theorem getRepoTree_repo_failure (owner repo : string) (w : World) :
  (forall res, fetchRepo env owner repo = Ok res -> ok res = false) ->
  exists cause,
    getRepoTree env owner repo w =
    (Err ("Could not retrieve repository files: " ++ cause)%string,
     {| app := app w;
        trace := trace w
                 ++ [FetchRepo owner repo;
                     ConsoleError ("GitHub API Error: " ++ cause)%string] |}).
Proof.
  intros Hbad.
  unfold getRepoTree, tryCatch, bind, emit, liftResult, throw, ret.
  cbn [app trace fst snd].
  destruct (fetchRepo env owner repo) as [res | e]; cbn [fst snd].
  - rewrite (Hbad res eq_refl). cbn [negb].
    destruct (Nat.eqb (status res) 404); cbn [fst snd app trace].
    + eexists. rewrite <- app_assoc. reflexivity.
    + destruct (Nat.eqb (status res) 403); cbn [fst snd app trace];
        eexists; rewrite <- app_assoc; reflexivity.
  - cbn [fst snd app trace]. eexists. rewrite <- app_assoc. reflexivity.
Qed.

(** The three ways a repository request that was answered can fail, as
    the user reads them. *)
Theorem getRepoTree_status_message
    (owner repo : string) (res : Response GithubRepoResponse) (w : World) :
  fetchRepo env owner repo = Ok res ->
  ok res = false ->
  fst (getRepoTree env owner repo w) =
  Err ("Could not retrieve repository files: "
       ++ (if Nat.eqb (status res) 404 then
             "Repository not found. Please check the URL."
           else if Nat.eqb (status res) 403 then
             "GitHub API request forbidden. The provided GITHUB_TOKEN may be invalid or lack necessary permissions."
           else
             "Failed to fetch repository data. Status: "
             ++ show_status (status res)))%string.
Proof.
  intros Hf Hok.
  unfold getRepoTree, tryCatch, bind, emit, liftResult, throw, ret.
  cbn [app trace fst snd]. rewrite Hf. cbn [fst snd]. rewrite Hok.
  cbn [negb].
  destruct (Nat.eqb (status res) 404); cbn [fst snd]; [reflexivity|].
  destruct (Nat.eqb (status res) 403); reflexivity.
Qed.


End RepositoryService.

(* ================================================================== *)
(** * The tree builder on every input *)
(* ================================================================== *)

Lemma string_append_assoc (a b c : string) :
  ((a ++ b) ++ c)%string = (a ++ (b ++ c))%string.
Proof.
  induction a as [| x a IH]; [reflexivity|].
  change (String x ((a ++ b) ++ c)%string = String x (a ++ (b ++ c))%string).
  rewrite IH. reflexivity.
Qed.

Lemma join_snoc (prefix : list string) (x : string) :
  prefix <> [] ->
  join "/" (prefix ++ [x]) = (join "/" prefix ++ "/" ++ x)%string.
Proof.
  induction prefix as [| a rest IH]; [congruence|]. intros _.
  destruct rest as [| b rest'].
  - reflexivity.
  - change (join "/" ((a :: b :: rest') ++ [x]))
      with (a ++ "/" ++ join "/" ((b :: rest') ++ [x]))%string.
    rewrite IH by discriminate.
    change (join "/" (a :: b :: rest'))
      with (a ++ "/" ++ join "/" (b :: rest'))%string.
    rewrite !string_append_assoc. reflexivity.
Qed.

Lemma in_forestNodes (nodes : list TreeNode) (c n : TreeNode) :
  In c nodes -> In n (allNodes c) -> In n (forestNodes nodes).
Proof.
  intros Hc Hn. unfold forestNodes. apply in_flat_map. eauto.
Qed.

Lemma allNodes_unfold (n : TreeNode) :
  allNodes n = n :: forestNodes (children n).
Proof.
  destruct n; reflexivity.
Qed.

Lemma forestNodes_app (a b : list TreeNode) :
  forestNodes (a ++ b) = forestNodes a ++ forestNodes b.
Proof.
  apply flat_map_app.
Qed.

(** Where the nodes of the tree after a walk come from: a node was
    there before, or is a directory the walk made, or is the blob the
    walk made for its file. *)
Lemma insertParts_nodes (file : GitHubFile) (arr : list string) :
  forall (parts prefix : list string) (nodes : list TreeNode) (n : TreeNode),
    arr = prefix ++ parts ->
    In n (forestNodes
            (insertParts file arr (List.length prefix) parts nodes)) ->
    (exists m, In m (forestNodes nodes) /\ nodeFacts m = nodeFacts n)
    \/ (type n = tree /\ sha n = None)
    \/ (type n = blob /\ path n = join "/" arr
        /\ sha n = Some (file_sha file)).
Proof.
  induction parts as [| part rest IH]; intros prefix nodes n Harr Hn.
  - left. exists n. auto.
  - subst arr.
    assert (Hstep : forall kids,
               In n (forestNodes
                       (insertParts file (prefix ++ part :: rest)
                          (S (List.length prefix)) rest kids)) ->
               (exists m, In m (forestNodes kids)
                          /\ nodeFacts m = nodeFacts n)
               \/ (type n = tree /\ sha n = None)
               \/ (type n = blob
                   /\ path n = join "/" (prefix ++ part :: rest)
                   /\ sha n = Some (file_sha file))).
    { intros kids Hk.
      replace (S (List.length prefix)) with (List.length (prefix ++ [part]))
        in Hk by (rewrite length_app; cbn [List.length]; lia).
      apply (IH (prefix ++ [part]) kids n); [|exact Hk].
      rewrite <- app_assoc. reflexivity. }
    cbn [insertParts] in Hn.
    destruct (find (fun child => String.eqb (name child) part) nodes)
      as [child |] eqn:Hfind.
    + destruct (updateChild_found part
                  (fun childNode =>
                     withChildren childNode
                       (insertParts file (prefix ++ part :: rest)
                          (S (List.length prefix)) rest
                          (children childNode)))
                  nodes child Hfind) as (before & after & Hnodes & Hname & Hup).
      rewrite Hup in Hn. subst nodes.
      rewrite forestNodes_app in Hn. apply in_app_or in Hn.
      destruct Hn as [Hn | Hn].
      * left. exists n. split; [|reflexivity].
        rewrite forestNodes_app. apply in_or_app. auto.
      * change (forestNodes (?c :: ?l)) with (allNodes c ++ forestNodes l)
          in Hn.
        apply in_app_or in Hn. destruct Hn as [Hn | Hn].
        -- rewrite allNodes_unfold in Hn. destruct Hn as [<- | Hn].
           ++ left. exists child. split; [|reflexivity].
              apply (in_forestNodes _ child); [apply in_elt|].
              rewrite allNodes_unfold. left. reflexivity.
           ++ cbn [children withChildren] in Hn.
              destruct (Hstep _ Hn) as [(m & Hm & Hfacts) | Hother];
                [|right; exact Hother].
              left. exists m. split; [|exact Hfacts].
              apply (in_forestNodes _ child); [apply in_elt|].
              rewrite allNodes_unfold. right. exact Hm.
        -- left. exists n. split; [|reflexivity].
           rewrite forestNodes_app. apply in_or_app. right.
           change (forestNodes (?c :: ?l)) with (allNodes c ++ forestNodes l).
           apply in_or_app. auto.
    + rewrite isLastPart_spec, slice0_prefix in Hn.
      rewrite forestNodes_app in Hn. apply in_app_or in Hn.
      destruct Hn as [Hn | Hn]; [left; exists n; auto|].
      unfold forestNodes in Hn. cbn [flat_map] in Hn. rewrite app_nil_r in Hn.
      rewrite allNodes_unfold in Hn. destruct Hn as [<- | Hn].
      * right. cbn [type sha path]. destruct rest as [| r rest'].
        -- right. auto.
        -- left. auto.
      * cbn [children] in Hn.
        destruct (Hstep _ Hn) as [(m & [] & _) | Hother].
        right. exact Hother.
Qed.

(** A walk removes no node and changes no node's path, kind or sha. *)
Lemma insertParts_keeps_nodes (file : GitHubFile) (arr : list string) :
  forall (parts : list string) (index : nat) (nodes : list TreeNode)
         (m : TreeNode),
    In m (forestNodes nodes) ->
    exists n,
      In n (forestNodes (insertParts file arr index parts nodes))
      /\ nodeFacts n = nodeFacts m.
Proof.
  induction parts as [| part rest IH]; intros index nodes m Hm.
  - exists m. auto.
  - cbn [insertParts].
    destruct (find (fun child => String.eqb (name child) part) nodes)
      as [child |] eqn:Hfind.
    + destruct (updateChild_found part
                  (fun childNode =>
                     withChildren childNode
                       (insertParts file arr (S index) rest
                                    (children childNode)))
                  nodes child Hfind) as (before & after & Hnodes & Hname & ->).
      subst nodes. rewrite forestNodes_app in Hm. apply in_app_or in Hm.
      destruct Hm as [Hm | Hm].
      * exists m. split; [|reflexivity].
        rewrite forestNodes_app. apply in_or_app. auto.
      * change (forestNodes (?c :: ?l)) with (allNodes c ++ forestNodes l)
          in Hm.
        apply in_app_or in Hm. destruct Hm as [Hm | Hm].
        -- rewrite allNodes_unfold in Hm. destruct Hm as [<- | Hm].
           ++ exists (withChildren child
                        (insertParts file arr (S index) rest
                                     (children child))).
              split; [|reflexivity].
              rewrite forestNodes_app. apply in_or_app. right.
              left. reflexivity.
           ++ destruct (IH (S index) (children child) m Hm) as (n & Hn & Hf).
              exists n. split; [|exact Hf].
              rewrite forestNodes_app. apply in_or_app. right.
              change (forestNodes (?c :: ?l))
                with (allNodes c ++ forestNodes l).
              apply in_or_app. left. rewrite allNodes_unfold. right. exact Hn.
        -- exists m. split; [|reflexivity].
           rewrite forestNodes_app. apply in_or_app. right.
           change (forestNodes (?c :: ?l)) with (allNodes c ++ forestNodes l).
           apply in_or_app. auto.
    + exists m. split; [|reflexivity].
      rewrite forestNodes_app. apply in_or_app. auto.
Qed.

(** After the walk for a path, the tree has a node with that path. *)
Lemma insertParts_has_path (file : GitHubFile) (arr : list string) :
  forall (parts prefix : list string) (nodes : list TreeNode),
    parts <> [] ->
    arr = prefix ++ parts ->
    WellFormed prefix nodes ->
    exists n,
      In n (forestNodes
              (insertParts file arr (List.length prefix) parts nodes))
      /\ path n = join "/" arr.
Proof.
  induction parts as [| part rest IH]; intros prefix nodes Hne Harr Hwf;
    [congruence|].
  subst arr. inversion Hwf as [? ? Hnd Hprops Hkids]; subst.
  assert (Hstep : forall kids,
             rest <> [] ->
             WellFormed (prefix ++ [part]) kids ->
             exists n,
               In n (forestNodes
                       (insertParts file (prefix ++ part :: rest)
                          (S (List.length prefix)) rest kids))
               /\ path n = join "/" (prefix ++ part :: rest)).
  { intros kids Hrest Hk.
    replace (S (List.length prefix)) with (List.length (prefix ++ [part]))
      by (rewrite length_app; cbn [List.length]; lia).
    apply IH; [exact Hrest | rewrite <- app_assoc; reflexivity | exact Hk]. }
  cbn [insertParts].
  destruct (find (fun child => String.eqb (name child) part) nodes)
    as [child |] eqn:Hfind.
  - destruct (updateChild_found part
                (fun childNode =>
                   withChildren childNode
                     (insertParts file (prefix ++ part :: rest)
                        (S (List.length prefix)) rest (children childNode)))
                nodes child Hfind) as (before & after & Hnodes & Hname & ->).
    subst nodes.
    assert (Hchild : In child (before ++ child :: after)) by apply in_elt.
    destruct rest as [| r rest'].
    + eexists. split.
      * rewrite forestNodes_app. apply in_or_app. right. left. reflexivity.
      * cbn [path withChildren]. destruct (Hprops child Hchild) as (Hp & _).
        rewrite Hp, Hname. reflexivity.
    + destruct (Hstep (children child)) as (n & Hn & Hp).
      * discriminate.
      * rewrite <- Hname. apply Hkids. exact Hchild.
      * exists n. split; [|exact Hp].
        rewrite forestNodes_app. apply in_or_app. right.
        change (forestNodes (?c :: ?l)) with (allNodes c ++ forestNodes l).
        apply in_or_app. left. rewrite allNodes_unfold. right. exact Hn.
  - rewrite isLastPart_spec, slice0_prefix.
    destruct rest as [| r rest'].
    + eexists. split.
      * rewrite forestNodes_app. apply in_or_app. right. left. reflexivity.
      * reflexivity.
    + destruct (Hstep [] ltac:(discriminate) (WellFormed_nil _))
        as (n & Hn & Hp).
      exists n. split; [|exact Hp].
      rewrite forestNodes_app. apply in_or_app. right.
      unfold forestNodes at 1. cbn [flat_map]. rewrite app_nil_r.
      rewrite allNodes_unfold. right. exact Hn.
Qed.

Section EveryInput.

Variable localeCompare : string -> string -> Z.

Lemma sortNodes_nonempty (nodes : list TreeNode) :
  nodes <> [] -> sortNodes localeCompare nodes <> [].
Proof.
  intros Hne Hnil. unfold sortNodes in Hnil.
  pose proof (sort_Permutation localeCompare
                (map (sortNode localeCompare) nodes)) as Hperm.
  rewrite Hnil in Hperm. apply Permutation_nil in Hperm.
  destruct nodes; [congruence | discriminate].
Qed.

Lemma sortNodes_WellFormed (prefix : list string) (nodes : list TreeNode) :
  WellFormed prefix nodes ->
  WellFormed prefix (sortNodes localeCompare nodes).
Proof.
  induction 1 as [prefix nodes Hnd Hprops Hkids IH].
  assert (Hin : forall m, In m (sortNodes localeCompare nodes) ->
                 exists c, In c nodes /\ m = sortNode localeCompare c).
  { intros m Hm. unfold sortNodes in Hm.
    apply (Permutation_in _ (sort_Permutation _ _)) in Hm.
    apply in_map_iff in Hm. destruct Hm as (c & <- & Hc). eauto. }
  constructor.
  - unfold sortNodes.
    apply (Permutation_NoDup
             (Permutation_sym
                (Permutation_map name (sort_Permutation localeCompare _)))).
    rewrite map_map. erewrite map_ext; [exact Hnd|].
    intros c. apply sortNode_keys.
  - intros m Hm. destruct (Hin m Hm) as (c & Hc & ->).
    destruct (sortNode_keys localeCompare c) as [Hty Hname].
    destruct (sortNode_fields localeCompare c) as [Hpath Hsha].
    destruct (Hprops c Hc) as (Hp & Hs & Ht).
    rewrite Hty, Hname, Hpath, Hsha, sortNode_children.
    split; [exact Hp|]. split; [exact Hs|]. intros Htree.
    destruct (Ht Htree) as [Hnone Hne]. split; [exact Hnone|].
    rewrite Htree. apply sortNodes_nonempty, Hne.
  - intros m Hm. destruct (Hin m Hm) as (c & Hc & ->).
    destruct (sortNode_keys localeCompare c) as [_ Hname].
    rewrite Hname, sortNode_children.
    destruct (type c); [apply Hkids | apply IH]; exact Hc.
Qed.

Lemma buildFileTree_wf (files : list GitHubFile) :
  WellFormed [] (sortNodes localeCompare (fold_left insertFile files [])).
Proof.
  apply sortNodes_WellFormed, fold_insertFile_WellFormed, WellFormed_nil.
Qed.

(** Whatever the descriptors, the tree [buildFileTree] returns is well
    formed at every depth: sibling names are distinct and free of
    slashes, every [path] is the names from the top joined by slashes,
    and a ['tree'] node has no sha and at least one child. *)
Theorem buildFileTree_WellFormed (files : list GitHubFile) :
  WellFormed [] (buildFileTree localeCompare files).
Proof.
  apply buildFileTree_wf.
Qed.

Lemma WellFormed_PathsChained (prefix : list string)
    (nodes : list TreeNode) :
  WellFormed prefix nodes ->
  PathsChained match prefix with
               | [] => None
               | _ :: _ => Some (join "/" prefix)
               end nodes.
Proof.
  induction 1 as [prefix nodes Hnd Hprops Hkids IH].
  constructor.
  - intros n Hn. destruct (Hprops n Hn) as (Hpath & _ & _).
    rewrite Hpath. destruct prefix as [| a rest]; [reflexivity|].
    apply join_snoc. discriminate.
  - intros n Hn. destruct (Hprops n Hn) as (Hpath & _ & _).
    specialize (IH n Hn). rewrite <- Hpath in IH.
    destruct prefix; exact IH.
Qed.

(** In the tree [buildFileTree] returns, the [path] of a top-level node
    is its [name], and the [path] of any other node is its parent's
    [path], a slash and its [name]. *)
Theorem buildFileTree_paths_chained (files : list GitHubFile) :
  PathsChained None (buildFileTree localeCompare files).
Proof.
  apply (WellFormed_PathsChained [] _ (buildFileTree_wf files)).
Qed.

(** Sorting keeps every node, with its path, kind and sha. *)
Lemma forestNodes_sortNodes (nodes : list TreeNode) :
  Permutation (map nodeFacts (forestNodes (sortNodes localeCompare nodes)))
              (map nodeFacts (forestNodes nodes)).
Proof.
  assert (Hforest : forall cs,
             Forall (fun c =>
                       Permutation
                         (map nodeFacts (allNodes (sortNode localeCompare c)))
                         (map nodeFacts (allNodes c))) cs ->
             Permutation
               (map nodeFacts (forestNodes (sortNodes localeCompare cs)))
               (map nodeFacts (forestNodes cs))).
  { intros cs Hcs. unfold sortNodes, forestNodes.
    rewrite (Permutation_flat_map _ (sort_Permutation localeCompare _)).
    induction Hcs as [| c cs Hc _ IH]; [constructor|].
    cbn [map flat_map]. rewrite !map_app.
    apply Permutation_app; [exact Hc | exact IH]. }
  assert (Hnode : forall n,
             Permutation (map nodeFacts (allNodes (sortNode localeCompare n)))
                         (map nodeFacts (allNodes n))).
  { induction n as [n IH] using TreeNode_children_ind.
    destruct n as [nm p ty cs s]. cbn [children] in IH.
    destruct ty; [reflexivity|].
    cbn [sortNode type allNodes children withChildren map name path sha].
    unfold nodeFacts at 1 3. cbn [path type sha].
    apply perm_skip. apply (Hforest cs IH). }
  apply Hforest. apply Forall_forall. intros n _. apply Hnode.
Qed.

Lemma insertFile_BuiltFrom (done : list GitHubFile) (nodes : list TreeNode)
    (file : GitHubFile) :
  WellFormed [] nodes ->
  BuiltFrom done nodes ->
  BuiltFrom (done ++ [file]) (insertFile nodes file).
Proof.
  intros Hwf [Hblobs Hpaths]. unfold insertFile. split.
  - intros n Hn Hty.
    destruct (insertParts_nodes file (split "/" (file_path file))
                (split "/" (file_path file)) [] nodes n eq_refl Hn)
      as [(m & Hm & Hfacts) | [(Htree & _) | (_ & Hp & Hs)]].
    + injection Hfacts as Hp Ht Hs.
      destruct (Hblobs m Hm) as (g & Hg & Hgp & Hgs); [congruence|].
      exists g. rewrite <- Hp, <- Hs. auto using in_or_app.
    + congruence.
    + exists file. rewrite join_split in Hp.
      split; [apply in_or_app; right; left; reflexivity | auto].
  - intros g Hg. apply in_app_or in Hg. destruct Hg as [Hg | [<- | []]].
    + destruct (Hpaths g Hg) as (m & Hm & Hp).
      destruct (insertParts_keeps_nodes file (split "/" (file_path file))
                  (split "/" (file_path file)) 0 nodes m Hm)
        as (n & Hn & Hfacts).
      exists n. split; [exact Hn|]. injection Hfacts as -> _ _. exact Hp.
    + destruct (insertParts_has_path file (split "/" (file_path file))
                  (split "/" (file_path file)) [] nodes
                  (split_nonempty _ _) eq_refl Hwf) as (n & Hn & Hp).
      exists n. rewrite join_split in Hp. auto.
Qed.

Lemma fold_insertFile_BuiltFrom (files : list GitHubFile) :
  forall done nodes,
    WellFormed [] nodes ->
    BuiltFrom done nodes ->
    BuiltFrom (done ++ files) (fold_left insertFile files nodes).
Proof.
  induction files as [| file files IH]; intros done nodes Hwf Hb.
  - rewrite app_nil_r. exact Hb.
  - cbn [fold_left].
    replace (done ++ file :: files) with ((done ++ [file]) ++ files)
      by (rewrite <- app_assoc; reflexivity).
    apply IH; [apply insertFile_WellFormed, Hwf|].
    apply insertFile_BuiltFrom; assumption.
Qed.

Lemma unsorted_BuiltFrom (files : list GitHubFile) :
  BuiltFrom files (fold_left insertFile files []).
Proof.
  apply (fold_insertFile_BuiltFrom files [] []); [apply WellFormed_nil|].
  split; [intros ? [] | intros ? []].
Qed.

(** What [collectFiles] pushes comes from blob nodes of the forest. *)
Lemma collectFiles_from_nodes (nodes : list TreeNode) (f : GitHubFile) :
  In f (collectFiles nodes) ->
  exists n,
    In n (forestNodes nodes) /\ type n = blob
    /\ f = {| file_path := path n; file_type := blob;
              file_sha := nonNull (sha n) |}.
Proof.
  assert (Hnode : forall c f,
             In f (collectNode c) ->
             exists n,
               In n (allNodes c) /\ type n = blob
               /\ f = {| file_path := path n; file_type := blob;
                         file_sha := nonNull (sha n) |}).
  { induction c as [c IH] using TreeNode_children_ind. intros g Hg.
    rewrite collectNode_unfold in Hg. rewrite allNodes_unfold.
    destruct (type c) eqn:Hty.
    - destruct Hg as [<- | []]. exists c. split; [left; reflexivity | auto].
    - apply in_flat_map in Hg. destruct Hg as (k & Hk & Hgk).
      rewrite Forall_forall in IH.
      destruct (IH k Hk g Hgk) as (n & Hn & Hrest).
      exists n. split; [|exact Hrest].
      right. apply (in_forestNodes _ k); assumption. }
  intros Hf. apply in_flat_map in Hf. destruct Hf as (c & Hc & Hfc).
  destruct (Hnode c f Hfc) as (n & Hn & Hrest).
  exists n. split; [apply (in_forestNodes _ c); assumption | exact Hrest].
Qed.

(** Every path given to [buildFileTree] is the [path] of a node of the
    tree it returns, whatever else the list holds; the node need not be
    a blob, and need not carry the sha of that file. *)
Theorem buildFileTree_keeps_every_path (files : list GitHubFile)
    (file : GitHubFile) :
  In file files ->
  In (file_path file)
     (map path (forestNodes (buildFileTree localeCompare files))).
Proof.
  intros Hfile. destruct (unsorted_BuiltFrom files) as [_ Hpaths].
  destruct (Hpaths file Hfile) as (m & Hm & Hp).
  assert (Hin : In (nodeFacts m)
                   (map nodeFacts
                      (forestNodes (buildFileTree localeCompare files)))).
  { unfold buildFileTree.
    apply (Permutation_in _ (Permutation_sym (forestNodes_sortNodes _))).
    apply in_map, Hm. }
  apply in_map_iff in Hin. destruct Hin as (n & Hfacts & Hn).
  apply in_map_iff. exists n. split; [|exact Hn].
  injection Hfacts as -> _ _. exact Hp.
Qed.

(** The files [collectFiles] takes from the tree [buildFileTree]
    returns are input descriptors, with the path and the sha of the
    input, and there are never more of them than inputs. *)
Theorem collectFiles_of_built_tree (files : list GitHubFile) :
  (forall f, In f (collectFiles (buildFileTree localeCompare files)) ->
             file_type f = blob
             /\ exists g, In g files /\ file_path f = file_path g
                          /\ file_sha f = file_sha g)
  /\ List.length (collectFiles (buildFileTree localeCompare files))
     <= List.length files.
Proof.
  assert (Hfrom : forall f,
             In f (collectFiles (buildFileTree localeCompare files)) ->
             file_type f = blob
             /\ exists g, In g files /\ file_path f = file_path g
                          /\ file_sha f = file_sha g).
  { intros f Hf. unfold buildFileTree in Hf.
    apply (Permutation_in _ (collectFiles_sortNodes localeCompare _)) in Hf.
    destruct (collectFiles_from_nodes _ f Hf) as (n & Hn & Hty & ->).
    destruct (unsorted_BuiltFrom files) as [Hblobs _].
    destruct (Hblobs n Hn Hty) as (g & Hg & Hp & Hs).
    split; [reflexivity|]. exists g. cbn [file_path file_sha].
    rewrite Hs. auto. }
  split; [exact Hfrom|].
  rewrite <- (length_map file_path files),
          <- (length_map file_path (collectFiles _)).
  apply NoDup_incl_length.
  - apply collectFiles_paths_distinct, buildFileTree_wf.
  - intros p Hp. apply in_map_iff in Hp. destruct Hp as (f & <- & Hf).
    destruct (Hfrom f Hf) as (_ & g & Hg & -> & _). apply in_map, Hg.
Qed.

End EveryInput.

Section SortedAlready.

Variable localeCompare : string -> string -> Z.
Hypothesis consistent : ConsistentComparator localeCompare.

(** Sorting leaves a sorted array as it is. *)
Lemma sort_of_sorted (l : list TreeNode) :
  StronglySorted (fun a b => (nodeCompare localeCompare a b <= 0)%Z) l ->
  sort localeCompare l = l.
Proof.
  induction 1 as [| x l Hl IH Hx]; [reflexivity|].
  cbn [sort]. rewrite IH. destruct l as [| y rest]; [reflexivity|].
  cbn [sortInsert]. inversion Hx as [| ? ? Hxy _]; subst.
  destruct (Z.leb_spec (nodeCompare localeCompare x y) 0); [reflexivity|lia].
Qed.

Lemma sortNode_again (n : TreeNode) :
  sortNode localeCompare (sortNode localeCompare n) = sortNode localeCompare n.
Proof.
  induction n as [n IH] using TreeNode_children_ind.
  destruct n as [nm p ty cs s]. cbn [children] in IH.
  destruct ty; [reflexivity|].
  cbn [sortNode type children withChildren name path sha]. f_equal.
  rewrite <- (sort_map localeCompare) by apply sortNode_keys.
  rewrite map_map.
  rewrite (map_ext_Forall _ _ IH).
  apply sort_of_sorted, sort_sorted, consistent.
Qed.

(** For a consistent [localeCompare], sorting a tree that [sortNodes]
    has sorted changes nothing. *)
Theorem sortNodes_idempotent (nodes : list TreeNode) :
  sortNodes localeCompare (sortNodes localeCompare nodes) =
  sortNodes localeCompare nodes.
Proof.
  unfold sortNodes.
  rewrite <- (sort_map localeCompare) by apply sortNode_keys.
  rewrite map_map.
  rewrite (map_ext _ _ sortNode_again).
  apply sort_of_sorted, sort_sorted, consistent.
Qed.

End SortedAlready.

(* ================================================================== *)
(** * The handlers of [App] on every outcome *)
(* ================================================================== *)

Section ListingRuns.

Variable env : Platform.

(** A call of [getRepoTree] leaves the state cells alone; its outcome
    and the events it adds do not depend on the world it starts in. *)
Lemma getRepoTree_run (owner repo : string) (w : World) :
  getRepoTree env owner repo w =
  (listingOutcome env owner repo,
   {| app := app w; trace := trace w ++ listingEvents env owner repo |}).
Proof.
  unfold listingOutcome, listingEvents, getRepoTree, tryCatch, bind, emit,
    liftResult, throw, ret.
  cbn [app trace initialWorld fst snd].
  destruct (fetchRepo env owner repo) as [repoRes | e]; cbn [fst snd app trace].
  2:{ rewrite <- !app_assoc. reflexivity. }
  destruct (ok repoRes); cbn [negb fst snd app trace].
  2:{ destruct (Nat.eqb (status repoRes) 404); cbn [fst snd app trace];
        [rewrite <- !app_assoc; reflexivity|].
      destruct (Nat.eqb (status repoRes) 403); cbn [fst snd app trace];
        rewrite <- !app_assoc; reflexivity. }
  destruct (json repoRes) as [repoData | e]; cbn [fst snd app trace].
  2:{ rewrite <- !app_assoc. reflexivity. }
  destruct (fetchTree env owner repo (default_branch repoData))
    as [treeRes | e]; cbn [fst snd app trace].
  2:{ rewrite <- !app_assoc. reflexivity. }
  destruct (ok treeRes); cbn [negb fst snd app trace].
  2:{ rewrite <- !app_assoc. reflexivity. }
  destruct (json treeRes) as [treeData | e]; cbn [fst snd app trace].
  2:{ rewrite <- !app_assoc. reflexivity. }
  destruct (truncated treeData); cbn [fst snd app trace];
    rewrite <- ?app_assoc; reflexivity.
Qed.

(** It calls neither the content nor the review gateway, and shows no
    progress. *)
Lemma listingEvents_calls (owner repo : string) :
  contentCalls (listingEvents env owner repo) = []
  /\ reviewCalls (listingEvents env owner repo) = []
  /\ progressShown (listingEvents env owner repo) = [].
Proof.
  unfold listingEvents, getRepoTree, tryCatch, bind, emit,
    liftResult, throw, ret.
  cbn [app trace initialWorld fst snd].
  destruct (fetchRepo env owner repo) as [repoRes | e]; cbn [fst snd app trace].
  2:{ cbn. auto. }
  destruct (ok repoRes); cbn [negb fst snd app trace].
  2:{ destruct (Nat.eqb (status repoRes) 404); cbn [fst snd app trace];
        [cbn; auto|].
      destruct (Nat.eqb (status repoRes) 403); cbn [fst snd app trace];
        cbn; auto. }
  destruct (json repoRes) as [repoData | e]; cbn [fst snd app trace].
  2:{ cbn. auto. }
  destruct (fetchTree env owner repo (default_branch repoData))
    as [treeRes | e]; cbn [fst snd app trace].
  2:{ cbn. auto. }
  destruct (ok treeRes); cbn [negb fst snd app trace].
  2:{ cbn. auto. }
  destruct (json treeRes) as [treeData | e]; cbn [fst snd app trace].
  2:{ cbn. auto. }
  destruct (truncated treeData); cbn [fst snd app trace]; cbn; auto.
Qed.

(** Every message [getRepoTree] throws starts with its fixed prefix. *)
Lemma listingOutcome_failure (owner repo e : string) :
  listingOutcome env owner repo = Err e ->
  exists cause,
    e = ("Could not retrieve repository files: " ++ cause)%string.
Proof.
  unfold listingOutcome, getRepoTree, tryCatch, bind, emit,
    liftResult, throw, ret.
  cbn [app trace initialWorld fst snd].
  destruct (fetchRepo env owner repo) as [repoRes | e']; cbn [fst snd app trace].
  2:{ intros [= <-]. eauto. }
  destruct (ok repoRes); cbn [negb fst snd app trace].
  2:{ destruct (Nat.eqb (status repoRes) 404); cbn [fst snd app trace];
        [intros [= <-]; eauto|].
      destruct (Nat.eqb (status repoRes) 403); cbn [fst snd app trace];
        intros [= <-]; eauto. }
  destruct (json repoRes) as [repoData | e']; cbn [fst snd app trace].
  2:{ intros [= <-]. eauto. }
  destruct (fetchTree env owner repo (default_branch repoData))
    as [treeRes | e']; cbn [fst snd app trace].
  2:{ intros [= <-]. eauto. }
  destruct (ok treeRes); cbn [negb fst snd app trace].
  2:{ intros [= <-]. eauto. }
  destruct (json treeRes) as [treeData | e']; cbn [fst snd app trace].
  2:{ intros [= <-]. eauto. }
  destruct (truncated treeData); cbn [fst snd app trace]; discriminate.
Qed.

End ListingRuns.

Arguments getRepoTree : simpl never.
Arguments listingOutcome : simpl never.
Arguments listingEvents : simpl never.
Arguments contentOutcome : simpl never.

Section Handlers.

Variable env : Platform.

(** What fetching and then reviewing comes to, phase by phase. *)
Lemma reviewOutcome_unfold (owner repo key : string) (file : GitHubFile) :
  reviewOutcome env owner repo key file =
  match contentOutcome env owner repo file with
  | Ok fileText =>
      fst (reviewCode env (file_path file) fileText key initialWorld)
  | Err e => Err e
  end.
Proof.
  unfold reviewOutcome, contentOutcome, bind.
  rewrite (getFileContent_run env owner repo (file_path file) initialWorld).
  destruct (fst (getFileContent env owner repo (file_path file) initialWorld))
    as [fileText | e]; [|reflexivity].
  rewrite reviewCode_run. reflexivity.
Qed.

Lemma fileEvents_unfold (owner repo key : string) (file : GitHubFile) :
  fileEvents env owner repo key file =
  contentEvents env owner repo (file_path file)
  ++ match contentOutcome env owner repo file with
     | Ok fileText => reviewEvents env (file_path file) fileText key
     | Err _ => []
     end.
Proof.
  unfold fileEvents, contentOutcome, bind.
  rewrite (getFileContent_run env owner repo (file_path file) initialWorld).
  destruct (fst (getFileContent env owner repo (file_path file) initialWorld))
    as [fileText | e].
  - rewrite reviewCode_run. reflexivity.
  - cbn [snd trace initialWorld List.app]. rewrite app_nil_r. reflexivity.
Qed.

(** With a key, [reviewCode] sends one request. *)
Lemma reviewEvents_request (fileName code key : string) :
  truthy key = true ->
  reviewCalls (reviewEvents env fileName code key) =
  [GenerateContent fileName code].
Proof.
  intros Hkey. unfold reviewEvents, reviewCode. rewrite Hkey. cbn [negb].
  unfold tryCatch, bind, emit, liftResult, throw, ret.
  cbn [app trace initialWorld fst snd].
  destruct (generateContent env key fileName code) as [text | e];
    cbn [fst snd app trace].
  - destruct (JSON_parse env (trim env text)) as [r | e];
      cbn [fst snd app trace]; [reflexivity|].
    destruct (includes e "API key not valid" || includes e "API_KEY_INVALID");
      reflexivity.
  - destruct (includes e "API key not valid" || includes e "API_KEY_INVALID");
      reflexivity.
Qed.

(** The review requests among the events of one file. *)
Lemma fileEvents_reviewCalls (owner repo key : string) (file : GitHubFile) :
  truthy key = true ->
  reviewCalls (fileEvents env owner repo key file) =
  reviewRequestFor env owner repo file.
Proof.
  intros Hkey. rewrite fileEvents_unfold. unfold reviewRequestFor.
  destruct (contentEvents_calls env owner repo (file_path file))
    as (_ & Hr & _).
  unfold reviewCalls in *. rewrite filter_app, Hr.
  destruct (contentOutcome env owner repo file) as [fileText | e];
    [|reflexivity].
  apply (reviewEvents_request _ _ _ Hkey).
Qed.

(** [handleFileSelect] once it gets past its guards: the cells it
    leaves and the events it adds, on every outcome of the two calls. *)
Lemma handleFileSelect_run (file : GitHubFile) (w : World)
    (owner repo : string) :
  repoOwnerAndName (app w) = Some (owner, repo) ->
  isSelected (selectedFile (app w)) file = false ->
  truthy (apiKey (app w)) = true ->
  handleFileSelect env file w =
  (Ok tt,
   {| app :=
        {| loading := IDLE;
           error :=
             match reviewOutcome env owner repo (apiKey (app w)) file with
             | Ok _ => None
             | Err e => Some e
             end;
           apiKey := apiKey (app w);
           fileTree := fileTree (app w);
           repoOwnerAndName := Some (owner, repo);
           selectedFile := Some file;
           fileContent :=
             match contentOutcome env owner repo file with
             | Ok fileText => Some fileText
             | Err _ => None
             end;
           review :=
             match reviewOutcome env owner repo (apiKey (app w)) file with
             | Ok r => Some r
             | Err _ => None
             end;
           repoReviewResults := None;
           reviewProgress := reviewProgress (app w) |};
      trace :=
        trace w ++ fileEvents env owner repo (apiKey (app w)) file |}).
Proof.
  intros Hrepo Hsel Hkey.
  rewrite reviewOutcome_unfold, fileEvents_unfold.
  unfold handleFileSelect. run_world.
  rewrite Hsel, Hrepo, Hkey. run_world.
  unfold tryFinally, tryCatch, bind at 1.
  rewrite getFileContent_run. unfold contentOutcome.
  destruct (fst (getFileContent env owner repo (file_path file) initialWorld))
    as [fileText | e].
  - run_world. unfold bind at 1.
    rewrite (reviewCode_run env _ _ _ {| app := _; trace := _ |}).
    destruct (fst (reviewCode env (file_path file) fileText
                     (apiKey (app w)) initialWorld)) as [r | e];
      run_world; rewrite <- app_assoc, Hrepo; reflexivity.
  - run_world. rewrite app_nil_r, Hrepo. reflexivity.
Qed.

(** [handleFetchRepo]: the cells it leaves and the events it adds, on
    either outcome of [getRepoTree]. *)
Lemma handleFetchRepo_run (localeCompare : string -> string -> Z)
    (owner repo : string) (w : World) :
  handleFetchRepo env localeCompare owner repo w =
  (Ok tt,
   {| app :=
        {| loading := IDLE;
           error :=
             match listingOutcome env owner repo with
             | Ok _ => None
             | Err e => Some e
             end;
           apiKey := apiKey (app w);
           fileTree :=
             match listingOutcome env owner repo with
             | Ok repoFiles => buildFileTree localeCompare repoFiles
             | Err _ => []
             end;
           repoOwnerAndName := Some (owner, repo);
           selectedFile := None;
           fileContent := None;
           review := None;
           repoReviewResults := None;
           reviewProgress := reviewProgress (app w) |};
      trace := trace w ++ listingEvents env owner repo |}).
Proof.
  unfold handleFetchRepo. run_world.
  unfold tryFinally, tryCatch, bind at 1.
  rewrite getRepoTree_run.
  destruct (listingOutcome env owner repo) as [repoFiles | e];
    run_world; reflexivity.
Qed.

End Handlers.

Section BatchRuns.

Variable env : Platform.

(** One turn of the batch loop, with the events it adds spelled out. *)
Lemma reviewLoop_turn (owner repo key : string) (len i : nat)
    (file : GitHubFile) (results : gmap string ReviewResult) (w : World) :
  exists s' logged,
    tryFinally
      (tryCatch
         (fileText <- getFileContent env owner repo (file_path file) ;;
          reviewResult <- reviewCode env (file_path file) fileText key ;;
          ret (<[file_path file := reviewResult]> results))
         (fun e =>
            emit (ConsoleError
                    ("Failed to review " ++ file_path file ++ ": " ++ e)%string) ;;
            ret results))
      (setReviewProgress (Some {| processed := i + 1; total := len |})) w
    = (Ok match reviewOutcome env owner repo key file with
          | Ok r => <[file_path file := r]> results
          | Err _ => results
          end,
       {| app := s';
          trace := trace w ++ fileEvents env owner repo key file ++ logged |})
    /\ reviewCalls logged = [].
Proof.
  unfold tryFinally, tryCatch.
  rewrite <- bind_assoc. unfold bind at 1.
  rewrite fetchThenReview_run.
  destruct (reviewOutcome env owner repo key file) as [r | e].
  - run_world. do 2 eexists. split.
    + rewrite <- app_assoc. reflexivity.
    + reflexivity.
  - run_world. do 2 eexists. split.
    + rewrite <- !app_assoc. reflexivity.
    + reflexivity.
Qed.

(** The review requests of the loop: one for each pending file whose
    content arrived, carrying that content, in the order of the files. *)
Lemma reviewLoop_reviewCalls (owner repo key : string) (len : nat) :
  truthy key = true ->
  forall (pending : list GitHubFile) (i : nat)
         (results : gmap string ReviewResult) (w : World),
    reviewCalls
      (trace (snd (reviewLoop env owner repo key len i pending results w))) =
    reviewCalls (trace w)
    ++ flat_map (reviewRequestFor env owner repo) pending.
Proof.
  intros Hkey. induction pending as [| file rest IH]; intros i results w.
  - cbn [reviewLoop flat_map]. unfold ret. cbn [snd]. rewrite app_nil_r.
    reflexivity.
  - destruct (reviewLoop_turn owner repo key len i file results w)
      as (s1 & logged & Hturn & Hlogged).
    cbn [reviewLoop flat_map]. unfold bind at 1. rewrite Hturn.
    cbv beta iota. rewrite IH. cbn [trace].
    unfold reviewCalls in *.
    rewrite !filter_app, Hlogged, app_nil_r.
    fold (reviewCalls (fileEvents env owner repo key file)).
    rewrite (fileEvents_reviewCalls env owner repo key file Hkey).
    rewrite <- app_assoc. reflexivity.
Qed.

(** [handleAnalyzeRepo] once it has files to review: it ends without an
    error, with the aggregate in place and the other cells as listed. *)
Lemma analyzeRepoWith_run (allowList : list string) (w : World)
    (owner repo : string) :
  repoOwnerAndName (app w) = Some (owner, repo) ->
  truthy (apiKey (app w)) = true ->
  filesToReview allowList (fileTree (app w)) <> [] ->
  exists results evs,
    analyzeRepoWith env allowList w =
    (Ok tt,
     {| app :=
          {| loading := IDLE;
             error := None;
             apiKey := apiKey (app w);
             fileTree := fileTree (app w);
             repoOwnerAndName := Some (owner, repo);
             selectedFile := None;
             fileContent := fileContent (app w);
             review := None;
             repoReviewResults := Some results;
             reviewProgress := None |};
        trace := trace w ++ evs |}).
Proof.
  intros Hrepo Hkey Hne.
  set (files := filesToReview allowList (fileTree (app w))) in *.
  unfold analyzeRepoWith. run_world.
  rewrite Hrepo, Hkey. run_world. fold files.
  destruct (Nat.eqb (List.length files) 0) eqn:Hlen.
  { apply Nat.eqb_eq in Hlen. destruct files; [congruence | discriminate]. }
  run_world. unfold bind at 1.
  match goal with
  | |- context [reviewLoop env owner repo ?k ?n 0 files ∅ ?w0] =>
      destruct (reviewLoop_run env owner repo k n files 0 ∅ w0)
        as (results & s' & evs & Hrun & Hsame & _)
  end.
  rewrite Hrun. run_world.
  destruct Hsame as (Hl & He & Hk & Ht & Hr & Hs & Hf & Hv & Hrr).
  cbn [app loading error apiKey fileTree repoOwnerAndName selectedFile
       fileContent review repoReviewResults] in *.
  exists results. eexists.
  rewrite He, Hk, Ht, Hr, Hs, Hf, Hv, Hrepo.
  rewrite <- !app_assoc. reflexivity.
Qed.

End BatchRuns.

Section HandlerOutcomes.

Variable env : Platform.

(** Every message [reviewCode] throws is a non-empty string. *)
Lemma reviewCode_failure_shown (fileName code key e : string) (w : World) :
  fst (reviewCode env fileName code key w) = Err e -> truthy e = true.
Proof.
  unfold reviewCode. destruct (truthy key); cbn [negb].
  - unfold tryCatch, bind, emit, liftResult, throw, ret.
    cbn [app trace fst snd].
    destruct (generateContent env key fileName code) as [text | e'];
      cbn [fst snd].
    + destruct (JSON_parse env (trim env text)) as [r | e'];
        cbn [fst snd]; [discriminate|].
      destruct (includes e' "API key not valid"
                || includes e' "API_KEY_INVALID");
        cbn [fst]; intros [= <-]; reflexivity.
    + destruct (includes e' "API key not valid"
                || includes e' "API_KEY_INVALID");
        cbn [fst]; intros [= <-]; reflexivity.
  - unfold throw. cbn [fst]. intros [= <-]. reflexivity.
Qed.

(** When both calls succeed, [handleFileSelect] leaves the file
    selected with its text and its review, no error and nothing
    loading, after one request to each gateway; the review request
    carries the text fetched.  The main area then shows the review,
    unless the file is empty: an empty text is falsy, and the main area
    shows nothing at all. *)
Theorem handleFileSelect_review_success
    (file : GitHubFile) (w : World) (owner repo fileText : string)
    (r : ReviewResult) :
  repoOwnerAndName (app w) = Some (owner, repo) ->
  isSelected (selectedFile (app w)) file = false ->
  truthy (apiKey (app w)) = true ->
  contentOutcome env owner repo file = Ok fileText ->
  fst (reviewCode env (file_path file) fileText (apiKey (app w))
         initialWorld) = Ok r ->
  exists w',
    handleFileSelect env file w = (Ok tt, w')
    /\ selectedFile (app w') = Some file
    /\ fileContent (app w') = Some fileText
    /\ review (app w') = Some r
    /\ error (app w') = None
    /\ loading (app w') = IDLE
    /\ repoReviewResults (app w') = None
    /\ contentCalls (trace w') =
       contentCalls (trace w) ++ [FetchContents owner repo (file_path file)]
    /\ reviewCalls (trace w') =
       reviewCalls (trace w) ++ [GenerateContent (file_path file) fileText]
    /\ mainPanels (app w') =
       if truthy fileText then [ReviewPanel r fileText (file_path file)]
       else [].
Proof.
  intros Hrepo Hsel Hkey Hcontent Hreview.
  rewrite (handleFileSelect_run env file w owner repo Hrepo Hsel Hkey).
  pose proof (fileEvents_reviewCalls env owner repo _ file Hkey) as Hcalls.
  destruct (fileEvents_calls env owner repo (apiKey (app w)) file)
    as (Hc & _).
  unfold reviewRequestFor in Hcalls.
  rewrite reviewOutcome_unfold, Hcontent, Hreview in *.
  eexists. split; [reflexivity|]. simpl_world.
  unfold contentCalls, reviewCalls in *.
  rewrite !filter_app, Hc, Hcalls.
  repeat split; reflexivity.
Qed.

(** When the text arrives and the review fails, [handleFileSelect]
    keeps the text, leaves no review, and the main area shows the
    message [reviewCode] threw and nothing else. *)
Theorem handleFileSelect_review_failure
    (file : GitHubFile) (w : World) (owner repo fileText e : string) :
  repoOwnerAndName (app w) = Some (owner, repo) ->
  isSelected (selectedFile (app w)) file = false ->
  truthy (apiKey (app w)) = true ->
  contentOutcome env owner repo file = Ok fileText ->
  fst (reviewCode env (file_path file) fileText (apiKey (app w))
         initialWorld) = Err e ->
  exists w',
    handleFileSelect env file w = (Ok tt, w')
    /\ selectedFile (app w') = Some file
    /\ fileContent (app w') = Some fileText
    /\ review (app w') = None
    /\ error (app w') = Some e
    /\ loading (app w') = IDLE
    /\ reviewCalls (trace w') =
       reviewCalls (trace w) ++ [GenerateContent (file_path file) fileText]
    /\ mainPanels (app w') = [MainAlert e].
Proof.
  intros Hrepo Hsel Hkey Hcontent Hreview.
  rewrite (handleFileSelect_run env file w owner repo Hrepo Hsel Hkey).
  pose proof (fileEvents_reviewCalls env owner repo _ file Hkey) as Hcalls.
  pose proof (reviewCode_failure_shown _ _ _ _ _ Hreview) as Hshown.
  unfold reviewRequestFor in Hcalls.
  rewrite reviewOutcome_unfold, Hcontent, Hreview in *.
  eexists. split; [reflexivity|]. simpl_world.
  unfold reviewCalls in *. rewrite !filter_app, Hcalls.
  repeat split; try reflexivity.
  unfold mainPanels. simpl_world. rewrite Hshown. reflexivity.
Qed.


(** Before any repository was fetched, selecting a file and asking for
    the batch review both do nothing at all. *)
Theorem handlers_without_repository (file : GitHubFile) (w : World) :
  repoOwnerAndName (app w) = None ->
  handleFileSelect env file w = (Ok tt, w)
  /\ handleAnalyzeRepo env w = (Ok tt, w).
Proof.
  intros Hrepo. split.
  - unfold handleFileSelect, bind, getState. rewrite Hrepo.
    destruct (isSelected (selectedFile (app w)) file); reflexivity.
  - unfold handleAnalyzeRepo, analyzeRepoWith, bind, getState.
    rewrite Hrepo. reflexivity.
Qed.

(** With a repository and no key, [handleAnalyzeRepo] sets its own
    missing-key message and does nothing else: no request, no progress,
    and every other cell, an earlier aggregate included, keeps its
    value. *)
Theorem handleAnalyzeRepo_missing_key (w : World) (owner repo : string) :
  repoOwnerAndName (app w) = Some (owner, repo) ->
  truthy (apiKey (app w)) = false ->
  exists w',
    handleAnalyzeRepo env w = (Ok tt, w')
    /\ error (app w') =
       Some "Please enter your Gemini API Key to analyze the repository."
    /\ trace w' = trace w
    /\ sameExceptError (app w) (app w').
Proof.
  intros Hrepo Hkey.
  unfold handleAnalyzeRepo, analyzeRepoWith. run_world.
  rewrite Hrepo, Hkey. run_world.
  eexists. split; [reflexivity|].
  unfold sameExceptError. simpl_world. repeat split; reflexivity.
Qed.

(** [handleAnalyzeRepo] never throws, whatever the state and whatever
    the two services do.  It leaves the key, the tree, the repository
    and the text of the selected file alone, ends idle when it started
    idle, and leaves no progress behind when it found none. *)
Theorem handleAnalyzeRepo_never_throws (w : World) :
  exists w',
    handleAnalyzeRepo env w = (Ok tt, w')
    /\ apiKey (app w') = apiKey (app w)
    /\ fileTree (app w') = fileTree (app w)
    /\ repoOwnerAndName (app w') = repoOwnerAndName (app w)
    /\ fileContent (app w') = fileContent (app w)
    /\ (loading (app w) = IDLE -> loading (app w') = IDLE)
    /\ (reviewProgress (app w) = None -> reviewProgress (app w') = None).
Proof.
  unfold handleAnalyzeRepo.
  destruct (repoOwnerAndName (app w)) as [[owner repo] |] eqn:Hrepo.
  2:{ exists w. unfold analyzeRepoWith, bind, getState. rewrite Hrepo.
      repeat split; auto. }
  destruct (truthy (apiKey (app w))) eqn:Hkey.
  2:{ unfold analyzeRepoWith. run_world. rewrite Hrepo, Hkey. run_world.
      eexists. split; [reflexivity|]. simpl_world. repeat split; auto. }
  destruct (filesToReview SOURCE_CODE_EXTENSIONS (fileTree (app w)))
    as [| f rest] eqn:Hfiles.
  - unfold analyzeRepoWith. run_world. rewrite Hrepo, Hkey, Hfiles.
    run_world. cbn [List.length Nat.eqb]. run_world.
    eexists. split; [reflexivity|]. simpl_world. repeat split; auto.
  - destruct (analyzeRepoWith_run env SOURCE_CODE_EXTENSIONS w owner repo
                Hrepo Hkey) as (results & evs & Hrun).
    { rewrite Hfiles. discriminate. }
    rewrite Hrun. eexists. split; [reflexivity|]. simpl_world.
    repeat split; auto.
Qed.

(** In a batch, a file's text goes to the review backend exactly when
    its content request succeeded: the review requests are, in the
    order of the files, one per file whose text arrived, each carrying
    that text. *)
Theorem handleAnalyzeRepo_review_requests (w : World) (owner repo : string) :
  repoOwnerAndName (app w) = Some (owner, repo) ->
  truthy (apiKey (app w)) = true ->
  reviewCalls (trace (snd (handleAnalyzeRepo env w))) =
  reviewCalls (trace w)
  ++ flat_map (reviewRequestFor env owner repo)
              (filesToReview SOURCE_CODE_EXTENSIONS (fileTree (app w))).
Proof.
  intros Hrepo Hkey. unfold handleAnalyzeRepo.
  set (files := filesToReview SOURCE_CODE_EXTENSIONS (fileTree (app w))).
  unfold analyzeRepoWith. run_world.
  rewrite Hrepo, Hkey. run_world. fold files.
  destruct (Nat.eqb (List.length files) 0) eqn:Hlen.
  { apply Nat.eqb_eq in Hlen. destruct files; [|discriminate].
    run_world. cbn [flat_map]. rewrite app_nil_r. reflexivity. }
  run_world. unfold bind at 1.
  match goal with
  | |- context [reviewLoop env owner repo ?k ?n 0 files ∅ ?w0] =>
      pose proof (reviewLoop_reviewCalls env owner repo k n Hkey files 0 ∅ w0)
        as Hcalls;
      destruct (reviewLoop_run env owner repo k n files 0 ∅ w0)
        as (results & s' & evs & Hrun & _)
  end.
  rewrite Hrun in *. run_world. cbn [snd trace] in *.
  unfold reviewCalls in *. rewrite !filter_app in *.
  cbn [filter List.app] in *. rewrite !app_nil_r in *. exact Hcalls.
Qed.

(** When [getRepoTree] returns files, [handleFetchRepo] shows the tree
    built from them and resets every cell of the previous session but
    the key; it calls neither the content nor the review gateway, and
    the main area shows the welcome screen. *)
Theorem handleFetchRepo_success
    (localeCompare : string -> string -> Z) (owner repo : string)
    (repoFiles : list GitHubFile) (w : World) :
  listingOutcome env owner repo = Ok repoFiles ->
  exists w',
    handleFetchRepo env localeCompare owner repo w = (Ok tt, w')
    /\ fileTree (app w') = buildFileTree localeCompare repoFiles
    /\ repoOwnerAndName (app w') = Some (owner, repo)
    /\ apiKey (app w') = apiKey (app w)
    /\ error (app w') = None
    /\ loading (app w') = IDLE
    /\ selectedFile (app w') = None
    /\ fileContent (app w') = None
    /\ review (app w') = None
    /\ repoReviewResults (app w') = None
    /\ contentCalls (trace w') = contentCalls (trace w)
    /\ reviewCalls (trace w') = reviewCalls (trace w)
    /\ mainPanels (app w') = [WelcomeScreen].
Proof.
  intros Hlisting. rewrite handleFetchRepo_run, Hlisting.
  destruct (listingEvents_calls env owner repo) as (Hc & Hr & _).
  eexists. split; [reflexivity|]. simpl_world.
  unfold contentCalls, reviewCalls in *.
  rewrite !filter_app, Hc, Hr, !app_nil_r.
  repeat split; reflexivity.
Qed.

(** When [getRepoTree] throws, [handleFetchRepo] does not: the message
    becomes the error, the tree is empty, and the repository stays
    recorded as the current one.  The main area shows the welcome
    screen and the message together, and the batch button is
    disabled. *)
Theorem handleFetchRepo_failure
    (localeCompare : string -> string -> Z) (owner repo e : string)
    (w : World) :
  listingOutcome env owner repo = Err e ->
  exists w',
    handleFetchRepo env localeCompare owner repo w = (Ok tt, w')
    /\ error (app w') = Some e
    /\ fileTree (app w') = []
    /\ repoOwnerAndName (app w') = Some (owner, repo)
    /\ loading (app w') = IDLE
    /\ contentCalls (trace w') = contentCalls (trace w)
    /\ reviewCalls (trace w') = reviewCalls (trace w)
    /\ mainPanels (app w') = [WelcomeScreen; MainAlert e]
    /\ analyzeDisabled (app w') = true.
Proof.
  intros Hlisting. rewrite handleFetchRepo_run, Hlisting.
  destruct (listingEvents_calls env owner repo) as (Hc & Hr & _).
  destruct (listingOutcome_failure env owner repo e Hlisting) as (cause & ->).
  eexists. split; [reflexivity|]. simpl_world.
  unfold contentCalls, reviewCalls in *.
  rewrite !filter_app, Hc, Hr, !app_nil_r.
  repeat split; reflexivity.
Qed.

(** The main area never holds more than two components, and holds two
    only as the welcome screen above the error of the state. *)
Theorem mainPanels_at_most_two (s : AppState) :
  mainPanels s = []
  \/ (exists p, mainPanels s = [p])
  \/ (exists message,
        mainPanels s = [WelcomeScreen; MainAlert message]
        /\ error s = Some message /\ loading s = IDLE
        /\ selectedFile s = None /\ review s = None
        /\ repoReviewResults s = None).
Proof.
  destruct s as [ld er key ft rn sf fc rv rr rp].
  unfold mainPanels. simpl_world.
  destruct ld, rr as [results |], sf as [file |], er as [message |],
    rv as [shown |], fc as [code |];
    cbn [andb List.app];
    try (destruct (truthy message)); try (destruct (truthy code));
    cbn [List.app]; eauto 10.
Qed.

End HandlerOutcomes.

Section BetweenHandlers.

Variable env : Platform.
Variable localeCompare : string -> string -> Z.

(** Each handler, run to its end, takes a state at rest to a state at
    rest. *)
Lemma handlerRuns_AtRest (w w' : World) :
  AtRest (app w) -> handlerRuns env localeCompare w w' -> AtRest (app w').
Proof.
  intros (Hidle & Hprogress & Htree & Hselected & Hreview & Hresults) Hruns.
  destruct Hruns as [key w | owner repo w | file w | w].
  - unfold AtRest, setApiKey, modify. simpl_world.
    repeat split; tauto.
  - rewrite handleFetchRepo_run. unfold AtRest. simpl_world.
    repeat split; congruence.
  - destruct (isSelected (selectedFile (app w)) file) eqn:Hsel.
    { unfold handleFileSelect, bind, getState. rewrite Hsel.
      unfold AtRest. simpl_world. unfold ret. cbn [snd]. tauto. }
    destruct (repoOwnerAndName (app w)) as [[owner repo] |] eqn:Hrepo.
    2:{ unfold handleFileSelect, bind, getState. rewrite Hsel, Hrepo.
        unfold AtRest, ret. cbn [snd]. rewrite Hrepo. tauto. }
    destruct (truthy (apiKey (app w))) eqn:Hkey.
    2:{ unfold handleFileSelect. run_world. rewrite Hsel, Hrepo, Hkey.
        run_world. unfold AtRest. simpl_world. rewrite Hrepo.
        repeat split; tauto. }
    rewrite (handleFileSelect_run env file w owner repo Hrepo Hsel Hkey).
    unfold AtRest. simpl_world. rewrite reviewOutcome_unfold.
    destruct (contentOutcome env owner repo file) as [fileText | e];
      repeat split; congruence.
  - unfold handleAnalyzeRepo.
    destruct (repoOwnerAndName (app w)) as [[owner repo] |] eqn:Hrepo.
    2:{ unfold analyzeRepoWith, bind, getState. rewrite Hrepo.
        unfold AtRest, ret. cbn [snd]. rewrite Hrepo. tauto. }
    destruct (truthy (apiKey (app w))) eqn:Hkey.
    2:{ unfold analyzeRepoWith. run_world. rewrite Hrepo, Hkey. run_world.
        unfold AtRest. simpl_world. rewrite Hrepo. repeat split; tauto. }
    destruct (filesToReview SOURCE_CODE_EXTENSIONS (fileTree (app w)))
      as [| f rest] eqn:Hfiles.
    + unfold analyzeRepoWith. run_world. rewrite Hrepo, Hkey, Hfiles.
      run_world. cbn [List.length Nat.eqb]. run_world.
      unfold AtRest. simpl_world. rewrite Hrepo.
      repeat split; congruence.
    + destruct (analyzeRepoWith_run env SOURCE_CODE_EXTENSIONS w owner repo
                  Hrepo Hkey) as (results & evs & Hrun).
      { rewrite Hfiles. discriminate. }
      rewrite Hrun. unfold AtRest. simpl_world.
      repeat split; congruence.
Qed.

(** Between two handlers that do not overlap, nothing is loading and no
    progress is left; a tree on show or a selected file belongs to a
    recorded repository; a review is there only with its file and its
    text and without an aggregate; and an aggregate is there only
    without a selected file and without a review. *)
Theorem reachable_at_rest (w : World) :
  reachable env localeCompare w -> AtRest (app w).
Proof.
  induction 1 as [| w w' _ IH Hruns].
  - unfold AtRest. simpl_world. repeat split; congruence.
  - exact (handlerRuns_AtRest w w' IH Hruns).
Qed.

(** When the batch button is enabled in a state at rest, the batch
    neither returns silently nor asks for a key: it ends idle, either
    with the no-reviewable-files message and not a single event, or
    without an error and with an aggregate, which is then all the main
    area shows. *)
Theorem analyze_enabled_outcomes (w : World) :
  AtRest (app w) ->
  analyzeDisabled (app w) = false ->
  exists w',
    handleAnalyzeRepo env w = (Ok tt, w')
    /\ loading (app w') = IDLE
    /\ ((error (app w') =
           Some "No reviewable source code files found in this repository."
         /\ repoReviewResults (app w') = None
         /\ trace w' = trace w)
        \/ (error (app w') = None
            /\ exists results,
                 repoReviewResults (app w') = Some results
                 /\ mainPanels (app w') = [RepoReviewPanel results])).
Proof.
  intros (_ & _ & Htree & _) Henabled.
  unfold analyzeDisabled in Henabled.
  apply orb_false_iff in Henabled. destruct Henabled as [Henabled Hkey].
  apply orb_false_iff in Henabled. destruct Henabled as [_ Hlen].
  apply negb_false_iff in Hkey.
  destruct (repoOwnerAndName (app w)) as [[owner repo] |] eqn:Hrepo.
  2:{ exfalso. apply Htree; [|reflexivity].
      intros Hnil. rewrite Hnil in Hlen. discriminate. }
  unfold handleAnalyzeRepo.
  destruct (filesToReview SOURCE_CODE_EXTENSIONS (fileTree (app w)))
    as [| f rest] eqn:Hfiles.
  - unfold analyzeRepoWith. run_world. rewrite Hrepo, Hkey, Hfiles.
    run_world. cbn [List.length Nat.eqb]. run_world.
    eexists. split; [reflexivity|]. simpl_world.
    split; [reflexivity|]. left. repeat split; reflexivity.
  - destruct (analyzeRepoWith_run env SOURCE_CODE_EXTENSIONS w owner repo
                Hrepo Hkey) as (results & evs & Hrun).
    { rewrite Hfiles. discriminate. }
    rewrite Hrun. eexists. split; [reflexivity|]. simpl_world.
    split; [reflexivity|]. right. split; [reflexivity|].
    exists results. split; reflexivity.
Qed.

End BetweenHandlers.

(* ================================================================== *)
(** * URL parsing: [parseGithubUrl] *)
(* ================================================================== *)

Lemma string_take_drop (n : nat) (s : string) :
  (string_take n s ++ string_drop n s)%string = s.
Proof.
  revert s. induction n as [| n IH]; intros s.
  - destruct s; reflexivity.
  - destruct s as [| a s]; [reflexivity|].
    cbn [string_take string_drop].
    change (String a (string_take n s ++ string_drop n s)%string
            = String a s).
    rewrite IH. reflexivity.
Qed.

Lemma hasChar_string_take (c : ascii) (n : nat) (s : string) :
  hasChar c s = false -> hasChar c (string_take n s) = false.
Proof.
  revert s. induction n as [| n IH]; intros s; [destruct s; reflexivity|].
  destruct s as [| a s]; [reflexivity|].
  cbn [string_take hasChar]. intros H. apply orb_false_iff in H.
  destruct H as [-> H]. cbn [orb]. apply IH, H.
Qed.

(** [s.slice(0, -k)] undoes a suffix of [k] characters. *)
Lemma endsWith_sliceOffEnd (s suffix : string) :
  endsWith s suffix = true ->
  s = (sliceOffEnd (String.length suffix) s ++ suffix)%string.
Proof.
  unfold endsWith, sliceOffEnd. intros H. apply andb_true_iff in H.
  destruct H as [_ H]. apply String.eqb_eq in H.
  rewrite <- (string_take_drop (String.length s - String.length suffix) s)
    at 1.
  rewrite H. reflexivity.
Qed.

(** Splitting at a slash that joins two strings splits each of them. *)
Lemma split_app_separator (a b : string) :
  split "/" (a ++ "/" ++ b) = split "/" a ++ split "/" b.
Proof.
  induction a as [| c a IH].
  - reflexivity.
  - change (String c a ++ "/" ++ b)%string
      with (String c (a ++ "/" ++ b)%string).
    cbn [split]. rewrite IH.
    destruct (Ascii.eqb c "/"); [reflexivity|].
    pose proof (split_nonempty "/" a) as Hne.
    destruct (split "/" a) as [| seg segs]; [congruence | reflexivity].
Qed.

Section UrlParsing.

(** The platform's [new URL(url)]. *)
Variable newURL : string -> Result URLRecord.

(** What [parseGithubUrl] accepts and what it returns: the string is a
    URL on the host github.com exactly, the owner is the first
    non-empty segment of its path, and the repository is the second one
    with one trailing [.git] removed.  Neither holds a slash and the
    owner is not empty; the repository is empty when the second segment
    is [.git] itself. *)
Theorem parseGithubUrl_sound (url owner repo : string) :
  parseGithubUrl newURL url = Some (owner, repo) ->
  exists urlObj second rest,
    newURL url = Ok urlObj
    /\ hostname urlObj = "github.com"
    /\ filter truthy (split "/" (pathname urlObj)) = owner :: second :: rest
    /\ owner <> EmptyString
    /\ hasChar "/" owner = false
    /\ hasChar "/" repo = false
    /\ (second = (repo ++ ".git")%string
        \/ (second = repo /\ endsWith second ".git" = false)).
Proof.
  unfold parseGithubUrl.
  destruct (newURL url) as [urlObj | e]; [|discriminate].
  destruct (String.eqb (hostname urlObj) "github.com") eqn:Hhost;
    cbn [negb]; [|discriminate].
  apply String.eqb_eq in Hhost.
  pose proof (split_segments_no_separator (pathname urlObj)) as Hsegs.
  assert (Hparts : Forall (fun seg => hasChar "/" seg = false
                                      /\ truthy seg = true)
                          (filter truthy (split "/" (pathname urlObj)))).
  { apply Forall_forall. intros seg Hseg. apply filter_In in Hseg.
    rewrite Forall_forall in Hsegs. split; [apply Hsegs|]; tauto. }
  destruct (filter truthy (split "/" (pathname urlObj)))
    as [| first [| second rest]] eqn:Hfilter; cbn [List.length Nat.leb];
    [discriminate | discriminate |].
  inversion Hparts as [| ? ? (Hfirst & Htruthy) Hrest]; subst.
  inversion Hrest as [| ? ? (Hsecond & _) _]; subst.
  intros [= <- <-]. exists urlObj, second, rest.
  repeat split; auto.
  - intros ->. discriminate.
  - destruct (endsWith second ".git"); [|exact Hsecond].
    apply hasChar_string_take, Hsecond.
  - destruct (endsWith second ".git") eqn:Hends; [left | right; auto].
    apply (endsWith_sliceOffEnd second ".git" Hends).
Qed.

(** A link to something inside a repository parses as the repository:
    what follows the path of an accepted URL after a further slash
    changes nothing. *)
Theorem parseGithubUrl_ignores_deeper_path
    (url url' extra : string) (urlObj urlObj' : URLRecord)
    (parsed : string * string) :
  newURL url = Ok urlObj ->
  newURL url' = Ok urlObj' ->
  hostname urlObj' = hostname urlObj ->
  pathname urlObj' = (pathname urlObj ++ "/" ++ extra)%string ->
  parseGithubUrl newURL url = Some parsed ->
  parseGithubUrl newURL url' = Some parsed.
Proof.
  intros Hurl Hurl' Hhost Hpath. unfold parseGithubUrl.
  rewrite Hurl, Hurl', Hhost, Hpath, split_app_separator, filter_app.
  destruct (String.eqb (hostname urlObj) "github.com"); cbn [negb];
    [|discriminate].
  destruct (filter truthy (split "/" (pathname urlObj)))
    as [| first [| second rest]]; cbn [List.length Nat.leb];
    [discriminate | discriminate |].
  intros H. exact H.
Qed.

End UrlParsing.

(* ================================================================== *)
(** * The file browser on a built tree, and the report of a batch *)
(* ================================================================== *)

Section BuiltTreeClicks.

Variable localeCompare : string -> string -> Z.

(** A click on a file of the tree [buildFileTree] made hands
    [onSelect] a descriptor of the listing: the path of one of the
    files given, with the sha of that file.  The [sha!] assertion of
    [handleClick] is never wrong on such a tree. *)
Theorem handleClick_selects_listed_file
    (files : list GitHubFile) (node : TreeNode) (isOpen : bool) :
  In node (forestNodes (buildFileTree localeCompare files)) ->
  type node = blob ->
  exists g,
    In g files
    /\ sha node = Some (file_sha g)
    /\ handleClick node isOpen =
       OnSelect {| file_path := file_path g; file_type := blob;
                   file_sha := file_sha g |}.
Proof.
  intros Hnode Hblob.
  assert (Hin : In (nodeFacts node)
                   (map nodeFacts
                      (forestNodes (fold_left insertFile files [])))).
  { apply (Permutation_in _ (forestNodes_sortNodes localeCompare _)).
    apply in_map, Hnode. }
  apply in_map_iff in Hin. destruct Hin as (m & Hfacts & Hm).
  injection Hfacts as Hp Ht Hs.
  destruct (unsorted_BuiltFrom files) as [Hblobs _].
  destruct (Hblobs m Hm) as (g & Hg & Hgp & Hgs); [congruence|].
  exists g. unfold handleClick. rewrite Hblob, <- Hp, <- Hs, Hgp, Hgs.
  auto.
Qed.

End BuiltTreeClicks.

Section FailedBatch.

Variable env : Platform.

(** A loop in which every file fails returns the aggregate it was
    given. *)
Lemma reviewLoop_all_failed (owner repo key : string) (len : nat) :
  forall (pending : list GitHubFile) (i : nat)
         (results : gmap string ReviewResult) (w : World),
    (forall f, In f pending -> reviewFails env owner repo key f = true) ->
    fst (reviewLoop env owner repo key len i pending results w) = Ok results.
Proof.
  induction pending as [| file rest IH]; intros i results w Hfail.
  - reflexivity.
  - destruct (reviewLoop_turn env owner repo key len i file results w)
      as (s1 & logged & Hturn & _).
    cbn [reviewLoop]. unfold bind at 1. rewrite Hturn.
    pose proof (Hfail file (or_introl eq_refl)) as Hfile.
    unfold reviewFails in Hfile.
    destruct (reviewOutcome env owner repo key file); [discriminate|].
    apply IH. intros f Hf. apply Hfail. right. exact Hf.
Qed.

(** When every file of a batch fails, [handleAnalyzeRepo] still ends
    without an error and with an aggregate, the empty one; the main
    area shows the repository report alone, and the report, having no
    file with suggestions, is the "no issues" screen. *)
Theorem handleAnalyzeRepo_all_failed (w : World) (owner repo : string) :
  repoOwnerAndName (app w) = Some (owner, repo) ->
  truthy (apiKey (app w)) = true ->
  filesToReview SOURCE_CODE_EXTENSIONS (fileTree (app w)) <> [] ->
  (forall f,
     In f (filesToReview SOURCE_CODE_EXTENSIONS (fileTree (app w))) ->
     reviewFails env owner repo (apiKey (app w)) f = true) ->
  exists w',
    handleAnalyzeRepo env w = (Ok tt, w')
    /\ error (app w') = None
    /\ loading (app w') = IDLE
    /\ repoReviewResults (app w') = Some ∅
    /\ mainPanels (app w') = [RepoReviewPanel ∅]
    /\ filesWithSuggestions ∅ = [].
Proof.
  intros Hrepo Hkey Hne Hfail. unfold handleAnalyzeRepo.
  set (files := filesToReview SOURCE_CODE_EXTENSIONS (fileTree (app w))) in *.
  unfold analyzeRepoWith. run_world.
  rewrite Hrepo, Hkey. run_world. fold files.
  destruct (Nat.eqb (List.length files) 0) eqn:Hlen.
  { apply Nat.eqb_eq in Hlen. destruct files; [congruence | discriminate]. }
  run_world. unfold bind at 1.
  match goal with
  | |- context [reviewLoop env owner repo ?k ?n 0 files ∅ ?w0] =>
      pose proof (reviewLoop_all_failed owner repo k n files 0 ∅ w0 Hfail)
        as Hempty;
      destruct (reviewLoop_run env owner repo k n files 0 ∅ w0)
        as (results & s' & evs & Hrun & Hsame & _)
  end.
  rewrite Hrun in *. cbn [fst] in Hempty. injection Hempty as ->.
  run_world.
  destruct Hsame as (Hl & He & Hk & Ht & Hr & Hs & Hf & Hv & Hrr).
  cbn [app error] in He.
  eexists. split; [reflexivity|]. simpl_world.
  unfold mainPanels. simpl_world. rewrite He.
  repeat split; reflexivity.
Qed.

End FailedBatch.

(* ================================================================== *)
(** * The further properties on the sample inputs *)
(* ================================================================== *)

Lemma reviewCode_failure_messages_witness :
  fst (reviewCode demoPlatform "src/a.ts" "code" "" initialWorld) =
    Err "Gemini API Key is missing. Please provide it before running an analysis."
  /\ truthy "" = false.
Proof.
  assert (H : fst (reviewCode demoPlatform "src/a.ts" "code" "" initialWorld) =
              Err "Gemini API Key is missing. Please provide it before running an analysis.")
    by (vm_compute; reflexivity).
  split; [exact H|].
  destruct (reviewCode_failure_messages demoPlatform _ _ _ _ _ H)
    as [[Hkey _] | [Hkey _]]; [exact Hkey | discriminate Hkey].
Defined.

Lemma reviewCode_success_iff_witness :
  truthy "key" = true
  /\ fst (reviewCode demoPlatform "src/a.ts" "code" "key" initialWorld) =
     Ok demoReview.
Proof.
  split; [reflexivity|].
  apply (proj2 (reviewCode_success_iff demoPlatform "src/a.ts" "code" "key"
                  demoReview initialWorld eq_refl)).
  exists "{}". split; reflexivity.
Defined.

Lemma getFileContent_failure_wrapped_witness :
  exists cause,
    "Could not retrieve file content: Failed to fetch file content for src/b.py. Status: 404" =
    ("Could not retrieve file content: " ++ cause)%string
    /\ In (ConsoleError ("GitHub API Error: " ++ cause)%string)
          (trace (snd (getFileContent demoPlatform "octo" "demo" "src/b.py"
                         initialWorld))).
Proof.
  apply (getFileContent_failure_wrapped demoPlatform "octo" "demo" "src/b.py"
           _ initialWorld).
  vm_compute. reflexivity.
Defined.

Lemma getRepoTree_repo_failure_witness :
  exists cause,
    getRepoTree missingRepoPlatform "octo" "gone" initialWorld =
    (Err ("Could not retrieve repository files: " ++ cause)%string,
     {| app := app initialWorld;
        trace := trace initialWorld
                 ++ [FetchRepo "octo" "gone";
                     ConsoleError ("GitHub API Error: " ++ cause)%string] |}).
Proof.
  apply (getRepoTree_repo_failure missingRepoPlatform "octo" "gone"
           initialWorld).
  intros res Hres. vm_compute in Hres. injection Hres as <-. reflexivity.
Defined.

Lemma getRepoTree_status_message_witness :
  fst (getRepoTree missingRepoPlatform "octo" "gone" initialWorld) =
  Err "Could not retrieve repository files: Repository not found. Please check the URL.".
Proof.
  exact (getRepoTree_status_message missingRepoPlatform "octo" "gone"
           (mkResponse false 404 (Err "Unexpected end of JSON input"))
           initialWorld eq_refl eq_refl).
Defined.


Lemma buildFileTree_keeps_every_path_witness :
  In (mkGitHubFile "src/b.py" blob "s3") demoFiles
  /\ In "src/b.py"
        (map path (forestNodes (buildFileTree codeUnitCompare demoFiles))).
Proof.
  assert (H : In (mkGitHubFile "src/b.py" blob "s3") demoFiles)
    by (right; right; left; reflexivity).
  split; [exact H|].
  exact (buildFileTree_keeps_every_path codeUnitCompare demoFiles _ H).
Defined.

Lemma buildFileTree_ordered_everywhere_witness :
  ConsistentComparator codeUnitCompare
  /\ conflictFree demoFiles = true
  /\ OrderedForest codeUnitCompare (fun _ => True)
       (buildFileTree codeUnitCompare demoFiles).
Proof.
  split; [exact codeUnitCompare_consistent|].
  split; [reflexivity|].
  apply (buildFileTree_ordered_everywhere codeUnitCompare demoFiles
           codeUnitCompare_consistent).
  reflexivity.
Defined.

Lemma handleFileSelect_review_success_witness :
  exists w',
    handleFileSelect demoPlatform (mkGitHubFile "src/a.ts" blob "s1")
      demoWorld = (Ok tt, w')
    /\ review (app w') = Some demoReview
    /\ mainPanels (app w') = [ReviewPanel demoReview "code" "src/a.ts"].
Proof.
  destruct (handleFileSelect_review_success demoPlatform
              (mkGitHubFile "src/a.ts" blob "s1") demoWorld "octo" "demo"
              "code" demoReview)
    as (w' & Hrun & _ & _ & Hreview & _ & _ & _ & _ & _ & Hpanels).
  - reflexivity.
  - reflexivity.
  - reflexivity.
  - vm_compute. reflexivity.
  - vm_compute. reflexivity.
  - exists w'. auto.
Defined.

Lemma handleFileSelect_review_failure_witness :
  exists w',
    handleFileSelect rejectingPlatform (mkGitHubFile "src/a.ts" blob "s1")
      demoWorld = (Ok tt, w')
    /\ fileContent (app w') = Some "code"
    /\ mainPanels (app w') =
       [MainAlert
          "Invalid Gemini API Key. Please check your key and try again."].
Proof.
  destruct (handleFileSelect_review_failure rejectingPlatform
              (mkGitHubFile "src/a.ts" blob "s1") demoWorld "octo" "demo"
              "code"
              "Invalid Gemini API Key. Please check your key and try again.")
    as (w' & Hrun & _ & Hcontent & _ & _ & _ & _ & Hpanels).
  - reflexivity.
  - reflexivity.
  - reflexivity.
  - vm_compute. reflexivity.
  - vm_compute. reflexivity.
  - exists w'. auto.
Defined.

Lemma handlers_without_repository_witness :
  repoOwnerAndName (app initialWorld) = None
  /\ handleFileSelect demoPlatform (mkGitHubFile "src/a.ts" blob "s1")
       initialWorld = (Ok tt, initialWorld)
  /\ handleAnalyzeRepo demoPlatform initialWorld = (Ok tt, initialWorld).
Proof.
  split; [reflexivity|].
  apply (handlers_without_repository demoPlatform
           (mkGitHubFile "src/a.ts" blob "s1") initialWorld).
  reflexivity.
Defined.

Lemma handleAnalyzeRepo_missing_key_witness :
  exists w',
    handleAnalyzeRepo demoPlatform demoWorldKeyCleared = (Ok tt, w')
    /\ error (app w') =
       Some "Please enter your Gemini API Key to analyze the repository."
    /\ trace w' = trace demoWorldKeyCleared.
Proof.
  destruct (handleAnalyzeRepo_missing_key demoPlatform demoWorldKeyCleared
              "octo" "demo")
    as (w' & Hrun & Herror & Htrace & _).
  - reflexivity.
  - reflexivity.
  - exists w'. auto.
Defined.

Lemma handleAnalyzeRepo_review_requests_witness :
  reviewCalls (trace (snd (handleAnalyzeRepo demoPlatform demoWorld))) =
  [GenerateContent "src/a.ts" "code"].
Proof.
  rewrite (handleAnalyzeRepo_review_requests demoPlatform demoWorld
             "octo" "demo" eq_refl eq_refl).
  vm_compute. reflexivity.
Defined.

Lemma handleFetchRepo_success_witness :
  exists w',
    handleFetchRepo demoPlatform codeUnitCompare "octo" "demo" initialWorld =
    (Ok tt, w')
    /\ fileTree (app w') =
       buildFileTree codeUnitCompare (listedFiles demoListing)
    /\ mainPanels (app w') = [WelcomeScreen].
Proof.
  destruct (handleFetchRepo_success demoPlatform codeUnitCompare
              "octo" "demo" (listedFiles demoListing) initialWorld)
    as (w' & Hrun & Htree & _ & _ & _ & _ & _ & _ & _ & _ & _ & _ & Hpanels).
  - vm_compute. reflexivity.
  - exists w'. auto.
Defined.

Lemma handleFetchRepo_failure_witness :
  exists w',
    handleFetchRepo offlinePlatform codeUnitCompare "octo" "demo" demoWorld =
    (Ok tt, w')
    /\ mainPanels (app w') =
       [WelcomeScreen;
        MainAlert "Could not retrieve repository files: Failed to fetch"]
    /\ analyzeDisabled (app w') = true.
Proof.
  destruct (handleFetchRepo_failure offlinePlatform codeUnitCompare
              "octo" "demo"
              "Could not retrieve repository files: Failed to fetch"
              demoWorld)
    as (w' & Hrun & _ & _ & _ & _ & _ & _ & Hpanels & Hdisabled).
  - vm_compute. reflexivity.
  - exists w'. auto.
Defined.

Lemma reachable_at_rest_witness :
  AtRest
    (app (snd (handleFileSelect demoPlatform
                 (mkGitHubFile "src/a.ts" blob "s1")
                 (snd (handleFetchRepo demoPlatform codeUnitCompare
                         "octo" "demo"
                         (snd (setApiKey "key" initialWorld))))))).
Proof.
  apply (reachable_at_rest demoPlatform codeUnitCompare).
  eapply reachable_next; [|apply runs_handleFileSelect].
  eapply reachable_next; [|apply runs_handleFetchRepo].
  eapply reachable_next; [|apply runs_setApiKey].
  apply reachable_initial.
Defined.

Lemma analyze_enabled_outcomes_witness :
  analyzeDisabled (app demoWorld) = false
  /\ exists w',
       handleAnalyzeRepo demoPlatform demoWorld = (Ok tt, w')
       /\ loading (app w') = IDLE.
Proof.
  split; [reflexivity|].
  destruct (analyze_enabled_outcomes demoPlatform demoWorld)
    as (w' & Hrun & Hidle & _).
  - unfold AtRest. cbn [app demoWorld loading reviewProgress fileTree
                        repoOwnerAndName selectedFile review
                        repoReviewResults fileContent].
    repeat split; congruence.
  - reflexivity.
  - exists w'. auto.
Defined.

Lemma parseGithubUrl_sound_witness :
  parseGithubUrl demoNewURL "https://github.com/octo/demo.git" =
    Some ("octo", "demo")
  /\ exists urlObj second,
       demoNewURL "https://github.com/octo/demo.git" = Ok urlObj
       /\ hostname urlObj = "github.com"
       /\ (second = "demo.git" \/ (second = "demo"
                                   /\ endsWith second ".git" = false)).
Proof.
  split; [vm_compute; reflexivity|].
  destruct (parseGithubUrl_sound demoNewURL
              "https://github.com/octo/demo.git" "octo" "demo")
    as (urlObj & second & rest & Hurl & Hhost & _ & _ & _ & _ & Hsecond).
  - vm_compute. reflexivity.
  - exists urlObj, second. auto.
Defined.

Lemma parseGithubUrl_ignores_deeper_path_witness :
  parseGithubUrl demoNewURL "https://github.com/octo/demo.git/tree/main" =
  Some ("octo", "demo").
Proof.
  apply (parseGithubUrl_ignores_deeper_path demoNewURL
           "https://github.com/octo/demo.git"
           "https://github.com/octo/demo.git/tree/main" "tree/main"
           {| hostname := "github.com"; pathname := "/octo/demo.git" |}
           {| hostname := "github.com";
              pathname := "/octo/demo.git/tree/main" |}
           ("octo", "demo"));
    vm_compute; reflexivity.
Defined.

Lemma handleClick_selects_listed_file_witness :
  exists g,
    In g demoFiles
    /\ sha (mkTreeNode "readme.md" "readme.md" blob [] (Some "s2")) =
       Some (file_sha g)
    /\ handleClick (mkTreeNode "readme.md" "readme.md" blob [] (Some "s2"))
         false =
       OnSelect {| file_path := file_path g; file_type := blob;
                   file_sha := file_sha g |}.
Proof.
  apply (handleClick_selects_listed_file codeUnitCompare demoFiles
           (mkTreeNode "readme.md" "readme.md" blob [] (Some "s2")) false).
  - vm_compute. right. right. right. left. reflexivity.
  - reflexivity.
Defined.

Lemma handleAnalyzeRepo_all_failed_witness :
  exists w',
    handleAnalyzeRepo offlinePlatform demoWorld = (Ok tt, w')
    /\ error (app w') = None
    /\ repoReviewResults (app w') = Some ∅
    /\ mainPanels (app w') = [RepoReviewPanel ∅].
Proof.
  destruct (handleAnalyzeRepo_all_failed offlinePlatform demoWorld
              "octo" "demo")
    as (w' & Hrun & Herror & _ & Hresults & Hpanels & _).
  - reflexivity.
  - reflexivity.
  - vm_compute. discriminate.
  - intros f Hf. vm_compute in Hf.
    destruct Hf as [<- | [<- | []]]; vm_compute; reflexivity.
  - exists w'. auto.
Defined.
